(** * ggufmeta: the GGUF metadata scanner, value decoder and key-value stream

    A shallow embedding of [cmd/ggufmeta/scanner.go], [cmd/ggufmeta/types.go],
    the value decoder (the two-pass array strategy) and [cmd/ggufmeta/parser.go],
    followed by the properties of the decoder.

    Conventions of the embedding.
    - A Go [uintN] is a [Z] in [0, 2^N); additions that can leave the range are
      written with [wrap64].  Go's [int] is the 64-bit one.
    - The [io.Reader] behind a scanner is the list of the bytes it has not
      handed out yet.  [io.ReadFull] either delivers the [n] bytes asked for
      or drains the reader and reports [io.EOF] / [io.ErrUnexpectedEOF].
    - A method [(s *scanner) f(args) (T, error)] is a function
      [scanner -> outcome T * scanner]: the scanner after the call is returned
      on success, on error and at a run-time panic alike.
    - Writes to [os.Stderr] under [pol.debug] change nothing that is modelled
      and are left out; so is the memory a slice allocation needs. *)

From Stdlib Require Import ZArith List Bool Lia String Ascii.
From Stdlib.Strings Require Import Byte.
From Stdlib Require Import DecimalString Sorted.
From stdpp Require Import base strings gmap.
Import ListNotations.

Local Open Scope string_scope.
Local Open Scope Z_scope.

Set Warnings "-register-all".

(** ** Machine integers *)

Definition wrap64 (z : Z) : Z := z mod 2 ^ 64.

(** [int(n)] for [n : uint64]. *)
Definition int_of_uint64 (n : Z) : Z :=
  if n <? 2 ^ 63 then n else n - 2 ^ 64.

Definition int8_of_uint8 (u : Z) : Z := if u <? 2 ^ 7 then u else u - 2 ^ 8.
Definition int16_of_uint16 (u : Z) : Z := if u <? 2 ^ 15 then u else u - 2 ^ 16.
Definition int32_of_uint32 (u : Z) : Z := if u <? 2 ^ 31 then u else u - 2 ^ 32.
Definition int64_of_uint64 (u : Z) : Z := if u <? 2 ^ 63 then u else u - 2 ^ 64.

Definition byte_val (b : byte) : Z := Z.of_N (Byte.to_N b).

(** ** encoding/binary *)

Inductive ByteOrder : Type := LittleEndian | BigEndian.

(** The unsigned value of a byte string, least significant byte first. *)
Fixpoint le_value (bs : list byte) : Z :=
  match bs with
  | [] => 0
  | b :: rest => byte_val b + 2 ^ 8 * le_value rest
  end.

(** [order.Uint16(b)], [order.Uint32(b)], [order.Uint64(b)] on a slice that
    has exactly the width asked for. *)
Definition order_uint (o : ByteOrder) (bs : list byte) : Z :=
  match o with
  | LittleEndian => le_value bs
  | BigEndian => le_value (rev bs)
  end.

(** ** Results *)

Inductive error : Type :=
| ErrEOF                                   (* io.EOF *)
| ErrUnexpectedEOF                         (* io.ErrUnexpectedEOF *)
| ErrStringTooLarge (n max : Z)            (* "string too large: %d > %d" *)
| ErrBadScalarTag (tag : Z)                (* "bad scalar tag %d" *)
| ErrBadMagic (got : string)               (* "bad magic: got %q, expected %q" *)
| ErrUnsupportedVersion (le be : Z)        (* "unsupported GGUF version: ..." *)
| ErrHeaderRead (cause : error)            (* "failed to read GGUF header: %w" *)
| ErrKey (key : string) (cause : error).   (* "key %q: %w" *)

Inductive panic : Type :=
| PanicMakeSliceLen                        (* make([]byte, n) with n < 0 *)
| PanicIndex (i len : Z)                   (* index out of range [i] with length len *)
| PanicNilOrder                            (* method call on the nil byte order *)
| PanicStack.                              (* the call budget of the model is spent *)

Inductive outcome (A : Type) : Type :=
| Ok (a : A)
| Fail (e : error)
| Crash (c : panic).
Arguments Ok {A} a.
Arguments Fail {A} e.
Arguments Crash {A} c.

(** The error classes of the format description. *)
Fixpoint root_cause (e : error) : error :=
  match e with
  | ErrHeaderRead c => root_cause c
  | ErrKey _ c => root_cause c
  | _ => e
  end.

Definition is_ShortRead (e : error) : bool :=
  match root_cause e with ErrEOF | ErrUnexpectedEOF => true | _ => false end.
Definition is_OversizedField (e : error) : bool :=
  match root_cause e with ErrStringTooLarge _ _ => true | _ => false end.
Definition is_UnknownType (e : error) : bool :=
  match root_cause e with ErrBadScalarTag _ => true | _ => false end.
Definition is_BadMagic (e : error) : bool :=
  match root_cause e with ErrBadMagic _ => true | _ => false end.
Definition is_UnsupportedVersion (e : error) : bool :=
  match root_cause e with ErrUnsupportedVersion _ _ => true | _ => false end.

(** ** scanner.go *)

Record scanner : Type := mkScanner {
  src : list byte;              (* r: what the reader has left *)
  order : option ByteOrder;     (* nil until the header is resolved *)
  pos : Z                       (* uint64 *)
}.

Definition newScanner (r : list byte) : scanner :=
  {| src := r; order := None; pos := 0 |}.

Definition scan (A : Type) : Type := scanner -> outcome A * scanner.

Definition ret {A} (a : A) : scan A := fun s => (Ok a, s).
Definition fail {A} (e : error) : scan A := fun s => (Fail e, s).
Definition crash {A} (c : panic) : scan A := fun s => (Crash c, s).

Definition bind {A B} (m : scan A) (k : A -> scan B) : scan B :=
  fun s =>
    match m s with
    | (Ok a, s') => k a s'
    | (Fail e, s') => (Fail e, s')
    | (Crash c, s') => (Crash c, s')
    end.

Notation "x <- m ;; k" := (bind m (fun x => k))
  (at level 60, m at next level, right associativity).

(** [readExact]: [io.ReadFull] into a fresh buffer of [n] bytes; the position
    moves only when the read succeeded. *)
Definition readExact (n : Z) : scan (list byte) := fun s =>
  if n <? 0 then (Crash PanicMakeSliceLen, s)
  else if n <=? Z.of_nat (length (src s)) then
    (Ok (firstn (Z.to_nat n) (src s)),
     {| src := skipn (Z.to_nat n) (src s); order := order s;
        pos := wrap64 (pos s + n) |})
  else
    (Fail (match src s with [] => ErrEOF | _ :: _ => ErrUnexpectedEOF end),
     {| src := []; order := order s; pos := pos s |}).

Definition b (n : Z) : scan (list byte) := readExact n.

(** [s.order.UintN(b)]: the byte order is an interface value, nil on a fresh
    scanner. *)
Definition with_order (bs : list byte) : scan Z := fun s =>
  match order s with
  | Some o => (Ok (order_uint o bs), s)
  | None => (Crash PanicNilOrder, s)
  end.

(** [b[0]] of a one-byte buffer. *)
Definition byte0 (bs : list byte) : Z := byte_val (nth 0 bs x00).

Definition U8 : scan Z := bs <- readExact 1 ;; ret (byte0 bs).
Definition I8 : scan Z := bs <- readExact 1 ;; ret (int8_of_uint8 (byte0 bs)).
Definition U16 : scan Z := bs <- readExact 2 ;; with_order bs.
Definition I16 : scan Z :=
  bs <- readExact 2 ;; u <- with_order bs ;; ret (int16_of_uint16 u).
Definition U32 : scan Z := bs <- readExact 4 ;; with_order bs.
Definition I32 : scan Z :=
  bs <- readExact 4 ;; u <- with_order bs ;; ret (int32_of_uint32 u).
Definition U64 : scan Z := bs <- readExact 8 ;; with_order bs.
Definition I64 : scan Z :=
  bs <- readExact 8 ;; u <- with_order bs ;; ret (int64_of_uint64 u).
(** [math.Float32frombits] and [math.Float64frombits] reinterpret the bits:
    a float is carried as its IEEE-754 bit pattern. *)
Definition F32 : scan Z := U32.
Definition F64 : scan Z := U64.

Definition GGUFString (max : Z) : scan string :=
  n <- U64 ;;
  if n >? max then fail (ErrStringTooLarge n max)
  else buf <- b (int_of_uint64 n) ;; ret (string_of_list_byte buf).

Definition Align (n : Z) : scan unit := fun s =>
  if n =? 0 then (Ok tt, s)
  else
    let rem := pos s mod n in
    if negb (rem =? 0) then
      (_ <- b (int_of_uint64 (n - rem)) ;; ret tt) s
    else (Ok tt, s).

Definition Align8 : scan unit := Align 8.

(** ** types.go *)

Definition magicGGUF : string := "GGUF".

Definition tUint8 : Z := 0.
Definition tInt8 : Z := 1.
Definition tUint16 : Z := 2.
Definition tInt16 : Z := 3.
Definition tUint32 : Z := 4.
Definition tInt32 : Z := 5.
Definition tFloat32 : Z := 6.
Definition tBool : Z := 7.
Definition tString : Z := 8.
Definition tArray : Z := 9.
Definition tUint64 : Z := 10.
Definition tInt64 : Z := 11.
Definition tFloat64 : Z := 12.

Definition typeNames : list string :=
  [ "uint8"; "int8"; "uint16"; "int16"; "uint32"; "int32"; "float32"; "bool";
    "string"; "array"; "uint64"; "int64"; "float64" ].

Record policy : Type := mkPolicy {
  maxArray : Z;
  maxString : Z;
  debug : bool;
  expandArrays : gmap string bool;
  expandPrefixes : list string
}.

Record headerEvent : Type := mkHeaderEvent {
  Kind : string;
  Version : Z;
  TensorCount : Z;
  KVCount : Z
}.

(** What an [any] of the decoder can hold.  A placeholder is the three-entry
    [map[string]any] with the keys [_placeholder], [count], [element_type]. *)
Inductive value : Type :=
| VNil
| VUint8 (u : Z)
| VInt8 (i : Z)
| VUint16 (u : Z)
| VInt16 (i : Z)
| VUint32 (u : Z)
| VInt32 (i : Z)
| VFloat32 (bits : Z)
| VBool (t : bool)
| VString (str : string)
| VUint64 (u : Z)
| VInt64 (i : Z)
| VFloat64 (bits : Z)
| VSlice (elems : list value)
| VPlaceholder (placeholder : string) (count : Z) (element_type : string).

Record kvEvent : Type := mkKvEvent {
  Key : string;
  Type_ : string;
  Value : value
}.

Definition kvEvent_zero : kvEvent := {| Key := ""; Type_ := ""; Value := VNil |}.
Definition headerEvent_zero : headerEvent :=
  {| Kind := ""; Version := 0; TensorCount := 0; KVCount := 0 |}.

(** ** The value decoder *)

Definition len {A} (l : list A) : Z := Z.of_nat (length l).

(** [l[i]], with Go's bounds check. *)
Definition index {A} (l : list A) (i : Z) : scan A := fun s =>
  match l !! Z.to_nat i with
  | Some x => if i <? 0 then (Crash (PanicIndex i (len l)), s) else (Ok x, s)
  | None => (Crash (PanicIndex i (len l)), s)
  end.

(** [l[i]] where the code has checked [i < len(l)] before. *)
Definition at_ (l : list string) (i : Z) : string := nth (Z.to_nat i) l "".

Definition fmap_scan {A B} (f : A -> B) (m : scan A) : scan B :=
  a <- m ;; ret (f a).

Definition scalars : list (option (scan value)) :=
  [ Some (fmap_scan VUint8 U8);
    Some (fmap_scan VInt8 I8);
    Some (fmap_scan VUint16 U16);
    Some (fmap_scan VInt16 I16);
    Some (fmap_scan VUint32 U32);
    Some (fmap_scan VInt32 I32);
    Some (fmap_scan VFloat32 F32);
    Some (fmap_scan (fun u => VBool (negb (u =? 0))) U8);
    None;
    None;
    Some (fmap_scan VUint64 U64);
    Some (fmap_scan VInt64 I64);
    Some (fmap_scan VFloat64 F64) ].

(** [%d] of an unsigned number. *)
Definition decimal (n : Z) : string := NilZero.string_of_uint (N.to_uint (Z.to_N n)).

Definition typeLabel (tag : Z) (shape : string) : string :=
  if tag <? len typeNames then
    if String.eqb shape "" then at_ typeNames tag
    else at_ typeNames tag ++ shape
  else
    if String.eqb shape "" then "unknown(" ++ decimal tag ++ ")"
    else "unknown(" ++ decimal tag ++ ")" ++ shape.

(** main.go, [safeCapFromCount]: the capacity asked for an expanded array,
    clamped to the largest [int]. *)
Definition safeCapFromCount (n : Z) : Z :=
  let maxInt := 2 ^ 63 - 1 in
  if n >? maxInt then maxInt else int_of_uint64 n.

Section Decoder.

(** The methods below read [p.pol] and change nothing of the parser but
    [p.scn]: they are scanner computations with the policy as a parameter. *)
Variable pol : policy.

Definition readScalar (tag : Z) : scan (value * string) :=
  if tag =? tString then
    str <- GGUFString (maxString pol) ;; ret (VString str, "string")
  else
    match (if tag >=? len scalars then None else mjoin (scalars !! Z.to_nat tag)) with
    | None => fail (ErrBadScalarTag tag)
    | Some dec => v <- dec ;; ret (v, typeLabel tag "")
    end.

(** The loop [for i := uint64(0); i < count; i++] of [bulkSkipArrayElements],
    entered at [i].  Go recurses on the nested arrays; [fuel] bounds the depth
    of the calls of the model, and [PanicStack] is what an exhausted budget
    returns. *)
Fixpoint bulkSkip_from (fuel : nat) (elementType count i : Z) : scan unit :=
  match fuel with
  | O => crash PanicStack
  | S fuel' =>
    if i <? count then
      if elementType =? tArray then
        nestedET <- U32 ;;
        nestedN <- U64 ;;
        _ <- bulkSkip_from fuel' nestedET nestedN 0 ;;
        bulkSkip_from fuel' elementType count (i + 1)
      else
        _ <- readScalar elementType ;;
        bulkSkip_from fuel' elementType count (i + 1)
    else ret tt
  end.

(** Every element that is skipped takes at least one byte off the reader, so
    one more than the number of bytes left is budget enough
    (see [bulkSkip_from_enough]). *)
Definition bulkSkipArrayElements (elementType count : Z) : scan unit := fun s =>
  bulkSkip_from (S (length (src s))) elementType count 0 s.

Definition nested_placeholder (nestedN : Z) (name : string) : value :=
  VPlaceholder "nested_array" nestedN name.

(** The loop of [readExpandedArray], entered at [i] with the [results]
    appended so far. *)
Fixpoint readExpanded_from (fuel : nat) (elementType count i : Z)
    (results : list value) : scan (list value) :=
  match fuel with
  | O => crash PanicStack
  | S fuel' =>
    if i <? count then
      if elementType =? tArray then
        nestedET <- U32 ;;
        nestedN <- U64 ;;
        _ <- bulkSkipArrayElements nestedET nestedN ;;
        name <- index typeNames nestedET ;;
        readExpanded_from fuel' elementType count (i + 1)
          (results ++ [nested_placeholder nestedN name])
      else
        r <- readScalar elementType ;;
        readExpanded_from fuel' elementType count (i + 1) (results ++ [fst r])
    else ret results
  end.

(** [readExpandedArray] starts from [make([]any, 0, safeCapFromCount(count))];
    the capacity changes nothing of what is appended, and what the
    allocation costs is not modelled. *)
Definition readExpandedArray (elementType count : Z) (elemName : string)
    : scan (value * string) := fun s =>
  (results <- readExpanded_from (S (length (src s))) elementType count 0 [] ;;
   ret (VSlice results, "array[" ++ elemName ++ "]")) s.

(** The expand decision of [readArray]: the exact key first, then the
    prefixes in order until one matches. *)
Definition shouldExpand (key : string) : bool :=
  let exact := default false (expandArrays pol !! key) in
  if negb exact then existsb (fun prefix => String.prefix prefix key) (expandPrefixes pol)
  else exact.

Definition array_placeholder (n : Z) (elemName : string) : value :=
  VPlaceholder "array" n elemName.

Definition readArray (key : string) : scan (value * string * bool) :=
  et <- U32 ;;
  n <- U64 ;;
  let elemName := if et <? len typeNames then at_ typeNames et else "unknown" in
  if shouldExpand key then
    fun s =>
      match readExpandedArray et n elemName s with
      | (Ok (result, label), s') => (Ok (result, label, false), s')
      | (Fail e, s') => (Fail e, s')
      | (Crash c, s') => (Crash c, s')
      end
  else
    _ <- bulkSkipArrayElements et n ;;
    ret (array_placeholder n elemName, "array[" ++ elemName ++ "]", false).

(** [alignBeforeValue] is a package variable set once from the command
    line. *)
Variable alignBeforeValue : bool.

Definition readValue (tag : Z) (key : string) : scan (value * string * bool) :=
  _ <- (if alignBeforeValue then Align8 else ret tt) ;;
  if tag =? tArray then readArray key
  else
    r <- readScalar tag ;;
    ret (fst r, snd r, false).

End Decoder.

(** ** parser.go *)

Record parser : Type := mkParser {
  scn : scanner;
  fileSize : Z;
  endianHint : string;
  kvRemain : Z;
  version : Z;
  tc : Z;
  kv : Z;
  pol : policy
}.

(** [b[lo:hi]] *)
Definition slice {A} (l : list A) (lo hi : nat) : list A :=
  firstn (hi - lo) (skipn lo l).

Definition newParser (r : list byte) (size : Z) (pol : policy)
    : outcome (parser * headerEvent) :=
  match readExact 24 (newScanner r) with
  | (Crash c, _) => Crash c
  | (Fail e, _) => Fail (ErrHeaderRead e)
  | (Ok headerBytes, scn0) =>
    if negb (String.eqb (string_of_list_byte (slice headerBytes 0 4)) magicGGUF) then
      Fail (ErrBadMagic (string_of_list_byte (slice headerBytes 0 4)))
    else
      let versionLE := order_uint LittleEndian (slice headerBytes 4 8) in
      let versionBE := order_uint BigEndian (slice headerBytes 4 8) in
      let resolved :=
        if versionLE =? 3 then Some (LittleEndian, 3, "LE")
        else if versionBE =? 3 then Some (BigEndian, 3, "BE")
        else None in
      match resolved with
      | None => Fail (ErrUnsupportedVersion versionLE versionBE)
      | Some (o, version, endianness) =>
        let scn1 := {| src := src scn0; order := Some o; pos := pos scn0 |} in
        let tc := order_uint o (slice headerBytes 8 16) in
        let kv := order_uint o (slice headerBytes 16 24) in
        Ok ({| scn := scn1; fileSize := size; endianHint := endianness;
               kvRemain := kv; version := version; tc := tc; kv := kv;
               pol := pol |},
            {| Kind := "header"; Version := version; TensorCount := tc;
               KVCount := kv |})
      end
  end.

Definition set_scn (p : parser) (s : scanner) : parser :=
  {| scn := s; fileSize := fileSize p; endianHint := endianHint p;
     kvRemain := kvRemain p; version := version p; tc := tc p; kv := kv p;
     pol := pol p |}.

Definition set_kvRemain (p : parser) (n : Z) : parser :=
  {| scn := scn p; fileSize := fileSize p; endianHint := endianHint p;
     kvRemain := n; version := version p; tc := tc p; kv := kv p;
     pol := pol p |}.

Section Stream.

Variable alignBeforeValue : bool.

(** [nextKV] returns [(kvEvent, bool, error)]; the parser after the call is
    the second component. *)
Definition nextKV (p : parser) : outcome (kvEvent * bool) * parser :=
  if kvRemain p =? 0 then (Ok (kvEvent_zero, false), p)
  else
    match GGUFString (maxString (pol p)) (scn p) with
    | (Crash c, s1) => (Crash c, set_scn p s1)
    | (Fail e, s1) => (Fail e, set_scn p s1)
    | (Ok key, s1) =>
      match U32 s1 with
      | (Crash c, s2) => (Crash c, set_scn p s2)
      | (Fail e, s2) => (Fail (ErrKey key e), set_scn p s2)
      | (Ok tag, s2) =>
        match readValue (pol p) alignBeforeValue tag key s2 with
        | (Crash c, s3) => (Crash c, set_scn p s3)
        | (Fail e, s3) => (Fail (ErrKey key e), set_scn p s3)
        | (Ok (val, typ, omitted), s3) =>
          let p' := set_kvRemain (set_scn p s3) (wrap64 (kvRemain p - 1)) in
          if omitted then (Ok (kvEvent_zero, true), p')
          else (Ok ({| Key := key; Type_ := typ; Value := val |}, true), p')
        end
      end
    end.

(** The loop of [main]: call [nextKV] until it reports an error or no more
    entries; an entry with the empty key or one the [--keys] prefix rejects
    is dropped, the others are encoded in order.  [fuel] bounds the number of
    calls. *)
Inductive stop : Type := Finished | Aborted (e : error) | Panicked (c : panic) | Running.

Record run : Type := mkRun {
  produced : list kvEvent;      (* what nextKV returned with ok = true *)
  emitted : list kvEvent;       (* what was handed to the encoder *)
  final : parser;
  status : stop
}.

Fixpoint mainLoop (matchKey : string -> bool) (fuel : nat) (p : parser) : run :=
  match fuel with
  | O => {| produced := []; emitted := []; final := p; status := Running |}
  | S fuel' =>
    match nextKV p with
    | (Crash c, p') => {| produced := []; emitted := []; final := p'; status := Panicked c |}
    | (Fail e, p') => {| produced := []; emitted := []; final := p'; status := Aborted e |}
    | (Ok (_, false), p') => {| produced := []; emitted := []; final := p'; status := Finished |}
    | (Ok (ev, true), p') =>
      let rest := mainLoop matchKey fuel' p' in
      {| produced := ev :: produced rest;
         emitted := if String.eqb (Key ev) "" then emitted rest
                    else if negb (matchKey (Key ev)) then emitted rest
                    else ev :: emitted rest;
         final := final rest;
         status := status rest |}
    end
  end.

End Stream.

(** ** Examples *)

Definition defaultPolicy : policy :=
  {| maxArray := 32; maxString := 131072; debug := false;
     expandArrays := ∅; expandPrefixes := [] |}.

Definition prologue_v3_le : list byte :=
  [ x47; x47; x55; x46;  x03; x00; x00; x00;
    x01; x00; x00; x00; x00; x00; x00; x00;
    x01; x00; x00; x00; x00; x00; x00; x00 ].

Definition entry_a_uint32_42 : list byte :=
  [ x01; x00; x00; x00; x00; x00; x00; x00;  x61;
    x04; x00; x00; x00;
    x2a; x00; x00; x00 ].


(** ** Well-formed scanners and operation sequences *)

(** The reader is a file: its size, and so every offset into it, fits Go's
    [int64].  The position of a scanner over it then never wraps. *)
Definition scanner_wf (s : scanner) : Prop :=
  0 <= pos s /\ pos s + len (src s) < 2 ^ 63.

(** The exported operations of the scanner. *)
Inductive scanOp : Type :=
| OpReadExact (n : Z)
| OpU8 | OpI8 | OpU16 | OpI16 | OpU32 | OpI32 | OpU64 | OpI64 | OpF32 | OpF64
| OpGGUFString (max : Z)
| OpAlign (n : Z).

Definition panic_of {A} (r : outcome A) : option panic :=
  match r with Crash c => Some c | _ => None end.

Definition succeeded {A} (r : outcome A) : bool :=
  match r with Ok _ => true | _ => false end.

(** One operation: whether it succeeded, and the scanner it leaves. *)
Definition runOp (op : scanOp) (s : scanner) : bool * scanner :=
  let forget {A} (x : outcome A * scanner) := (succeeded (fst x), snd x) in
  match op with
  | OpReadExact n => forget (readExact n s)
  | OpU8 => forget (U8 s)
  | OpI8 => forget (I8 s)
  | OpU16 => forget (U16 s)
  | OpI16 => forget (I16 s)
  | OpU32 => forget (U32 s)
  | OpI32 => forget (I32 s)
  | OpU64 => forget (U64 s)
  | OpI64 => forget (I64 s)
  | OpF32 => forget (F32 s)
  | OpF64 => forget (F64 s)
  | OpGGUFString max => forget (GGUFString max s)
  | OpAlign n => forget (Align n s)
  end.

(** The declared width of a typed read. *)
Definition width (op : scanOp) : option Z :=
  match op with
  | OpU8 | OpI8 => Some 1
  | OpU16 | OpI16 => Some 2
  | OpU32 | OpI32 | OpF32 => Some 4
  | OpU64 | OpI64 | OpF64 => Some 8
  | _ => None
  end.

Definition runOps (ops : list scanOp) (s : scanner) : scanner :=
  fold_left (fun s op => snd (runOp op s)) ops s.

(** The positions a sequence of operations goes through, the first one
    included. *)
Fixpoint positions (ops : list scanOp) (s : scanner) : list Z :=
  pos s ::
  match ops with
  | [] => []
  | op :: ops' => positions ops' (snd (runOp op s))
  end.

(** A scanner in the middle of a file, the byte order resolved. *)
Definition file_scanner (o : ByteOrder) (bytes : list byte) (at_pos : Z) : scanner :=
  {| src := bytes; order := Some o; pos := at_pos |}.


(** ** Arrays of arrays *)

(** The placeholder [readExpandedArray] appends for a nested array with the
    header [(nestedET, nestedN)]. *)
Definition placeholder_of_header (h : Z * Z) : value :=
  nested_placeholder (snd h) (at_ typeNames (fst h)).

Definition known_tag (tag : Z) : Prop := 0 <= tag < len typeNames.

(** [nested_walk pol s hs s']: from [s] the reader holds, one after the
    other, nested arrays with the headers [hs], each with a payload that
    [bulkSkipArrayElements] skips, and [s'] is the scanner behind the last
    of them. *)
Inductive nested_walk (pol : policy) : scanner -> list (Z * Z) -> scanner -> Prop :=
| walk_done s : nested_walk pol s [] s
| walk_step s s1 s2 s3 s' nestedET nestedN hs :
    U32 s = (Ok nestedET, s1) ->
    U64 s1 = (Ok nestedN, s2) ->
    bulkSkipArrayElements pol nestedET nestedN s2 = (Ok tt, s3) ->
    nested_walk pol s3 hs s' ->
    nested_walk pol s ((nestedET, nestedN) :: hs) s'.

Definition with_maxArray (pol : policy) (threshold : Z) : policy :=
  {| maxArray := threshold; maxString := maxString pol; debug := debug pol;
     expandArrays := expandArrays pol; expandPrefixes := expandPrefixes pol |}.

(** [readArray] behind a header [(et, n)] that has been read, on its two
    branches. *)
Definition elemName_of (et : Z) : string :=
  if et <? len typeNames then at_ typeNames et else "unknown".

Definition expand_branch (pol : policy) (et n : Z) : scan (value * string * bool) :=
  fun s =>
    match readExpandedArray pol et n (elemName_of et) s with
    | (Ok (result, label), s') => (Ok (result, label, false), s')
    | (Fail e, s') => (Fail e, s')
    | (Crash c, s') => (Crash c, s')
    end.

Definition placeholder_branch (pol : policy) (et n : Z) : scan (value * string * bool) :=
  fun s =>
    match bulkSkipArrayElements pol et n s with
    | (Ok _, s') =>
        (Ok (array_placeholder n (elemName_of et),
             "array[" ++ elemName_of et ++ "]", false), s')
    | (Fail e, s') => (Fail e, s')
    | (Crash c, s') => (Crash c, s')
    end.

(** ** Scenarios *)

Definition scenario_parser : parser :=
  {| scn := file_scanner LittleEndian entry_a_uint32_42 24;
     fileSize := 41; endianHint := "LE"; kvRemain := 1; version := 3;
     tc := 1; kv := 1; pol := defaultPolicy |}.

Definition scenario_header : headerEvent :=
  {| Kind := "header"; Version := 3; TensorCount := 1; KVCount := 1 |}.

(** A header that announces two entries over a file that holds one: the
    parser after the first entry. *)
Definition truncated_parser : parser :=
  {| scn := file_scanner LittleEndian [] 41;
     fileSize := 41; endianHint := "LE"; kvRemain := 1; version := 3;
     tc := 1; kv := 2; pol := defaultPolicy |}.

Definition expand_k : policy :=
  {| maxArray := 32; maxString := 131072; debug := false;
     expandArrays := {[ "k" := true ]}; expandPrefixes := [] |}.

(** An array header with the element tag 13 and the count 0. *)
Definition header_13_0 : list byte :=
  [ x0d; x00; x00; x00;  x00; x00; x00; x00; x00; x00; x00; x00 ].

(** An array header with the element tag 13 and the count 1, and no
    payload. *)
Definition header_13_1 : list byte :=
  [ x0d; x00; x00; x00;  x01; x00; x00; x00; x00; x00; x00; x00 ].

(** A nested array of one uint32, 42. *)
Definition nested_uint32_42 : list byte :=
  [ x04; x00; x00; x00;  x01; x00; x00; x00; x00; x00; x00; x00;
    x2a; x00; x00; x00 ].

(** An array header with the element tag 9 (array) and the count 2. *)
Definition header_array_2 : list byte :=
  [ x09; x00; x00; x00;  x02; x00; x00; x00; x00; x00; x00; x00 ].

(** A whole file: the prologue (one entry), the key "k", the tag 9, the
    array header (array, 2) and the two nested arrays, the first with the
    element tag 13 and the count 0. *)
Definition file_empty_unknown_nested : list byte :=
  prologue_v3_le
  ++ [ x01; x00; x00; x00; x00; x00; x00; x00;  x6b;  x09; x00; x00; x00 ]
  ++ header_array_2 ++ header_13_0 ++ nested_uint32_42.

(** The array of the format description's example: element type float32,
    count 100, each element 1.0. *)
Definition header_float32_100 : list byte :=
  [ x06; x00; x00; x00;  x64; x00; x00; x00; x00; x00; x00; x00 ].

Definition payload_float32_100 : list byte :=
  concat (repeat [x00; x00; x80; x3f] 100).

Definition expand_x : policy :=
  {| maxArray := 32; maxString := 131072; debug := false;
     expandArrays := {[ "x" := true ]}; expandPrefixes := [] |}.

Definition expand_prefix_tok : policy :=
  {| maxArray := 32; maxString := 131072; debug := false;
     expandArrays := ∅; expandPrefixes := ["tokenizer."] |}.

(** ** Predicates on scanner computations *)

(** What every scanner computation keeps: the byte order, that the reader
    only shrinks and, over a file, that the position only grows. *)
Definition tame {A} (m : scan A) : Prop :=
  forall s r s', m s = (r, s') ->
    order s' = order s /\
    (length (src s') <= length (src s))%nat /\
    (scanner_wf s -> scanner_wf s' /\ pos s <= pos s').

(** A successful typed read of width [w] hands out the next [w] bytes and
    moves the position by [w]. *)
Definition reads {A} (w : Z) (m : scan A) : Prop :=
  forall s a s', m s = (Ok a, s') ->
    0 <= w <= len (src s) /\
    s' = {| src := skipn (Z.to_nat w) (src s); order := order s;
            pos := wrap64 (pos s + w) |}.

(** A computation that takes at least one byte whenever it succeeds. *)
Definition eats {A} (m : scan A) : Prop :=
  forall s a s', m s = (Ok a, s') -> (length (src s') < length (src s))%nat.

(** Computations that never end in a given panic. *)
Definition never {A} (c : panic) (m : scan A) : Prop :=
  forall s, panic_of (fst (m s)) <> Some c.

(** The scanner's own operations end in no panic but the two of
    [readExact] and of the nil byte order. *)
Definition scanner_panic (c : panic) : Prop :=
  c = PanicMakeSliceLen \/ c = PanicNilOrder.

(** Skipping and expanding walk the same bytes: whatever the expansion loop
    ends in, short of the index panic, the skip loop ends in too, and with
    the same scanner. *)
Definition skip_matches (r : outcome (list value)) (s1 : scanner)
    (k : outcome unit * scanner) : Prop :=
  match r with
  | Ok _ => k = (Ok tt, s1)
  | Fail e => k = (Fail e, s1)
  | Crash (PanicIndex _ _) => True
  | Crash c => k = (Crash c, s1)
  end.

(** ** More of the scanner: what a read leaves, and the bytes of a number *)

(** The scanner [k] bytes further on. *)
Definition advance (s : scanner) (k : Z) : scanner :=
  {| src := skipn (Z.to_nat k) (src s); order := order s; pos := pos s + k |}.

(** The scanner after a read that failed: the reader drained, the position
    where it was. *)
Definition drained (s : scanner) : scanner :=
  {| src := []; order := order s; pos := pos s |}.

Definition byte_of (z : Z) : byte :=
  match Byte.of_N (Z.to_N z) with Some x => x | None => x00 end.

(** The [w] bytes of [v], least significant first. *)
Fixpoint le_bytes (w : nat) (v : Z) : list byte :=
  match w with
  | O => []
  | S w' => byte_of (v mod 2 ^ 8) :: le_bytes w' (v / 2 ^ 8)
  end.

(** What [order.PutUint16], [PutUint32] and [PutUint64] write for [v]. *)
Definition put_uint (o : ByteOrder) (w : nat) (v : Z) : list byte :=
  match o with
  | LittleEndian => le_bytes w v
  | BigEndian => rev (le_bytes w v)
  end.

(** The two's-complement bytes of a signed [v] of [w] bytes. *)
Definition put_int (o : ByteOrder) (w : nat) (v : Z) : list byte :=
  put_uint o w (v mod 2 ^ (8 * Z.of_nat w)).

(** A scanner at position [p] of a file that goes on with [bs] and then
    [rest], and the scanner [w] bytes later. *)
Definition before (o : ByteOrder) (p : Z) (rest bs : list byte) : scanner :=
  file_scanner o (bs ++ rest) p.
Definition after (o : ByteOrder) (p : Z) (rest : list byte) (w : Z) : scanner :=
  file_scanner o rest (p + w).

(** The padding [Align n] asks for at the position of [s]. *)
Definition padding (n : Z) (s : scanner) : Z := (n - pos s mod n) mod n.

(** ** More of the value decoder *)

(** The width of the scalars that take a fixed number of bytes, by tag: what
    the decoder of [scalars[tag]] reads. *)
Definition scalar_width (tag : Z) : option Z :=
  if (tag =? tUint8) || (tag =? tInt8) || (tag =? tBool) then Some 1
  else if (tag =? tUint16) || (tag =? tInt16) then Some 2
  else if (tag =? tUint32) || (tag =? tInt32) || (tag =? tFloat32) then Some 4
  else if (tag =? tUint64) || (tag =? tInt64) || (tag =? tFloat64) then Some 8
  else None.

(** The tag of the Go type a decoded value has. *)
Definition value_tag (v : value) : option Z :=
  match v with
  | VUint8 _ => Some tUint8
  | VInt8 _ => Some tInt8
  | VUint16 _ => Some tUint16
  | VInt16 _ => Some tInt16
  | VUint32 _ => Some tUint32
  | VInt32 _ => Some tInt32
  | VFloat32 _ => Some tFloat32
  | VBool _ => Some tBool
  | VString _ => Some tString
  | VUint64 _ => Some tUint64
  | VInt64 _ => Some tInt64
  | VFloat64 _ => Some tFloat64
  | VNil | VSlice _ | VPlaceholder _ _ _ => None
  end.

(** A computation that, when it succeeds over a file, leaves the scanner
    some number of bytes further on: the bytes taken from the reader and the
    bytes the position has moved are the same. *)
Definition exact {A} (m : scan A) : Prop :=
  forall s a s', scanner_wf s -> m s = (Ok a, s') ->
    exists k, 0 <= k <= len (src s) /\ s' = advance s k.

(** ** main.go: the flags that reach the decoder *)

(** [strings.Split(s, sep)] for a separator of one byte. *)
Fixpoint Split (s : string) (sep : ascii) : list string :=
  match s with
  | EmptyString => [""]
  | String c rest =>
      if Ascii.eqb c sep then "" :: Split rest sep
      else
        match Split rest sep with
        | piece :: pieces => String c piece :: pieces
        | [] => [String c ""]
        end
  end.

(** [strings.HasSuffix] and [strings.TrimSuffix]. *)
Definition HasSuffix (s suffix : string) : bool :=
  (String.length suffix <=? String.length s)%nat &&
  String.eqb
    (substring (String.length s - String.length suffix) (String.length suffix) s)
    suffix.

Definition TrimSuffix (s suffix : string) : string :=
  if HasSuffix s suffix
  then substring 0 (String.length s - String.length suffix) s
  else s.

Section Flags.

(** [strings.TrimSpace], of Go's library, is taken as it comes. *)
Variable TrimSpace : string -> string.

(** The loop of [main] over the patterns of [--expand-arrays]: a pattern
    that ends in "*" gives a prefix, any other an exact key. *)
Definition addPattern (acc : gmap string bool * list string) (pattern : string)
    : gmap string bool * list string :=
  let pattern := TrimSpace pattern in
  if HasSuffix pattern "*"
  then (fst acc, (snd acc ++ [TrimSuffix pattern "*"])%list)
  else (<[ pattern := true ]> (fst acc), snd acc).

Definition parseExpandArrays (expandArrays : string)
    : gmap string bool * list string :=
  if negb (String.eqb expandArrays "")
  then fold_left addPattern (Split expandArrays ",") (∅, [])
  else (∅, []).

(** The policy [main] hands to [newParser]. *)
Definition mainPolicy (maxArray maxString : Z) (debug : bool) (expandArrays : string)
    : policy :=
  {| maxArray := maxArray; maxString := maxString; debug := debug;
     expandArrays := fst (parseExpandArrays expandArrays);
     expandPrefixes := snd (parseExpandArrays expandArrays) |}.

(** [matchKey] of [main], for the value [keys] of [--keys]. *)
Definition matchKey (keys : string) (k : string) : bool :=
  if negb (String.eqb keys "") then String.prefix (TrimSpace keys) k else true.

End Flags.

(** ** How a decode can end *)

(** The errors of the decoder proper: a short read, an oversized string, an
    unknown scalar tag. *)
Definition decode_error (e : error) : Prop :=
  is_ShortRead e = true \/ is_OversizedField e = true \/ is_UnknownType e = true.

(** [mild C m]: started on a scanner whose byte order is set, [m] fails
    only with a decode error and panics only with a panic in [C]. *)
Definition mild {A} (C : panic -> Prop) (m : scan A) : Prop :=
  forall s r s', order s <> None -> m s = (r, s') ->
    match r with
    | Ok _ => True
    | Fail e => decode_error e
    | Crash c => C c
    end.

Definition no_panic (c : panic) : Prop := False.
Definition stack_panic (c : panic) : Prop := c = PanicStack.
Definition index_panic (c : panic) : Prop := exists i l, c = PanicIndex i l.
(** * Properties *)

(** ** The scanner *)

Lemma len_nonneg {A} (l : list A) : 0 <= len l.
Proof. unfold len. lia. Qed.

Lemma bind_Ok {A B} (m : scan A) (k : A -> scan B) s y s' :
  bind m k s = (Ok y, s') ->
  exists a s1, m s = (Ok a, s1) /\ k a s1 = (Ok y, s').
Proof.
  unfold bind. destruct (m s) as [[a | e | c] s1]; intros H; try discriminate.
  eauto.
Qed.

Lemma bind_eq_Ok {A B} (m : scan A) (k : A -> scan B) s a s1 :
  m s = (Ok a, s1) -> bind m k s = k a s1.
Proof. unfold bind. intros ->. reflexivity. Qed.

Lemma bind_eq_Fail {A B} (m : scan A) (k : A -> scan B) s e s1 :
  m s = (Fail e, s1) -> bind m k s = (Fail e, s1).
Proof. unfold bind. intros ->. reflexivity. Qed.

Lemma bind_eq_Crash {A B} (m : scan A) (k : A -> scan B) s c s1 :
  m s = (Crash c, s1) -> bind m k s = (Crash c, s1).
Proof. unfold bind. intros ->. reflexivity. Qed.

Lemma readExact_Ok n s bs s' :
  readExact n s = (Ok bs, s') ->
  0 <= n <= len (src s) /\
  bs = firstn (Z.to_nat n) (src s) /\
  s' = {| src := skipn (Z.to_nat n) (src s); order := order s;
          pos := wrap64 (pos s + n) |}.
Proof.
  unfold readExact, len.
  destruct (n <? 0) eqn:Hneg; [discriminate |].
  destruct (n <=? Z.of_nat (length (src s))) eqn:Hle; [| discriminate].
  intros H. injection H as <- <-. apply Z.ltb_ge in Hneg. apply Z.leb_le in Hle.
  auto.
Qed.

Lemma readExact_enough n s :
  0 <= n <= len (src s) ->
  readExact n s =
    (Ok (firstn (Z.to_nat n) (src s)),
     {| src := skipn (Z.to_nat n) (src s); order := order s;
        pos := wrap64 (pos s + n) |}).
Proof.
  intros [H0 Hn]. unfold readExact, len in *.
  destruct (n <? 0) eqn:Hneg; [apply Z.ltb_lt in Hneg; lia |].
  destruct (n <=? Z.of_nat (length (src s))) eqn:Hle; [reflexivity |].
  apply Z.leb_gt in Hle. lia.
Qed.

Lemma readExact_short n s :
  len (src s) < n ->
  exists e, readExact n s = (Fail e, {| src := []; order := order s; pos := pos s |})
            /\ is_ShortRead e = true.
Proof.
  intros Hn. pose proof (len_nonneg (src s)). unfold readExact, len in *.
  destruct (n <? 0) eqn:Hneg; [apply Z.ltb_lt in Hneg; lia |].
  destruct (n <=? Z.of_nat (length (src s))) eqn:Hle; [apply Z.leb_le in Hle; lia |].
  destruct (src s); eexists; split; reflexivity.
Qed.

Lemma len_skipn {A} (l : list A) n :
  0 <= n <= len l -> len (skipn (Z.to_nat n) l) = len l - n.
Proof. unfold len. intros H. rewrite length_skipn. lia. Qed.

Lemma wrap64_small z : 0 <= z < 2 ^ 64 -> wrap64 z = z.
Proof. intros H. unfold wrap64. apply Z.mod_small. exact H. Qed.


Lemma tame_refl (s : scanner) :
  order s = order s /\
  (length (src s) <= length (src s))%nat /\
  (scanner_wf s -> scanner_wf s /\ pos s <= pos s).
Proof. split; [reflexivity |]. split; [lia |]. intros W. split; [exact W | lia]. Qed.

Lemma tame_ret {A} (a : A) : tame (ret a).
Proof. intros s r s' H. unfold ret in H. injection H as <- <-. apply tame_refl. Qed.

Lemma tame_fail {A} e : tame (@fail A e).
Proof. intros s r s' H. unfold fail in H. injection H as <- <-. apply tame_refl. Qed.

Lemma tame_crash {A} c : tame (@crash A c).
Proof. intros s r s' H. unfold crash in H. injection H as <- <-. apply tame_refl. Qed.

Lemma tame_bind {A B} (m : scan A) (k : A -> scan B) :
  tame m -> (forall a, tame (k a)) -> tame (bind m k).
Proof.
  intros Hm Hk s r s'. unfold bind.
  destruct (m s) as [[a | e | c] s1] eqn:E; intros H.
  - destruct (Hm _ _ _ E) as (Ho & Hl & Hw).
    destruct (Hk a _ _ _ H) as (Ho' & Hl' & Hw').
    split; [congruence |]. split; [lia |].
    intros W. destruct (Hw W) as [W1 P1]. destruct (Hw' W1) as [W2 P2].
    split; [assumption | lia].
  - injection H as <- <-. exact (Hm _ _ _ E).
  - injection H as <- <-. exact (Hm _ _ _ E).
Qed.

Lemma tame_readExact n : tame (readExact n).
Proof.
  intros s r s' H. unfold readExact in H.
  destruct (n <? 0) eqn:Hneg.
  { injection H as <- <-. apply tame_refl. }
  apply Z.ltb_ge in Hneg.
  destruct (n <=? Z.of_nat (length (src s))) eqn:Hle.
  - apply Z.leb_le in Hle. injection H as <- <-. cbn.
    split; [reflexivity |]. split; [rewrite length_skipn; lia |].
    unfold scanner_wf; cbn. intros [W0 W1].
    assert (Hl : len (skipn (Z.to_nat n) (src s)) = len (src s) - n)
      by (apply len_skipn; unfold len; lia).
    rewrite Hl. unfold len in *. rewrite wrap64_small by lia. lia.
  - injection H as <- <-. cbn. split; [reflexivity |]. split; [lia |].
    unfold scanner_wf; cbn. unfold len; cbn. intros [W0 W1]. lia.
Qed.

Lemma tame_with_order bs : tame (with_order bs).
Proof.
  intros s r s' H. unfold with_order in H.
  destruct (order s) eqn:E; injection H as <- <-; rewrite <- E; apply tame_refl.
Qed.

Create HintDb tame.

#[local] Hint Resolve tame_ret tame_fail tame_crash tame_readExact
  tame_with_order : tame.

Ltac tame_auto :=
  repeat first
    [ solve [eauto with tame]
    | apply tame_bind; [| intros ?] ].

Lemma tame_U8 : tame U8.   Proof. unfold U8. tame_auto. Qed.
Lemma tame_I8 : tame I8.   Proof. unfold I8. tame_auto. Qed.
Lemma tame_U16 : tame U16. Proof. unfold U16. tame_auto. Qed.
Lemma tame_I16 : tame I16. Proof. unfold I16. tame_auto. Qed.
Lemma tame_U32 : tame U32. Proof. unfold U32. tame_auto. Qed.
Lemma tame_I32 : tame I32. Proof. unfold I32. tame_auto. Qed.
Lemma tame_U64 : tame U64. Proof. unfold U64. tame_auto. Qed.
Lemma tame_I64 : tame I64. Proof. unfold I64. tame_auto. Qed.
Lemma tame_F32 : tame F32. Proof. exact tame_U32. Qed.
Lemma tame_F64 : tame F64. Proof. exact tame_U64. Qed.

#[local] Hint Resolve tame_U8 tame_I8 tame_U16 tame_I16 tame_U32 tame_I32
  tame_U64 tame_I64 tame_F32 tame_F64 : tame.

Lemma tame_GGUFString max : tame (GGUFString max).
Proof.
  unfold GGUFString, b. apply tame_bind; [eauto with tame |].
  intros n. destruct (n >? max); tame_auto.
Qed.

Lemma tame_Align n : tame (Align n).
Proof.
  intros s r s' H. unfold Align in H.
  destruct (n =? 0).
  { injection H as <- <-. apply tame_refl. }
  destruct (negb (pos s mod n =? 0)).
  - revert H. apply tame_bind; [unfold b; eauto with tame | intros; eauto with tame].
  - injection H as <- <-. apply tame_refl.
Qed.

#[local] Hint Resolve tame_GGUFString tame_Align : tame.


Lemma with_order_state bs s r s' : with_order bs s = (r, s') -> s' = s.
Proof. unfold with_order. destruct (order s); intros H; injection H as <- <-; reflexivity. Qed.

Ltac reads_tac :=
  intros s a s' H;
  repeat match goal with
  | H : bind _ _ _ = (Ok _, _) |- _ =>
      apply bind_Ok in H; destruct H as (? & ? & ? & H)
  end;
  repeat match goal with
  | H : ret _ _ = (_, _) |- _ => unfold ret in H; injection H as <- <-
  | H : with_order _ _ = (_, _) |- _ => apply with_order_state in H; subst
  end;
  match goal with
  | H : readExact _ _ = (Ok _, _) |- _ =>
      apply readExact_Ok in H; destruct H as (? & ? & ?); subst; split; [assumption | reflexivity]
  end.

Lemma reads_U8 : reads 1 U8.   Proof. unfold U8. reads_tac. Qed.
Lemma reads_I8 : reads 1 I8.   Proof. unfold I8. reads_tac. Qed.
Lemma reads_U16 : reads 2 U16. Proof. unfold U16. reads_tac. Qed.
Lemma reads_I16 : reads 2 I16. Proof. unfold I16. reads_tac. Qed.
Lemma reads_U32 : reads 4 U32. Proof. unfold U32. reads_tac. Qed.
Lemma reads_I32 : reads 4 I32. Proof. unfold I32. reads_tac. Qed.
Lemma reads_U64 : reads 8 U64. Proof. unfold U64. reads_tac. Qed.
Lemma reads_I64 : reads 8 I64. Proof. unfold I64. reads_tac. Qed.
Lemma reads_F32 : reads 4 F32. Proof. exact reads_U32. Qed.
Lemma reads_F64 : reads 8 F64. Proof. exact reads_U64. Qed.


Lemma reads_eats {A} w (m : scan A) : 0 < w -> reads w m -> eats m.
Proof.
  intros Hw Hr s a s' H. destruct (Hr _ _ _ H) as [Hl ->]. cbn.
  rewrite length_skipn. unfold len in Hl. lia.
Qed.

Lemma eats_bind {A B} (m : scan A) (k : A -> scan B) :
  eats m -> (forall a, tame (k a)) -> eats (bind m k).
Proof.
  intros Hm Hk s y s' H. apply bind_Ok in H. destruct H as (a & s1 & H1 & H2).
  apply Hm in H1. apply Hk in H2. destruct H2 as (_ & H2 & _). lia.
Qed.

Lemma eats_GGUFString max : eats (GGUFString max).
Proof.
  unfold GGUFString. apply eats_bind.
  - apply (reads_eats 8); [lia | exact reads_U64].
  - intros n. destruct (n >? max); unfold b; tame_auto.
Qed.

(** Rewrite the binds whose first computation is known by [E]. *)
Ltac bind_step E :=
  match type of E with
  | _ = (Ok _, _) => repeat rewrite (bind_eq_Ok _ _ _ _ _ E)
  | _ = (Fail _, _) => repeat rewrite (bind_eq_Fail _ _ _ _ _ E)
  | _ = (Crash _, _) => repeat rewrite (bind_eq_Crash _ _ _ _ _ E)
  end.


Lemma never_ret {A} c (a : A) : never c (ret a).
Proof. intros s. discriminate. Qed.

Lemma never_fail {A} c e : never c (@fail A e).
Proof. intros s. discriminate. Qed.

Lemma never_bind {A B} c (m : scan A) (k : A -> scan B) :
  never c m -> (forall a, never c (k a)) -> never c (bind m k).
Proof.
  intros Hm Hk s. unfold bind. specialize (Hm s).
  destruct (m s) as [[a | e | c'] s1]; cbn in *.
  - apply Hk.
  - discriminate.
  - exact Hm.
Qed.

Lemma never_Crash {A} c (m : scan A) s : never c m -> fst (m s) <> Crash c.
Proof. intros H E. apply (H s). rewrite E. reflexivity. Qed.

Lemma never_readExact c n : c <> PanicMakeSliceLen -> never c (readExact n).
Proof.
  intros Hc s. unfold readExact.
  destruct (n <? 0); [cbn; congruence |].
  destruct (n <=? Z.of_nat (length (src s))); discriminate.
Qed.

Lemma never_with_order c bs : c <> PanicNilOrder -> never c (with_order bs).
Proof.
  intros Hc s. unfold with_order. destruct (order s); [discriminate | cbn; congruence].
Qed.

Create HintDb never.

#[local] Hint Resolve never_ret never_fail never_readExact never_with_order : never.
#[local] Hint Extern 1 (_ <> _) => discriminate : never.

Ltac never_auto :=
  repeat first
    [ solve [eauto with never]
    | apply never_bind; [| intros ?] ].


Lemma never_U8 c : c <> PanicMakeSliceLen -> never c U8.
Proof. intros. unfold U8. never_auto. Qed.
Lemma never_U32 c : ~ scanner_panic c -> never c U32.
Proof. unfold scanner_panic. intros. unfold U32. never_auto; try (intros ->; tauto). Qed.
Lemma never_U64 c : ~ scanner_panic c -> never c U64.
Proof. unfold scanner_panic. intros. unfold U64. never_auto; try (intros ->; tauto). Qed.

Lemma never_GGUFString c max : ~ scanner_panic c -> never c (GGUFString max).
Proof.
  intros Hc. unfold GGUFString, b. apply never_bind; [apply never_U64; exact Hc |].
  unfold scanner_panic in Hc.
  intros n. destruct (n >? max); never_auto; try (intros ->; tauto).
Qed.

(** ** The value decoder *)

Lemma scalars_never tag dec c :
  ~ scanner_panic c ->
  (if tag >=? len scalars then None else mjoin (scalars !! Z.to_nat tag)) = Some dec ->
  never c dec.
Proof.
  unfold scanner_panic. intros Hc.
  assert (H1 : c <> PanicMakeSliceLen) by tauto.
  assert (H2 : c <> PanicNilOrder) by tauto.
  destruct (tag >=? len scalars) eqn:E; [discriminate |].
  destruct (Z.to_nat tag) as [|[|[|[|[|[|[|[|[|[|[|[|[|n]]]]]]]]]]]]];
    cbn; intros H; try discriminate; injection H as <-;
    unfold fmap_scan, U8, I8, U16, I16, U32, I32, F32, U64, I64, F64, U32, U64;
    never_auto.
Qed.


Lemma scalars_lookup tag dec :
  (if tag >=? len scalars then None else mjoin (scalars !! Z.to_nat tag)) = Some dec ->
  tame dec /\ eats dec.
Proof.
  destruct (tag >=? len scalars) eqn:E; [discriminate |].
  destruct (Z.to_nat tag) as [|[|[|[|[|[|[|[|[|[|[|[|[|n]]]]]]]]]]]]];
    cbn; intros H; try discriminate; injection H as <-;
    (split; [unfold fmap_scan; tame_auto
            | unfold fmap_scan; apply eats_bind; [| intros; tame_auto]]).
  - apply (reads_eats 1); [lia | exact reads_U8].
  - apply (reads_eats 1); [lia | exact reads_I8].
  - apply (reads_eats 2); [lia | exact reads_U16].
  - apply (reads_eats 2); [lia | exact reads_I16].
  - apply (reads_eats 4); [lia | exact reads_U32].
  - apply (reads_eats 4); [lia | exact reads_I32].
  - apply (reads_eats 4); [lia | exact reads_F32].
  - apply (reads_eats 1); [lia | exact reads_U8].
  - apply (reads_eats 8); [lia | exact reads_U64].
  - apply (reads_eats 8); [lia | exact reads_I64].
  - apply (reads_eats 8); [lia | exact reads_F64].
Qed.

Section DecoderFacts.

Variable pol : policy.

Lemma tame_readScalar tag : tame (readScalar pol tag).
Proof.
  unfold readScalar. destruct (tag =? tString); [tame_auto |].
  destruct (if tag >=? len scalars then None else mjoin (scalars !! Z.to_nat tag))
    as [dec |] eqn:E; [| tame_auto].
  apply scalars_lookup in E. destruct E as [Ht _]. tame_auto.
Qed.

Lemma eats_readScalar tag : eats (readScalar pol tag).
Proof.
  unfold readScalar. destruct (tag =? tString).
  { apply eats_bind; [apply eats_GGUFString | intros; tame_auto]. }
  destruct (if tag >=? len scalars then None else mjoin (scalars !! Z.to_nat tag))
    as [dec |] eqn:E.
  - apply scalars_lookup in E. destruct E as [_ He].
    apply eats_bind; [exact He | intros; tame_auto].
  - intros s a s' H. discriminate.
Qed.

Lemma never_readScalar c tag : ~ scanner_panic c -> never c (readScalar pol tag).
Proof.
  intros Hc. unfold readScalar. destruct (tag =? tString).
  { apply never_bind; [apply never_GGUFString; exact Hc | intros; never_auto]. }
  destruct (if tag >=? len scalars then None else mjoin (scalars !! Z.to_nat tag))
    as [dec |] eqn:E; [| never_auto].
  apply never_bind; [eapply scalars_never; eauto | intros; never_auto].
Qed.

Lemma tame_bulkSkip_from fuel : forall et n i, tame (bulkSkip_from pol fuel et n i).
Proof.
  induction fuel as [| fuel IH]; intros et n i; cbn [bulkSkip_from]; [tame_auto |].
  destruct (i <? n); [| tame_auto].
  destruct (et =? tArray).
  - apply tame_bind; [tame_auto | intros nestedET].
    apply tame_bind; [tame_auto | intros nestedN].
    apply tame_bind; [apply IH | intros _]. apply IH.
  - apply tame_bind; [apply tame_readScalar | intros _]. apply IH.
Qed.

Lemma tame_bulkSkipArrayElements et n : tame (bulkSkipArrayElements pol et n).
Proof. intros s r s'. unfold bulkSkipArrayElements. apply tame_bulkSkip_from. Qed.


(** The budget is irrelevant once it exceeds the number of bytes left, and
    such a budget is never exhausted. *)
Lemma bulkSkip_from_enough fuel :
  forall fuel' et n i s,
    (length (src s) < fuel)%nat -> (length (src s) < fuel')%nat ->
    bulkSkip_from pol fuel et n i s = bulkSkip_from pol fuel' et n i s /\
    panic_of (fst (bulkSkip_from pol fuel et n i s)) <> Some PanicStack.
Proof.
  assert (Hsp : ~ scanner_panic PanicStack) by (intros [H | H]; discriminate).
  induction fuel as [| fuel IH]; intros fuel' et n i s Hf Hf'; [lia |].
  destruct fuel' as [| fuel']; [lia |].
  cbn [bulkSkip_from].
  destruct (i <? n); [| split; [reflexivity | discriminate]].
  destruct (et =? tArray).
  - pose proof (never_U32 PanicStack Hsp s) as N1.
    destruct (U32 s) as [[nestedET | e | c] s1] eqn:E1; bind_step E1;
      [| split; [reflexivity | discriminate] | split; [reflexivity | exact N1]].
    pose proof (reads_eats 4 U32 ltac:(lia) reads_U32 _ _ _ E1) as L1.
    pose proof (never_U64 PanicStack Hsp s1) as N2.
    destruct (U64 s1) as [[nestedN | e | c] s2] eqn:E2; bind_step E2;
      [| split; [reflexivity | discriminate] | split; [reflexivity | exact N2]].
    pose proof (reads_eats 8 U64 ltac:(lia) reads_U64 _ _ _ E2) as L2.
    destruct (IH fuel' nestedET nestedN 0 s2 ltac:(lia) ltac:(lia)) as [Q1 Q2].
    symmetry in Q1.
    destruct (bulkSkip_from pol fuel nestedET nestedN 0 s2) as [[[] | e | c] s3] eqn:E3;
      bind_step E3; bind_step Q1;
      [| split; [reflexivity | discriminate] | split; [reflexivity | exact Q2]].
    pose proof (tame_bulkSkip_from _ _ _ _ _ _ _ E3) as (_ & L3 & _).
    apply IH; lia.
  - pose proof (never_readScalar PanicStack et Hsp s) as N1.
    destruct (readScalar pol et s) as [[x | e | c] s1] eqn:E1; bind_step E1;
      [| split; [reflexivity | discriminate] | split; [reflexivity | exact N1]].
    pose proof (eats_readScalar _ _ _ _ E1) as L1.
    apply IH; lia.
Qed.

Lemma bulkSkipArrayElements_fuel fuel et n s :
  (length (src s) < fuel)%nat ->
  bulkSkip_from pol fuel et n 0 s = bulkSkipArrayElements pol et n s.
Proof.
  intros Hf. unfold bulkSkipArrayElements. apply bulkSkip_from_enough; lia.
Qed.

Lemma bulkSkipArrayElements_total et n :
  never PanicStack (bulkSkipArrayElements pol et n).
Proof.
  intros s. unfold bulkSkipArrayElements. apply (bulkSkip_from_enough _ (S (length (src s)))); lia.
Qed.

End DecoderFacts.

Section ExpandFacts.

Variable pol : policy.

Lemma index_state {A} (l : list A) i s r s' : index l i s = (r, s') -> s' = s.
Proof.
  unfold index. destruct (l !! Z.to_nat i); [destruct (i <? 0) |];
    intros H; injection H as <- <-; reflexivity.
Qed.

Lemma tame_index {A} (l : list A) i : tame (index l i).
Proof. intros s r s' H. apply index_state in H. subst. apply tame_refl. Qed.

Lemma never_index_stack {A} (l : list A) i : never PanicStack (index l i).
Proof.
  intros s. unfold index. destruct (l !! Z.to_nat i); [destruct (i <? 0) |]; discriminate.
Qed.

Lemma index_typeNames_Ok tag name s s' :
  index typeNames tag s = (Ok name, s') ->
  0 <= tag < 13 /\ name = at_ typeNames tag /\ s' = s.
Proof.
  unfold index, at_. destruct (typeNames !! Z.to_nat tag) as [x |] eqn:E; [| discriminate].
  destruct (tag <? 0) eqn:Hneg; [discriminate |]. apply Z.ltb_ge in Hneg.
  intros H. injection H as <- <-.
  pose proof (lookup_lt_Some _ _ _ E) as Hlt. cbn in Hlt.
  split; [lia |]. split; [| reflexivity].
  symmetry. apply nth_lookup_Some with (d := ""). exact E.
Qed.

Lemma index_typeNames_known tag s :
  0 <= tag < 13 -> index typeNames tag s = (Ok (at_ typeNames tag), s).
Proof.
  intros H. unfold index, at_.
  destruct (typeNames !! Z.to_nat tag) as [x |] eqn:E.
  - destruct (tag <? 0) eqn:Hneg; [apply Z.ltb_lt in Hneg; lia |].
    rewrite (nth_lookup_Some _ _ "" _ E). reflexivity.
  - apply lookup_ge_None in E. cbn in E. lia.
Qed.

Lemma index_typeNames_unknown tag s :
  13 <= tag -> index typeNames tag s = (Crash (PanicIndex tag 13), s).
Proof.
  intros H. unfold index.
  destruct (typeNames !! Z.to_nat tag) as [x |] eqn:E; [| reflexivity].
  apply lookup_lt_Some in E. cbn in E. lia.
Qed.

Lemma tame_readExpanded_from fuel :
  forall et n i results, tame (readExpanded_from pol fuel et n i results).
Proof.
  induction fuel as [| fuel IH]; intros et n i results; cbn [readExpanded_from];
    [tame_auto |].
  destruct (i <? n); [| tame_auto].
  destruct (et =? tArray).
  - apply tame_bind; [tame_auto | intros nestedET].
    apply tame_bind; [tame_auto | intros nestedN].
    apply tame_bind; [apply tame_bulkSkipArrayElements | intros _].
    apply tame_bind; [apply tame_index | intros name]. apply IH.
  - apply tame_bind; [apply tame_readScalar | intros r]. apply IH.
Qed.

Lemma tame_readExpandedArray et n elemName : tame (readExpandedArray pol et n elemName).
Proof.
  intros s r s'. unfold readExpandedArray.
  apply tame_bind; [apply tame_readExpanded_from | intros; tame_auto].
Qed.

Lemma tame_readArray key : tame (readArray pol key).
Proof.
  unfold readArray.
  apply tame_bind; [tame_auto | intros et].
  apply tame_bind; [tame_auto | intros n].
  destruct (shouldExpand pol key).
  - intros s r s' H.
    destruct (readExpandedArray pol et n _ s) as [[[v l] | e | c] s1] eqn:E;
      injection H as <- <-; exact (tame_readExpandedArray _ _ _ _ _ _ E).
  - apply tame_bind; [apply tame_bulkSkipArrayElements | intros; tame_auto].
Qed.

Lemma tame_readValue align tag key : tame (readValue pol align tag key).
Proof.
  unfold readValue, Align8.
  apply tame_bind; [destruct align; tame_auto | intros _].
  destruct (tag =? tArray); [apply tame_readArray |].
  apply tame_bind; [apply tame_readScalar | intros; tame_auto].
Qed.

(** The expansion loop needs no more budget than the skip loop. *)
Lemma readExpanded_from_total fuel :
  forall et n i results s,
    (length (src s) < fuel)%nat ->
    panic_of (fst (readExpanded_from pol fuel et n i results s)) <> Some PanicStack.
Proof.
  assert (Hsp : ~ scanner_panic PanicStack) by (intros [H | H]; discriminate).
  induction fuel as [| fuel IH]; intros et n i results s Hf; [lia |].
  cbn [readExpanded_from].
  destruct (i <? n); [| discriminate].
  destruct (et =? tArray).
  - pose proof (never_U32 PanicStack Hsp s) as N1.
    destruct (U32 s) as [[nestedET | e | c] s1] eqn:E1; bind_step E1;
      [| discriminate | exact N1].
    pose proof (reads_eats 4 U32 ltac:(lia) reads_U32 _ _ _ E1) as L1.
    pose proof (never_U64 PanicStack Hsp s1) as N2.
    destruct (U64 s1) as [[nestedN | e | c] s2] eqn:E2; bind_step E2;
      [| discriminate | exact N2].
    pose proof (reads_eats 8 U64 ltac:(lia) reads_U64 _ _ _ E2) as L2.
    pose proof (bulkSkipArrayElements_total pol nestedET nestedN s2) as N3.
    destruct (bulkSkipArrayElements pol nestedET nestedN s2) as [[[] | e | c] s3] eqn:E3;
      bind_step E3; [| discriminate | exact N3].
    pose proof (tame_bulkSkipArrayElements _ _ _ _ _ _ E3) as (_ & L3 & _).
    pose proof (never_index_stack typeNames nestedET s3) as N4.
    destruct (index typeNames nestedET s3) as [[name | e | c] s4] eqn:E4;
      bind_step E4; [| discriminate | exact N4].
    apply index_state in E4. subst s4. apply IH. lia.
  - pose proof (never_readScalar pol PanicStack et Hsp s) as N1.
    destruct (readScalar pol et s) as [[x | e | c] s1] eqn:E1; bind_step E1;
      [| discriminate | exact N1].
    pose proof (eats_readScalar _ _ _ _ _ E1) as L1.
    apply IH; lia.
Qed.


Lemma skip_expand_agree fuel :
  forall et n i results s,
    (length (src s) < fuel)%nat ->
    skip_matches (fst (readExpanded_from pol fuel et n i results s))
                 (snd (readExpanded_from pol fuel et n i results s))
                 (bulkSkip_from pol fuel et n i s).
Proof.
  induction fuel as [| fuel IH]; intros et n i results s Hf; [lia |].
  cbn [readExpanded_from bulkSkip_from].
  destruct (i <? n); [| reflexivity].
  destruct (et =? tArray).
  - destruct (U32 s) as [[nestedET | e | c] s1] eqn:E1; bind_step E1;
      [| reflexivity | destruct c; reflexivity].
    pose proof (reads_eats 4 U32 ltac:(lia) reads_U32 _ _ _ E1) as L1.
    destruct (U64 s1) as [[nestedN | e | c] s2] eqn:E2; bind_step E2;
      [| reflexivity | destruct c; reflexivity].
    pose proof (reads_eats 8 U64 ltac:(lia) reads_U64 _ _ _ E2) as L2.
    pose proof (bulkSkipArrayElements_fuel pol fuel nestedET nestedN s2 ltac:(lia)) as Q.
    destruct (bulkSkipArrayElements pol nestedET nestedN s2) as [[[] | e | c] s3] eqn:E3;
      bind_step E3; bind_step Q; [| reflexivity | destruct c; reflexivity].
    pose proof (tame_bulkSkipArrayElements _ _ _ _ _ _ E3) as (_ & L3 & _).
    destruct (index typeNames nestedET s3) as [[name | e | c] s4] eqn:E4;
      bind_step E4.
    + apply index_state in E4. subst s4. apply IH. lia.
    + unfold index in E4. destruct (typeNames !! Z.to_nat nestedET);
        [destruct (nestedET <? 0) |]; discriminate.
    + unfold index in E4. destruct (typeNames !! Z.to_nat nestedET);
        [destruct (nestedET <? 0) |]; try discriminate;
        injection E4 as <- <-; exact I.
  - destruct (readScalar pol et s) as [[x | e | c] s1] eqn:E1; bind_step E1;
      [| reflexivity | ].
    + pose proof (eats_readScalar _ _ _ _ _ E1) as L1. apply IH; lia.
    + destruct c; try reflexivity; exact I.
Qed.

Lemma readExpandedArray_total et n elemName :
  never PanicStack (readExpandedArray pol et n elemName).
Proof.
  intros s. unfold readExpandedArray, bind.
  pose proof (readExpanded_from_total (S (length (src s))) et n 0 [] s ltac:(lia)) as H.
  destruct (readExpanded_from pol _ et n 0 [] s) as [[vs | e | c] s1];
    [discriminate | discriminate | exact H].
Qed.

Lemma readArray_total key : never PanicStack (readArray pol key).
Proof.
  assert (Hsp : ~ scanner_panic PanicStack) by (intros [H | H]; discriminate).
  unfold readArray.
  apply never_bind; [apply never_U32; exact Hsp | intros et].
  apply never_bind; [apply never_U64; exact Hsp | intros n].
  destruct (shouldExpand pol key).
  - intros s. pose proof (readExpandedArray_total et n
      (if et <? len typeNames then at_ typeNames et else "unknown") s) as H.
    destruct (readExpandedArray pol et n _ s) as [[[v l] | e | c] s1];
      [discriminate | discriminate | exact H].
  - apply never_bind; [apply bulkSkipArrayElements_total | intros; never_auto].
Qed.

End ExpandFacts.

(** ** Byte strings and the header *)

Lemma byte_val_range x : 0 <= byte_val x < 2 ^ 8.
Proof.
  unfold byte_val. pose proof (Byte.to_N_bounded x) as H.
  change (2 ^ 8) with 256. generalize dependent (to_N x). intros n H. lia.
Qed.

Lemma le_value_range bs : 0 <= le_value bs < 2 ^ (8 * len bs).
Proof.
  induction bs as [| x bs IH]; [change (0 <= 0 < 1); lia |].
  cbn [le_value]. pose proof (byte_val_range x) as Hx.
  replace (8 * len (x :: bs)) with (8 + 8 * len bs) by (unfold len; cbn [length]; lia).
  rewrite Z.pow_add_r by (pose proof (len_nonneg bs); lia).
  nia.
Qed.

Lemma order_uint_range o bs : 0 <= order_uint o bs < 2 ^ (8 * len bs).
Proof.
  destruct o; cbn [order_uint]; [apply le_value_range |].
  replace (len bs) with (len (rev bs)) by (unfold len; rewrite length_rev; reflexivity).
  apply le_value_range.
Qed.

Lemma order_uint64_range o bs : length bs = 8%nat -> 0 <= order_uint o bs < 2 ^ 64.
Proof.
  intros H. pose proof (order_uint_range o bs) as R. unfold len in R. rewrite H in R.
  exact R.
Qed.

(** A four-byte field reads as 3 in at most one byte order. *)
Lemma version_order_unique ver o o' :
  length ver = 4%nat -> order_uint o ver = 3 -> order_uint o' ver = 3 -> o' = o.
Proof.
  intros Hl.
  destruct ver as [| v0 [| v1 [| v2 [| v3 [| ? ?]]]]]; try discriminate.
  pose proof (byte_val_range v0). pose proof (byte_val_range v1).
  pose proof (byte_val_range v2). pose proof (byte_val_range v3).
  destruct o, o'; cbn [order_uint rev app le_value]; intros; try reflexivity; exfalso; lia.
Qed.

Lemma newParser_prologue (magic ver tcb kvb rest : list byte) size pol :
  length magic = 4%nat -> length ver = 4%nat ->
  length tcb = 8%nat -> length kvb = 8%nat ->
  newParser (magic ++ ver ++ tcb ++ kvb ++ rest)%list size pol =
    if negb (String.eqb (string_of_list_byte magic) magicGGUF) then
      Fail (ErrBadMagic (string_of_list_byte magic))
    else
      match
        (if order_uint LittleEndian ver =? 3 then Some (LittleEndian, "LE")
         else if order_uint BigEndian ver =? 3 then Some (BigEndian, "BE")
         else None)
      with
      | None =>
          Fail (ErrUnsupportedVersion (order_uint LittleEndian ver)
                                      (order_uint BigEndian ver))
      | Some (o, endianness) =>
          Ok ({| scn := {| src := rest; order := Some o; pos := 24 |};
                 fileSize := size; endianHint := endianness;
                 kvRemain := order_uint o kvb; version := 3;
                 tc := order_uint o tcb; kv := order_uint o kvb; pol := pol |},
              {| Kind := "header"; Version := 3; TensorCount := order_uint o tcb;
                 KVCount := order_uint o kvb |})
      end.
Proof.
  intros Hm Hv Ht Hk.
  destruct magic as [| m0 [| m1 [| m2 [| m3 [| ? ?]]]]]; try discriminate.
  destruct ver as [| v0 [| v1 [| v2 [| v3 [| ? ?]]]]]; try discriminate.
  destruct tcb as [| t0 [| t1 [| t2 [| t3 [| t4 [| t5 [| t6 [| t7 [| ? ?]]]]]]]]];
    try discriminate.
  destruct kvb as [| k0 [| k1 [| k2 [| k3 [| k4 [| k5 [| k6 [| k7 [| ? ?]]]]]]]]];
    try discriminate.
  clear Hm Hv Ht Hk.
  unfold newParser.
  rewrite readExact_enough
    by (unfold newScanner, len; cbn [src app length]; lia).
  change (Z.to_nat 24) with 24%nat.
  unfold newScanner, slice. cbn [src order pos app firstn skipn Nat.sub].
  change (wrap64 (0 + 24)) with 24.
  destruct (negb _); [reflexivity |].
  destruct (order_uint LittleEndian [v0; v1; v2; v3] =? 3); [reflexivity |].
  destruct (order_uint BigEndian [v0; v1; v2; v3] =? 3); reflexivity.
Qed.

(** ** The key-value stream *)

Section StreamFacts.

Variable align : bool.

Lemma nextKV_scn p r p' :
  nextKV align p = (r, p') ->
  exists s', p' = set_kvRemain (set_scn p s') (kvRemain p') /\
    order s' = order (scn p) /\
    (length (src s') <= length (src (scn p)))%nat /\
    (scanner_wf (scn p) -> scanner_wf s' /\ pos (scn p) <= pos s').
Proof.
  unfold nextKV. destruct (kvRemain p =? 0).
  { intros H. injection H as <- <-. exists (scn p).
    split; [destruct p; reflexivity | apply tame_refl]. }
  destruct (GGUFString _ (scn p)) as [[key | e | c] s1] eqn:E1.
  2,3: intros H; injection H as <- <-; exists s1;
       (split; [reflexivity | exact (tame_GGUFString _ _ _ _ E1)]).
  assert (T2 : tame (key' <- GGUFString (maxString (pol p)) ;; U32))
    by tame_auto.
  destruct (U32 s1) as [[tag | e | c] s2] eqn:E2.
  2,3: intros H; injection H as <- <-; exists s2;
       (split; [reflexivity |]); eapply T2; unfold bind; rewrite E1, E2; reflexivity.
  assert (T3 : tame (key' <- GGUFString (maxString (pol p)) ;; tag' <- U32 ;;
                     readValue (pol p) align tag key))
    by (apply tame_bind; [tame_auto | intros ?];
        apply tame_bind; [tame_auto | intros ?]; apply tame_readValue).
  destruct (readValue (pol p) align tag key s2) as [[[[val typ] omitted] | e | c] s3] eqn:E3.
  2,3: intros H; injection H as <- <-; exists s3;
       (split; [reflexivity |]); eapply T3; unfold bind; rewrite E1, E2, E3; reflexivity.
  assert (T : order s3 = order (scn p) /\
    (length (src s3) <= length (src (scn p)))%nat /\
    (scanner_wf (scn p) -> scanner_wf s3 /\ pos (scn p) <= pos s3))
    by (eapply T3; unfold bind; rewrite E1, E2, E3; reflexivity).
  destruct omitted; intros H; injection H as <- <-; exists s3; (split; [reflexivity | exact T]).
Qed.

Lemma nextKV_order p : order (scn (snd (nextKV align p))) = order (scn p).
Proof.
  destruct (nextKV align p) as [r p'] eqn:E. apply nextKV_scn in E.
  destruct E as (s' & -> & Ho & _). exact Ho.
Qed.

Lemma mainLoop_order matchKey fuel :
  forall p, order (scn (final (mainLoop align matchKey fuel p))) = order (scn p).
Proof.
  induction fuel as [| fuel IH]; intros p; cbn [mainLoop]; [reflexivity |].
  pose proof (nextKV_order p) as Ho.
  destruct (nextKV align p) as [[[ev [|]] | e | c] p']; cbn [final snd] in *;
    try exact Ho.
  rewrite IH. exact Ho.
Qed.

End StreamFacts.

(** ** Position bookkeeping of the scanner *)

Lemma runOp_tame op s :
  scanner_wf s ->
  scanner_wf (snd (runOp op s)) /\ pos s <= pos (snd (runOp op s)).
Proof.
  intros W.
  assert (G : forall A (m : scan A), tame m ->
            scanner_wf (snd (succeeded (fst (m s)), snd (m s))) /\
            pos s <= pos (snd (succeeded (fst (m s)), snd (m s)))).
  { intros A m Hm. cbn [snd]. destruct (m s) as [r s'] eqn:E.
    destruct (Hm _ _ _ E) as (_ & _ & H). exact (H W). }
  destruct op; cbn [runOp]; apply G; eauto with tame.
Qed.

Lemma runOps_wf ops : forall s, scanner_wf s -> scanner_wf (runOps ops s).
Proof.
  induction ops as [| op ops IH]; intros s W; [exact W |].
  cbn. apply IH. apply runOp_tame. exact W.
Qed.

Lemma positions_lower_bound ops :
  forall s, scanner_wf s -> Forall (fun z => pos s <= z) (positions ops s).
Proof.
  induction ops as [| op ops IH]; intros s W; cbn [positions].
  - constructor; [lia | constructor].
  - constructor; [lia |].
    destruct (runOp_tame op s W) as [W1 P1].
    eapply List.Forall_impl; [| apply IH; exact W1].
    cbn. intros z Hz. lia.
Qed.

Lemma runOp_width op w s :
  scanner_wf s -> width op = Some w -> fst (runOp op s) = true ->
  pos (snd (runOp op s)) = pos s + w.
Proof.
  intros [W0 W1].
  assert (G : forall A (m : scan A), reads w m ->
            fst (succeeded (fst (m s)), snd (m s)) = true ->
            pos (snd (succeeded (fst (m s)), snd (m s))) = pos s + w).
  { intros A m Hm. cbn [fst snd]. destruct (m s) as [[a | e | c] s'] eqn:E;
      cbn [succeeded fst snd]; try discriminate.
    intros _. destruct (Hm _ _ _ E) as [Hw ->]. cbn [pos].
    apply wrap64_small. pose proof (len_nonneg (src s)). lia. }
  destruct op; cbn [width]; intros Hw; try discriminate;
    injection Hw as <-; cbn [runOp]; apply G.
  - exact reads_U8.
  - exact reads_I8.
  - exact reads_U16.
  - exact reads_I16.
  - exact reads_U32.
  - exact reads_I32.
  - exact reads_U64.
  - exact reads_I64.
  - exact reads_F32.
  - exact reads_F64.
Qed.

(** C9: over a file, the positions a scanner goes through under any
    sequence of its operations never decrease, and after any such sequence a
    typed read of width 1, 2, 4 or 8 that succeeds moves the position by
    exactly its width. *)
Theorem position_monotone_and_exact (s : scanner) (ops : list scanOp) :
  scanner_wf s ->
  StronglySorted Z.le (positions ops s) /\
  (forall op w, width op = Some w ->
     (w = 1 \/ w = 2 \/ w = 4 \/ w = 8) /\
     (fst (runOp op (runOps ops s)) = true ->
      pos (snd (runOp op (runOps ops s))) = pos (runOps ops s) + w)).
Proof.
  intros W. split.
  - revert s W. induction ops as [| op ops IH]; intros s W; cbn [positions].
    + constructor; constructor.
    + destruct (runOp_tame op s W) as [W1 P1].
      constructor; [apply IH; exact W1 |].
      eapply List.Forall_impl; [| apply positions_lower_bound; exact W1].
      cbn. intros z Hz. lia.
  - intros op w Hw. split.
    + destruct op; cbn in Hw; try discriminate; injection Hw as <-; lia.
    + apply runOp_width; [apply runOps_wf; exact W | exact Hw].
Qed.

Lemma position_monotone_and_exact_witness :
  let s := file_scanner LittleEndian [x01; x02; x03; x04; x05; x06; x07] 24 in
  let ops := [OpU8; OpU32; OpU64; OpAlign 8; OpU16] in
  StronglySorted Z.le (positions ops s) /\
  (forall op w, width op = Some w ->
     (w = 1 \/ w = 2 \/ w = 4 \/ w = 8) /\
     (fst (runOp op (runOps ops s)) = true ->
      pos (snd (runOp op (runOps ops s))) = pos (runOps ops s) + w)).
Proof.
  apply (position_monotone_and_exact
           (file_scanner LittleEndian [x01; x02; x03; x04; x05; x06; x07] 24)
           [OpU8; OpU32; OpU64; OpAlign 8; OpU16]).
  unfold scanner_wf, file_scanner, len. cbn. lia.
Defined.

(** ** Length-prefixed strings *)

Lemma U64_prefix s o (lenBytes rest : list byte) :
  order s = Some o -> src s = (lenBytes ++ rest)%list -> length lenBytes = 8%nat ->
  U64 s = (Ok (order_uint o lenBytes),
           {| src := rest; order := Some o; pos := wrap64 (pos s + 8) |}).
Proof.
  intros Ho Hs Hl.
  destruct lenBytes as [| b0 [| b1 [| b2 [| b3 [| b4 [| b5 [| b6 [| b7 [| ? ?]]]]]]]]];
    try discriminate.
  unfold U64.
  rewrite (bind_eq_Ok _ _ _ _ _ (readExact_enough 8 s
             ltac:(unfold len; rewrite Hs; cbn [app length]; lia))).
  change (Z.to_nat 8) with 8%nat. rewrite Hs. cbn [app firstn skipn].
  unfold with_order. cbn [order]. rewrite Ho. reflexivity.
Qed.

(** C6: [GGUFString] reads the 8-byte length [L] first.  When [L] exceeds
    the cap the read fails with the oversized-field error and the scanner
    has moved by exactly the 8 bytes of the length, no payload byte taken;
    otherwise, the payload being there, exactly the next [L] bytes are taken
    and returned. *)
Theorem GGUFString_length_checked_first
    (max : Z) (s : scanner) (o : ByteOrder) (lenBytes rest : list byte) :
  scanner_wf s -> order s = Some o ->
  src s = (lenBytes ++ rest)%list -> length lenBytes = 8%nat ->
  let L := order_uint o lenBytes in
  let after_length := {| src := rest; order := Some o; pos := pos s + 8 |} in
  U64 s = (Ok L, after_length) /\
  (max < L ->
     GGUFString max s = (Fail (ErrStringTooLarge L max), after_length) /\
     is_OversizedField (ErrStringTooLarge L max) = true) /\
  (L <= max -> L <= len rest ->
     GGUFString max s =
       (Ok (string_of_list_byte (firstn (Z.to_nat L) rest)),
        {| src := skipn (Z.to_nat L) rest; order := Some o;
           pos := pos s + 8 + L |}) /\
     len (firstn (Z.to_nat L) rest) = L).
Proof.
  intros [W0 W1] Ho Hs Hl L after_length.
  pose proof (order_uint64_range o lenBytes Hl) as HL. fold L in HL.
  assert (Hlen : len (src s) = 8 + len rest)
    by (unfold len; rewrite Hs, length_app, Hl; lia).
  pose proof (len_nonneg rest) as Hr.
  assert (HU : U64 s = (Ok L, after_length)).
  { rewrite (U64_prefix s o lenBytes rest Ho Hs Hl).
    rewrite wrap64_small by lia. reflexivity. }
  split; [exact HU |]. split.
  - intros Hbig. split; [| reflexivity].
    unfold GGUFString. rewrite (bind_eq_Ok _ _ _ _ _ HU).
    destruct (L >? max) eqn:E; [reflexivity |].
    rewrite Z.gtb_ltb in E. apply Z.ltb_ge in E. lia.
  - intros Hsmall Havail.
    unfold GGUFString. rewrite (bind_eq_Ok _ _ _ _ _ HU).
    destruct (L >? max) eqn:E.
    { rewrite Z.gtb_ltb in E. apply Z.ltb_lt in E. lia. }
    assert (Hint : int_of_uint64 L = L).
    { unfold int_of_uint64. destruct (L <? 2 ^ 63) eqn:E63; [reflexivity |].
      apply Z.ltb_ge in E63. lia. }
    unfold b. rewrite Hint.
    rewrite (bind_eq_Ok _ _ _ _ _ (readExact_enough L after_length
               ltac:(unfold after_length; cbn [src]; lia))).
    unfold ret, after_length. cbn [src order pos].
    rewrite wrap64_small by lia.
    split; [reflexivity |].
    unfold len in *. rewrite length_firstn. lia.
Qed.

Lemma GGUFString_length_checked_first_witness :
  let s := file_scanner LittleEndian
             [x02; x00; x00; x00; x00; x00; x00; x00; x68; x69; x21] 24 in
  GGUFString 1 s =
    (Fail (ErrStringTooLarge 2 1),
     file_scanner LittleEndian [x68; x69; x21] 32) /\
  GGUFString 2 s = (Ok "hi", file_scanner LittleEndian [x21] 34).
Proof.
  pose proof (GGUFString_length_checked_first 1
    (file_scanner LittleEndian
       [x02; x00; x00; x00; x00; x00; x00; x00; x68; x69; x21] 24)
    LittleEndian [x02; x00; x00; x00; x00; x00; x00; x00] [x68; x69; x21]
    ltac:(unfold scanner_wf, len; cbn; lia) eq_refl eq_refl eq_refl) as H1.
  pose proof (GGUFString_length_checked_first 2
    (file_scanner LittleEndian
       [x02; x00; x00; x00; x00; x00; x00; x00; x68; x69; x21] 24)
    LittleEndian [x02; x00; x00; x00; x00; x00; x00; x00] [x68; x69; x21]
    ltac:(unfold scanner_wf, len; cbn; lia) eq_refl eq_refl eq_refl) as H2.
  cbv zeta in H1, H2.
  destruct H1 as (_ & H1 & _). destruct H2 as (_ & _ & H2).
  split.
  - apply H1. vm_compute. reflexivity.
  - apply H2; vm_compute; discriminate.
Defined.

(** ** Header decode *)

(** C4: a 24-byte prologue that starts with the magic "GGUF" and whose
    version field reads 3 in a byte order (it can do so in one only) makes
    [newParser] fix that order on the scanner, where it stays under every
    later [nextKV], and report the version and the two counts as decoded in
    that order; a version field that reads 3 in neither order is refused
    with the unsupported-version error. *)
Theorem header_decode_selects_order
    (ver tcb kvb rest : list byte) (size : Z) (pol : policy) :
  length ver = 4%nat -> length tcb = 8%nat -> length kvb = 8%nat ->
  let r := (list_byte_of_string magicGGUF ++ ver ++ tcb ++ kvb ++ rest)%list in
  (forall o, order_uint o ver = 3 ->
     (forall o', order_uint o' ver = 3 -> o' = o) /\
     exists p hdr,
       newParser r size pol = Ok (p, hdr) /\
       order (scn p) = Some o /\
       (forall align matchKey fuel,
          order (scn (final (mainLoop align matchKey fuel p))) = Some o) /\
       Version hdr = 3 /\
       TensorCount hdr = order_uint o tcb /\
       KVCount hdr = order_uint o kvb /\
       version p = 3 /\ tc p = order_uint o tcb /\ kv p = order_uint o kvb /\
       kvRemain p = order_uint o kvb /\
       src (scn p) = rest /\ pos (scn p) = 24) /\
  ((forall o, order_uint o ver <> 3) ->
     exists e, newParser r size pol = Fail e /\ is_UnsupportedVersion e = true).
Proof.
  intros Hv Ht Hk r. unfold r.
  rewrite (newParser_prologue (list_byte_of_string magicGGUF) ver tcb kvb rest size pol
             eq_refl Hv Ht Hk).
  change (negb (string_of_list_byte (list_byte_of_string magicGGUF) =? magicGGUF)%string)
    with false. cbv iota.
  split.
  - intros o Ho. split; [intros o' Ho'; exact (version_order_unique ver o o' Hv Ho Ho') |].
    assert (Hsel :
      (if order_uint LittleEndian ver =? 3 then Some (LittleEndian, "LE")
       else if order_uint BigEndian ver =? 3 then Some (BigEndian, "BE") else None)
      = Some (o, match o with LittleEndian => "LE" | BigEndian => "BE" end)).
    { destruct o.
      - rewrite Ho. reflexivity.
      - destruct (order_uint LittleEndian ver =? 3) eqn:E.
        + apply Z.eqb_eq in E.
          discriminate (version_order_unique ver BigEndian LittleEndian Hv Ho E).
        + rewrite Ho. reflexivity. }
    rewrite Hsel. eexists _, _. split; [reflexivity |].
    cbn [scn order src pos Version TensorCount KVCount version tc kv kvRemain].
    repeat split.
    intros align matchKey fuel. rewrite mainLoop_order. reflexivity.
  - intros Hnone.
    destruct (order_uint LittleEndian ver =? 3) eqn:E1;
      [apply Z.eqb_eq in E1; destruct (Hnone _ E1) |].
    destruct (order_uint BigEndian ver =? 3) eqn:E2;
      [apply Z.eqb_eq in E2; destruct (Hnone _ E2) |].
    eexists. split; reflexivity.
Qed.

Lemma header_decode_selects_order_witness :
  exists p hdr,
    newParser ([x47; x47; x55; x46] ++ [x00; x00; x00; x03]
               ++ [x00; x00; x00; x00; x00; x00; x00; x05]
               ++ [x00; x00; x00; x00; x00; x00; x00; x02] ++ [x2a])
              25 defaultPolicy = Ok (p, hdr) /\
    order (scn p) = Some BigEndian /\
    Version hdr = 3 /\ TensorCount hdr = 5 /\ KVCount hdr = 2.
Proof.
  destruct (header_decode_selects_order
              [x00; x00; x00; x03]
              [x00; x00; x00; x00; x00; x00; x00; x05]
              [x00; x00; x00; x00; x00; x00; x00; x02] [x2a]
              25 defaultPolicy eq_refl eq_refl eq_refl) as [H _].
  destruct (H BigEndian eq_refl) as (_ & p & hdr & Hp & Ho & _ & Hv & Ht & Hk & _).
  exists p, hdr. repeat split; assumption.
Defined.

(** ** Bookkeeping of the key-value stream *)

Lemma newParser_Ok r size pol p hdr :
  newParser r size pol = Ok (p, hdr) ->
  0 <= kvRemain p < 2 ^ 64 /\ kvRemain p = KVCount hdr /\ kv p = KVCount hdr.
Proof.
  unfold newParser.
  destruct (readExact 24 (newScanner r)) as [[hb | e | c] s0] eqn:E; try discriminate.
  destruct (negb _); [discriminate |].
  set (sel := if order_uint LittleEndian (slice hb 4 8) =? 3 then _ else _).
  destruct sel as [[[o v] en] |]; [| discriminate].
  intros H. injection H as <- <-. cbn [kvRemain KVCount kv].
  split; [| split; reflexivity].
  pose proof (order_uint_range o (slice hb 16 24)) as R.
  assert (Hl : 0 <= len (slice hb 16 24) <= 8).
  { unfold len, slice. rewrite length_firstn. lia. }
  assert (Hp : 2 ^ (8 * len (slice hb 16 24)) <= 2 ^ 64)
    by (apply Z.pow_le_mono_r; lia).
  lia.
Qed.

Section CountFacts.

Variable align : bool.

Lemma nextKV_exhausted p :
  kvRemain p = 0 -> nextKV align p = (Ok (kvEvent_zero, false), p).
Proof. intros H. unfold nextKV. rewrite H. reflexivity. Qed.

Lemma nextKV_produced p ev p' :
  nextKV align p = (Ok (ev, true), p') ->
  kvRemain p <> 0 /\ kvRemain p' = wrap64 (kvRemain p - 1).
Proof.
  unfold nextKV. destruct (kvRemain p =? 0) eqn:E0; [discriminate |].
  apply Z.eqb_neq in E0.
  destruct (GGUFString _ (scn p)) as [[key | e | c] s1]; try discriminate.
  destruct (U32 s1) as [[tag | e | c] s2]; try discriminate.
  destruct (readValue _ _ _ _ s2) as [[[[val typ] omitted] | e | c] s3]; try discriminate.
  destruct omitted; intros H; injection H as <- <-; split; auto.
Qed.

Lemma nextKV_not_produced p r p' :
  nextKV align p = (r, p') ->
  (forall ev, r <> Ok (ev, true)) ->
  kvRemain p' = kvRemain p.
Proof.
  unfold nextKV. destruct (kvRemain p =? 0) eqn:E0.
  { intros H _. injection H as <- <-. reflexivity. }
  destruct (GGUFString _ (scn p)) as [[key | e | c] s1].
  2,3: intros H _; injection H as <- <-; reflexivity.
  destruct (U32 s1) as [[tag | e | c] s2].
  2,3: intros H _; injection H as <- <-; reflexivity.
  destruct (readValue _ _ _ _ s2) as [[[[val typ] omitted] | e | c] s3].
  2,3: intros H _; injection H as <- <-; reflexivity.
  destruct omitted; intros H N; injection H as <- <-; exfalso; eapply N; reflexivity.
Qed.

Lemma mainLoop_count matchKey fuel :
  forall p, 0 <= kvRemain p < 2 ^ 64 ->
    0 <= kvRemain (final (mainLoop align matchKey fuel p)) < 2 ^ 64 /\
    kvRemain (final (mainLoop align matchKey fuel p)) =
      kvRemain p - len (produced (mainLoop align matchKey fuel p)).
Proof.
  induction fuel as [| fuel IH]; intros p R; cbn [mainLoop].
  { cbn. unfold len. cbn. lia. }
  destruct (nextKV align p) as [[[ev [|]] | e | c] p'] eqn:E;
    cbn [final produced].
  - apply nextKV_produced in E. destruct E as [Hne Hdec].
    rewrite wrap64_small in Hdec by lia.
    destruct (IH p' ltac:(lia)) as [R' Hc].
    split; [exact R' |]. rewrite Hc, Hdec. unfold len. cbn [length]. lia.
  - rewrite (nextKV_not_produced _ _ _ E) by (intros ? ?; discriminate).
    unfold len. cbn. lia.
  - rewrite (nextKV_not_produced _ _ _ E) by (intros ? ?; discriminate).
    unfold len. cbn. lia.
  - rewrite (nextKV_not_produced _ _ _ E) by (intros ? ?; discriminate).
    unfold len. cbn. lia.
Qed.

Lemma mainLoop_filter_irrelevant matchKey matchKey' fuel :
  forall p,
    produced (mainLoop align matchKey' fuel p) = produced (mainLoop align matchKey fuel p) /\
    final (mainLoop align matchKey' fuel p) = final (mainLoop align matchKey fuel p) /\
    status (mainLoop align matchKey' fuel p) = status (mainLoop align matchKey fuel p).
Proof.
  induction fuel as [| fuel IH]; intros p; cbn [mainLoop]; [auto |].
  destruct (nextKV align p) as [[[ev [|]] | e | c] p']; cbn [final produced status]; auto.
  destruct (IH p') as (-> & -> & ->). auto.
Qed.

End CountFacts.

(** C7: from the parser [newParser] returns, whatever number of [nextKV]
    calls the main loop has made and whatever key filter it applies to what
    it prints, the remaining count is the header's key-value count less the
    number of records produced so far, one per record; so that number never
    exceeds the header's count; what is produced and the parser reached do
    not depend on the filter; and at a remaining count of 0 [nextKV] reports
    no more entries and leaves the parser, its scanner included, as it was. *)
Theorem kv_stream_count_bookkeeping
    (align : bool) (r : list byte) (size : Z) (pol : policy)
    (p : parser) (hdr : headerEvent) (matchKey : string -> bool) (fuel : nat) :
  newParser r size pol = Ok (p, hdr) ->
  let run := mainLoop align matchKey fuel p in
  kvRemain (final run) = KVCount hdr - len (produced run) /\
  len (produced run) <= KVCount hdr /\
  (forall ev q, nextKV align (final run) = (Ok (ev, true), q) ->
     kvRemain q = kvRemain (final run) - 1) /\
  (forall matchKey',
     produced (mainLoop align matchKey' fuel p) = produced run /\
     final (mainLoop align matchKey' fuel p) = final run) /\
  (kvRemain (final run) = 0 ->
     nextKV align (final run) = (Ok (kvEvent_zero, false), final run)).
Proof.
  intros Hnew run.
  destruct (newParser_Ok _ _ _ _ _ Hnew) as (R & Hkv & _).
  destruct (mainLoop_count align matchKey fuel p R) as [R' Hc]. fold run in R', Hc.
  split; [rewrite <- Hkv; exact Hc |].
  split; [lia |].
  split.
  { intros ev q Hq. apply nextKV_produced in Hq. destruct Hq as [Hne ->].
    apply wrap64_small. lia. }
  split.
  { intros matchKey'.
    destruct (mainLoop_filter_irrelevant align matchKey matchKey' fuel p) as (H1 & H2 & _).
    split; assumption. }
  apply nextKV_exhausted.
Qed.

(** C10: a [nextKV] call that returns an error leaves the remaining count
    as it was before the call. *)
Theorem nextKV_error_keeps_count
    (align : bool) (p p' : parser) (e : error) :
  nextKV align p = (Fail e, p') -> kvRemain p' = kvRemain p.
Proof.
  intros H. apply (nextKV_not_produced align p _ _ H). intros ev. discriminate.
Qed.

Lemma kv_stream_count_bookkeeping_witness :
  newParser (prologue_v3_le ++ entry_a_uint32_42) 41 defaultPolicy
    = Ok (scenario_parser, scenario_header) /\
  let run := mainLoop false (fun _ => true) 3 scenario_parser in
  kvRemain (final run) = 1 - len (produced run) /\
  len (produced run) <= 1.
Proof.
  split; [vm_compute; reflexivity |].
  destruct (kv_stream_count_bookkeeping false
              (prologue_v3_le ++ entry_a_uint32_42) 41 defaultPolicy
              scenario_parser scenario_header (fun _ => true) 3
              ltac:(vm_compute; reflexivity)) as (H1 & H2 & _).
  split; assumption.
Defined.

Lemma nextKV_error_keeps_count_witness :
  exists e p',
    nextKV false truncated_parser = (Fail e, p') /\
    is_ShortRead e = true /\
    kvRemain p' = 1.
Proof.
  exists ErrEOF, truncated_parser.
  assert (H : nextKV false truncated_parser = (Fail ErrEOF, truncated_parser))
    by (vm_compute; reflexivity).
  split; [exact H |]. split; [reflexivity |].
  exact (nextKV_error_keeps_count false truncated_parser truncated_parser ErrEOF H).
Defined.

(** C8: the 24-byte prologue [47 47 55 46 03 00 00 00 01 00 .. 01 00 ..]
    followed by the key "a", the tag 4 and the value 42 decodes to the
    header (version 3, tensor count 1, key-value count 1, little endian)
    and then to exactly one record, key "a", type "uint32", value 42, after
    which the stream reports no more entries. *)
Theorem scenario_a_uint32_42 (more : nat) :
  newParser (prologue_v3_le ++ entry_a_uint32_42) 41 defaultPolicy
    = Ok (scenario_parser, scenario_header) /\
  Version scenario_header = 3 /\
  TensorCount scenario_header = 1 /\
  KVCount scenario_header = 1 /\
  order (scn scenario_parser) = Some LittleEndian /\
  endianHint scenario_parser = "LE" /\
  nextKV false scenario_parser
    = (Ok ({| Key := "a"; Type_ := "uint32"; Value := VUint32 42 |}, true),
       set_kvRemain (set_scn scenario_parser (file_scanner LittleEndian [] 41)) 0) /\
  let run := mainLoop false (fun _ => true) (S (S more)) scenario_parser in
  produced run = [ {| Key := "a"; Type_ := "uint32"; Value := VUint32 42 |} ] /\
  emitted run = produced run /\
  status run = Finished.
Proof.
  repeat split; vm_compute; reflexivity.
Qed.

(** ** Arrays *)

Section ArrayFacts.

Variable pol : policy.

Lemma readArray_header key s et n s1 s2 :
  U32 s = (Ok et, s1) -> U64 s1 = (Ok n, s2) ->
  readArray pol key s =
    if shouldExpand pol key then expand_branch pol et n s2
    else placeholder_branch pol et n s2.
Proof.
  intros E1 E2. unfold readArray. bind_step E1. bind_step E2.
  fold (elemName_of et).
  destruct (shouldExpand pol key); [reflexivity |].
  unfold placeholder_branch, bind, ret.
  destruct (bulkSkipArrayElements pol et n s2) as [[[] | e | c] s3]; reflexivity.
Qed.

Lemma U64_nonneg s n s' : U64 s = (Ok n, s') -> 0 <= n.
Proof.
  unfold U64. intros H. apply bind_Ok in H. destruct H as (bs & s1 & _ & H).
  unfold with_order in H. destruct (order s1); [| discriminate].
  injection H as <- _. apply order_uint_range.
Qed.

(** The expansion loop appends one value for each index it runs through. *)
Lemma readExpanded_from_length fuel :
  forall et n i results s vs s',
    readExpanded_from pol fuel et n i results s = (Ok vs, s') ->
    len vs = len results + Z.max 0 (n - i).
Proof.
  induction fuel as [| fuel IH]; intros et n i results s vs s' H;
    cbn [readExpanded_from] in H; [discriminate |].
  destruct (i <? n) eqn:Ei.
  2:{ apply Z.ltb_ge in Ei. injection H as <- <-. lia. }
  apply Z.ltb_lt in Ei.
  destruct (et =? tArray).
  - apply bind_Ok in H. destruct H as (nestedET & s1 & _ & H).
    apply bind_Ok in H. destruct H as (nestedN & s2 & _ & H).
    apply bind_Ok in H. destruct H as (u & s3 & _ & H).
    apply bind_Ok in H. destruct H as (name & s4 & _ & H).
    apply IH in H. rewrite H. unfold len. rewrite length_app. cbn [length]. lia.
  - apply bind_Ok in H. destruct H as (r & s1 & _ & H).
    apply IH in H. rewrite H. unfold len. rewrite length_app. cbn [length]. lia.
Qed.

(** Expanding an array of arrays appends a placeholder for each nested
    header it reads, and the nested payloads are skipped. *)
Lemma readExpanded_from_nested fuel :
  forall n i results s vs s',
    readExpanded_from pol fuel tArray n i results s = (Ok vs, s') ->
    exists hs,
      nested_walk pol s hs s' /\
      vs = (results ++ map placeholder_of_header hs)%list /\
      Forall (fun h => known_tag (fst h)) hs.
Proof.
  induction fuel as [| fuel IH]; intros n i results s vs s' H;
    cbn [readExpanded_from] in H; [discriminate |].
  destruct (i <? n).
  2:{ injection H as <- <-. exists []. split; [constructor |].
      split; [cbn; rewrite app_nil_r; reflexivity | constructor]. }
  change (tArray =? tArray) with true in H. cbv iota in H.
  apply bind_Ok in H. destruct H as (nestedET & s1 & E1 & H).
  apply bind_Ok in H. destruct H as (nestedN & s2 & E2 & H).
  apply bind_Ok in H. destruct H as ([] & s3 & E3 & H).
  apply bind_Ok in H. destruct H as (name & s4 & E4 & H).
  apply index_typeNames_Ok in E4. destruct E4 as (Hk & -> & ->).
  apply IH in H. destruct H as (hs & Hw & -> & Hf).
  exists ((nestedET, nestedN) :: hs). split; [econstructor; eassumption |].
  split; [rewrite <- app_assoc; reflexivity |].
  constructor; [exact Hk | exact Hf].
Qed.

(** The array decoder never looks at [maxArray]. *)
Lemma bind_ext {A B} (m : scan A) (k k' : A -> scan B) s :
  (forall a s1, k a s1 = k' a s1) -> bind m k s = bind m k' s.
Proof.
  intros H. unfold bind. destruct (m s) as [[a | e | c] s1]; [apply H | reflexivity ..].
Qed.

Lemma bulkSkip_from_maxArray t fuel :
  forall et n i s,
    bulkSkip_from (with_maxArray pol t) fuel et n i s = bulkSkip_from pol fuel et n i s.
Proof.
  induction fuel as [| fuel IH]; intros et n i s; cbn [bulkSkip_from]; [reflexivity |].
  destruct (i <? n); [| reflexivity].
  destruct (et =? tArray).
  - apply bind_ext. intros nestedET s1. apply bind_ext. intros nestedN s2.
    unfold bind. rewrite IH.
    destruct (bulkSkip_from pol fuel nestedET nestedN 0 s2) as [[[] | e | c] s3];
      [apply IH | reflexivity ..].
  - change (readScalar (with_maxArray pol t) et) with (readScalar pol et).
    apply bind_ext. intros _ s1. apply IH.
Qed.

Lemma readExpanded_from_maxArray t fuel :
  forall et n i results s,
    readExpanded_from (with_maxArray pol t) fuel et n i results s
    = readExpanded_from pol fuel et n i results s.
Proof.
  induction fuel as [| fuel IH]; intros et n i results s;
    cbn [readExpanded_from]; [reflexivity |].
  destruct (i <? n); [| reflexivity].
  destruct (et =? tArray).
  - apply bind_ext. intros nestedET s1. apply bind_ext. intros nestedN s2.
    unfold bind at 1 3. unfold bulkSkipArrayElements. rewrite bulkSkip_from_maxArray.
    destruct (bulkSkip_from pol _ nestedET nestedN 0 s2) as [[[] | e | c] s3];
      [| reflexivity ..].
    apply bind_ext. intros name s4. apply IH.
  - change (readScalar (with_maxArray pol t) et) with (readScalar pol et).
    apply bind_ext. intros r s1. apply IH.
Qed.

Lemma readArray_maxArray t key s :
  readArray (with_maxArray pol t) key s = readArray pol key s.
Proof.
  unfold readArray. apply bind_ext. intros et s1. apply bind_ext. intros n s2.
  change (shouldExpand (with_maxArray pol t) key) with (shouldExpand pol key).
  destruct (shouldExpand pol key).
  - unfold readExpandedArray, bind. rewrite readExpanded_from_maxArray. reflexivity.
  - unfold bind, bulkSkipArrayElements. rewrite bulkSkip_from_maxArray. reflexivity.
Qed.

Lemma shouldExpand_exact key :
  expandArrays pol !! key = Some true -> shouldExpand pol key = true.
Proof. intros H. unfold shouldExpand. rewrite H. reflexivity. Qed.

Lemma shouldExpand_not_exact key :
  expandArrays pol !! key <> Some true ->
  shouldExpand pol key =
    existsb (fun prefix => String.prefix prefix key) (expandPrefixes pol).
Proof.
  intros H. unfold shouldExpand.
  destruct (expandArrays pol !! key) as [[|] |]; try reflexivity. congruence.
Qed.

End ArrayFacts.

(** C3: behind an array header [(et, n)], whatever the count [n] and
    whatever the threshold [maxArray]: a key that [expandArrays] maps to
    true is expanded; failing that, a key with a prefix in [expandPrefixes]
    is expanded; failing both, the payload is skipped and the placeholder
    with the count [n] is returned.  An expansion that succeeds is a
    sequence of [n] values, and the result does not change with the
    threshold. *)
Theorem expand_decision_precedence
    (pol : policy) (key : string) (s s1 s2 : scanner) (et n : Z) :
  U32 s = (Ok et, s1) -> U64 s1 = (Ok n, s2) ->
  (expandArrays pol !! key = Some true ->
     readArray pol key s = expand_branch pol et n s2) /\
  (expandArrays pol !! key <> Some true ->
   (exists prefix, In prefix (expandPrefixes pol) /\ String.prefix prefix key = true) ->
     readArray pol key s = expand_branch pol et n s2) /\
  (expandArrays pol !! key <> Some true ->
   (forall prefix, In prefix (expandPrefixes pol) -> String.prefix prefix key = false) ->
     readArray pol key s = placeholder_branch pol et n s2) /\
  (forall v label omitted s',
     expand_branch pol et n s2 = (Ok (v, label, omitted), s') ->
     exists elems, v = VSlice elems /\ len elems = n) /\
  (forall v label omitted s',
     placeholder_branch pol et n s2 = (Ok (v, label, omitted), s') ->
     v = array_placeholder n (elemName_of et)) /\
  (forall threshold,
     readArray (with_maxArray pol threshold) key s = readArray pol key s).
Proof.
  intros E1 E2. rewrite (readArray_header pol key s et n s1 s2 E1 E2).
  split; [intros H; rewrite (shouldExpand_exact pol key H); reflexivity |].
  split.
  { intros Hne Hex. rewrite (shouldExpand_not_exact pol key Hne).
    replace (existsb _ _) with true; [reflexivity |].
    symmetry. apply existsb_exists. exact Hex. }
  split.
  { intros Hne Hall. rewrite (shouldExpand_not_exact pol key Hne).
    replace (existsb _ _) with false; [reflexivity |].
    symmetry. apply not_true_is_false. intros Hex.
    apply existsb_exists in Hex. destruct Hex as (prefix & Hin & Hp).
    rewrite (Hall prefix Hin) in Hp. discriminate. }
  split.
  { intros v label omitted s'. unfold expand_branch, readExpandedArray.
    destruct (bind _ _ s2) as [[[v' l'] | e | c] s3] eqn:E; intros H; try discriminate.
    injection H as <- <- <- <-.
    apply bind_Ok in E. destruct E as (elems & s4 & E & Hr).
    unfold ret in Hr. injection Hr as <- <- <-.
    exists elems. split; [reflexivity |].
    apply readExpanded_from_length in E. rewrite E.
    pose proof (U64_nonneg _ _ _ E2). unfold len. cbn [length]. lia. }
  split.
  { intros v label omitted s'. unfold placeholder_branch.
    destruct (bulkSkipArrayElements pol et n s2) as [[[] | e | c] s3];
      intros H; try discriminate.
    injection H as <- _ _ _. reflexivity. }
  intros threshold.
  rewrite <- (readArray_header pol key s et n s1 s2 E1 E2).
  apply readArray_maxArray.
Qed.

Lemma expand_decision_precedence_witness :
  let s := file_scanner LittleEndian (header_float32_100 ++ payload_float32_100) 37 in
  let s_end := file_scanner LittleEndian [] 449 in
  readArray expand_x "x" s
    = (Ok (VSlice (repeat (VFloat32 1065353216) 100), "array[float32]", false), s_end) /\
  readArray expand_prefix_tok "tokenizer.scores" s
    = (Ok (VSlice (repeat (VFloat32 1065353216) 100), "array[float32]", false), s_end) /\
  readArray defaultPolicy "x" s
    = (Ok (VPlaceholder "array" 100 "float32", "array[float32]", false), s_end) /\
  readArray (with_maxArray defaultPolicy 100) "x" s = readArray defaultPolicy "x" s.
Proof.
  cbv zeta.
  assert (E1 : U32 (file_scanner LittleEndian
                      (header_float32_100 ++ payload_float32_100) 37)
               = (Ok 6, file_scanner LittleEndian
                          ([x64; x00; x00; x00; x00; x00; x00; x00]
                           ++ payload_float32_100) 41))
    by (vm_compute; reflexivity).
  assert (E2 : U64 (file_scanner LittleEndian
                      ([x64; x00; x00; x00; x00; x00; x00; x00]
                       ++ payload_float32_100) 41)
               = (Ok 100, file_scanner LittleEndian payload_float32_100 49))
    by (vm_compute; reflexivity).
  split; [| split; [| split]].
  - destruct (expand_decision_precedence expand_x "x" _ _ _ 6 100 E1 E2) as (H & _).
    rewrite (H ltac:(vm_compute; reflexivity)). vm_compute. reflexivity.
  - destruct (expand_decision_precedence expand_prefix_tok "tokenizer.scores"
                _ _ _ 6 100 E1 E2) as (_ & H & _).
    rewrite (H ltac:(vm_compute; discriminate)
               ltac:(exists "tokenizer."; split; [left; reflexivity | reflexivity])).
    vm_compute. reflexivity.
  - destruct (expand_decision_precedence defaultPolicy "x" _ _ _ 6 100 E1 E2)
      as (_ & _ & H & _).
    rewrite (H ltac:(vm_compute; discriminate) ltac:(intros prefix [])).
    vm_compute. reflexivity.
  - destruct (expand_decision_precedence defaultPolicy "x" _ _ _ 6 100 E1 E2)
      as (_ & _ & _ & _ & _ & H).
    apply H.
Defined.

(** C5: when [readExpandedArray] is given the element type array and
    returns a result, the result is a sequence with one entry per nested
    array read, in order, and each entry is the placeholder that carries the
    count and the name of the element type of that nested array's header;
    the nested payloads are skipped, none is decoded into the result,
    however deep they nest. *)
Theorem expansion_is_one_level_deep
    (pol : policy) (n : Z) (elemName : string) (s s' : scanner)
    (v : value) (label : string) :
  readExpandedArray pol tArray n elemName s = (Ok (v, label), s') ->
  exists hs,
    nested_walk pol s hs s' /\
    v = VSlice (map placeholder_of_header hs) /\
    len hs = Z.max 0 n /\
    Forall (fun h => known_tag (fst h)) hs /\
    Forall (fun e => exists nestedN name, e = VPlaceholder "nested_array" nestedN name)
           (map placeholder_of_header hs) /\
    label = "array[" ++ elemName ++ "]".
Proof.
  unfold readExpandedArray. intros H.
  apply bind_Ok in H. destruct H as (elems & s1 & E & Hr).
  unfold ret in Hr. injection Hr as <- <- <-.
  pose proof (readExpanded_from_length pol _ _ _ _ _ _ _ _ E) as Hl.
  apply readExpanded_from_nested in E. destruct E as (hs & Hw & -> & Hk).
  exists hs. cbn [app] in *.
  split; [exact Hw |]. split; [reflexivity |].
  split; [unfold len in *; rewrite length_map in Hl; cbn [length] in Hl; lia |].
  split; [exact Hk |]. split; [| reflexivity].
  apply Forall_map. apply Forall_forall. intros [et cnt] _.
  eexists _, _. reflexivity.
Qed.

Lemma expansion_is_one_level_deep_witness :
  readExpandedArray expand_k tArray 2 "array"
    (file_scanner LittleEndian (nested_uint32_42 ++ nested_uint32_42) 49)
  = (Ok (VSlice [VPlaceholder "nested_array" 1 "uint32";
                 VPlaceholder "nested_array" 1 "uint32"], "array[array]"),
     file_scanner LittleEndian [] 81) /\
  exists hs,
    VSlice [VPlaceholder "nested_array" 1 "uint32";
            VPlaceholder "nested_array" 1 "uint32"]
      = VSlice (map placeholder_of_header hs) /\
    len hs = 2.
Proof.
  assert (E : readExpandedArray expand_k tArray 2 "array"
                (file_scanner LittleEndian (nested_uint32_42 ++ nested_uint32_42) 49)
              = (Ok (VSlice [VPlaceholder "nested_array" 1 "uint32";
                             VPlaceholder "nested_array" 1 "uint32"], "array[array]"),
                 file_scanner LittleEndian [] 81))
    by (vm_compute; reflexivity).
  split; [exact E |].
  destruct (expansion_is_one_level_deep _ _ _ _ _ _ _ E) as (hs & _ & Hv & Hl & _).
  exists hs. split; [exact Hv | exact Hl].
Defined.

(** ** Unknown element tags *)

Section UnknownTags.

Variable pol : policy.

Lemma readScalar_unknown tag s :
  13 <= tag -> readScalar pol tag s = (Fail (ErrBadScalarTag tag), s).
Proof.
  intros H. unfold readScalar.
  destruct (tag =? tString) eqn:E8; [apply Z.eqb_eq in E8; unfold tString in E8; lia |].
  destruct (tag >=? len scalars) eqn:E13; [reflexivity |].
  rewrite Z.geb_leb in E13. apply Z.leb_gt in E13. unfold len in E13. cbn in E13. lia.
Qed.

Lemma bulkSkip_from_unknown fuel et n i s :
  13 <= et -> i < n ->
  bulkSkip_from pol (S fuel) et n i s = (Fail (ErrBadScalarTag et), s).
Proof.
  intros Het Hi. cbn [bulkSkip_from].
  destruct (i <? n) eqn:E; [| apply Z.ltb_ge in E; lia].
  destruct (et =? tArray) eqn:E9; [apply Z.eqb_eq in E9; unfold tArray in E9; lia |].
  apply bind_eq_Fail. apply readScalar_unknown. exact Het.
Qed.

Lemma readExpanded_from_unknown fuel et n i results s :
  13 <= et -> i < n ->
  readExpanded_from pol (S fuel) et n i results s = (Fail (ErrBadScalarTag et), s).
Proof.
  intros Het Hi. cbn [readExpanded_from].
  destruct (i <? n) eqn:E; [| apply Z.ltb_ge in E; lia].
  destruct (et =? tArray) eqn:E9; [apply Z.eqb_eq in E9; unfold tArray in E9; lia |].
  apply bind_eq_Fail. apply readScalar_unknown. exact Het.
Qed.

Lemma U32_needs_bytes s a s' : U32 s = (Ok a, s') -> (4 <= length (src s))%nat.
Proof. intros H. destruct (reads_U32 _ _ _ H) as [Hl _]. unfold len in Hl. lia. Qed.

(** Skipping an array of arrays stops at the first nested header that has
    an unknown element tag and a count of at least 1. *)
Lemma bulkSkip_from_walk_unknown s hs s3 :
  nested_walk pol s hs s3 ->
  forall fuel n i s4 s5 net nn,
    (length (src s) < fuel)%nat -> i + len hs < n ->
    U32 s3 = (Ok net, s4) -> U64 s4 = (Ok nn, s5) -> 13 <= net -> 1 <= nn ->
    bulkSkip_from pol fuel tArray n i s = (Fail (ErrBadScalarTag net), s5).
Proof.
  induction 1 as [s | s s1 s2 s3 s' nestedET nestedN hs E1 E2 E3 Hw IH];
    intros fuel n i s4 s5 net nn Hf Hi F1 F2 Hnet Hnn.
  - pose proof (U32_needs_bytes _ _ _ F1) as Hb.
    destruct fuel as [| [| fuel]]; try lia.
    cbn [bulkSkip_from].
    destruct (i <? n) eqn:E; [| apply Z.ltb_ge in E; unfold len in Hi; cbn in Hi; lia].
    change (tArray =? tArray) with true. cbv iota.
    bind_step F1. bind_step F2.
    apply bind_eq_Fail. apply bulkSkip_from_unknown; [exact Hnet | lia].
  - destruct fuel as [| fuel]; [lia |].
    cbn [bulkSkip_from].
    assert (Hlen : len ((nestedET, nestedN) :: hs) = 1 + len hs)
      by (unfold len; cbn [length]; lia).
    pose proof (len_nonneg hs) as Hnn0.
    destruct (i <? n) eqn:E; [| apply Z.ltb_ge in E; lia].
    change (tArray =? tArray) with true. cbv iota.
    bind_step E1. bind_step E2.
    pose proof (reads_eats 4 U32 ltac:(lia) reads_U32 _ _ _ E1) as L1.
    pose proof (reads_eats 8 U64 ltac:(lia) reads_U64 _ _ _ E2) as L2.
    pose proof (tame_bulkSkipArrayElements _ _ _ _ _ _ E3) as (_ & L3 & _).
    pose proof (bulkSkipArrayElements_fuel pol fuel nestedET nestedN s2 ltac:(lia)) as Q.
    rewrite E3 in Q. bind_step Q.
    apply (IH fuel n (i + 1) s4 s5 net nn); try assumption; lia.
Qed.

(** So does expanding it, when the nested arrays before have known tags. *)
Lemma readExpanded_from_walk_unknown s hs s3 :
  nested_walk pol s hs s3 ->
  Forall (fun h => known_tag (fst h)) hs ->
  forall fuel n i results s4 s5 net nn,
    (length (src s) < fuel)%nat -> i + len hs < n ->
    U32 s3 = (Ok net, s4) -> U64 s4 = (Ok nn, s5) -> 13 <= net -> 1 <= nn ->
    readExpanded_from pol fuel tArray n i results s = (Fail (ErrBadScalarTag net), s5).
Proof.
  induction 1 as [s | s s1 s2 s3 s' nestedET nestedN hs E1 E2 E3 Hw IH];
    intros Hk fuel n i results s4 s5 net nn Hf Hi F1 F2 Hnet Hnn.
  - pose proof (U32_needs_bytes _ _ _ F1) as Hb.
    destruct fuel as [| fuel]; [lia |].
    cbn [readExpanded_from].
    destruct (i <? n) eqn:E; [| apply Z.ltb_ge in E; unfold len in Hi; cbn in Hi; lia].
    change (tArray =? tArray) with true. cbv iota.
    bind_step F1. bind_step F2.
    apply bind_eq_Fail. unfold bulkSkipArrayElements.
    apply bulkSkip_from_unknown; [exact Hnet | lia].
  - destruct fuel as [| fuel]; [lia |].
    cbn [readExpanded_from].
    assert (Hlen : len ((nestedET, nestedN) :: hs) = 1 + len hs)
      by (unfold len; cbn [length]; lia).
    pose proof (len_nonneg hs) as Hnn0.
    destruct (i <? n) eqn:E; [| apply Z.ltb_ge in E; lia].
    change (tArray =? tArray) with true. cbv iota.
    bind_step E1. bind_step E2. bind_step E3.
    pose proof (reads_eats 4 U32 ltac:(lia) reads_U32 _ _ _ E1) as L1.
    pose proof (reads_eats 8 U64 ltac:(lia) reads_U64 _ _ _ E2) as L2.
    pose proof (tame_bulkSkipArrayElements _ _ _ _ _ _ E3) as (_ & L3 & _).
    inversion Hk as [| h hs' Hk1 Hk2]; subst. cbn [fst] in Hk1.
    rewrite (bind_eq_Ok _ _ _ _ _ (index_typeNames_known nestedET s3 Hk1)).
    apply (IH Hk2 fuel n (i + 1) _ s4 s5 net nn); try assumption; lia.
Qed.

End UnknownTags.




(** ** Skipping against expanding *)

(** Short of the index panic of the expansion, [readExpandedArray] and
    [bulkSkipArrayElements] end alike on the same bytes: both succeed, or
    both fail with the same error, and they leave the same scanner. *)
Lemma skip_expand_same_span (pol : policy) (et n : Z) (elemName : string) (s : scanner) :
  match readExpandedArray pol et n elemName s with
  | (Ok _, s') => bulkSkipArrayElements pol et n s = (Ok tt, s')
  | (Fail e, s') => bulkSkipArrayElements pol et n s = (Fail e, s')
  | (Crash (PanicIndex _ _), _) => True
  | (Crash c, s') => bulkSkipArrayElements pol et n s = (Crash c, s')
  end.
Proof.
  pose proof (skip_expand_agree pol (S (length (src s))) et n 0 [] s ltac:(lia)) as H.
  unfold readExpandedArray, bulkSkipArrayElements, bind.
  destruct (readExpanded_from pol _ et n 0 [] s) as [[vs | e | c] s1];
    cbn [fst snd skip_matches] in H; [exact H | exact H |].
  destruct c; exact H.
Qed.

(** C1, at the input where the code departs from it: an array of two
    arrays whose first nested header has the element tag 13 and the count 0.
    The skip walks both nested arrays and ends behind the payload, 28 bytes
    on; the expansion of the same bytes panics on [typeNames[13]] after the
    12 bytes of the first nested header. *)
Theorem skip_and_expand_part_on_empty_unknown_nested :
  let payload := (header_13_0 ++ nested_uint32_42)%list in
  bulkSkipArrayElements defaultPolicy tArray 2 (file_scanner LittleEndian payload 49)
    = (Ok tt, file_scanner LittleEndian [] 77) /\
  readExpandedArray defaultPolicy tArray 2 "array" (file_scanner LittleEndian payload 49)
    = (Crash (PanicIndex 13 13), file_scanner LittleEndian nested_uint32_42 61) /\
  readArray defaultPolicy "k" (file_scanner LittleEndian (header_array_2 ++ payload) 37)
    = (Ok (VPlaceholder "array" 2 "array", "array[array]", false),
       file_scanner LittleEndian [] 77) /\
  readArray expand_k "k" (file_scanner LittleEndian (header_array_2 ++ payload) 37)
    = (Crash (PanicIndex 13 13), file_scanner LittleEndian nested_uint32_42 61) /\
  match newParser file_empty_unknown_nested 77 defaultPolicy,
        newParser file_empty_unknown_nested 77 expand_k with
  | Ok (p, _), Ok (p', _) =>
      let skipped := mainLoop false (fun _ => true) 2 p in
      let expanded := mainLoop false (fun _ => true) 2 p' in
      produced skipped
        = [ {| Key := "k"; Type_ := "array[array]";
               Value := VPlaceholder "array" 2 "array" |} ] /\
      status skipped = Finished /\
      pos (scn (final skipped)) = 77 /\
      produced expanded = [] /\
      status expanded = Panicked (PanicIndex 13 13) /\
      pos (scn (final expanded)) = 61
  | _, _ => False
  end.
Proof.
  repeat split; vm_compute; reflexivity.
Qed.

(** * Further properties *)

(** ** Alignment *)

Lemma advance_0 s : advance s 0 = s.
Proof. destruct s as [r o p]. unfold advance. cbn. rewrite Z.add_0_r. reflexivity. Qed.

Lemma readExact_advance n s :
  scanner_wf s -> 0 <= n <= len (src s) ->
  readExact n s = (Ok (firstn (Z.to_nat n) (src s)), advance s n).
Proof.
  intros [W0 W1] Hn. rewrite (readExact_enough n s Hn). unfold advance.
  rewrite wrap64_small by lia. reflexivity.
Qed.

Lemma readExact_drained n s :
  len (src s) < n ->
  exists e, readExact n s = (Fail e, drained s) /\ is_ShortRead e = true.
Proof. exact (readExact_short n s). Qed.

Lemma Align_cases (n : Z) (s : scanner) :
  scanner_wf s -> 0 < n < 2 ^ 63 ->
  0 <= padding n s < n /\
  (pos s + padding n s) mod n = 0 /\
  (pos s mod n = 0 -> padding n s = 0) /\
  (padding n s <= len (src s) -> Align n s = (Ok tt, advance s (padding n s))) /\
  (len (src s) < padding n s ->
     exists e, Align n s = (Fail e, drained s) /\ is_ShortRead e = true).
Proof.
  intros W Hn. unfold padding.
  pose proof (Z.mod_pos_bound (pos s) n ltac:(lia)) as Hr.
  pose proof (Z.mod_pos_bound (n - pos s mod n) n ltac:(lia)) as Hp.
  split; [exact Hp |].
  assert (Hzero : (pos s + (n - pos s mod n) mod n) mod n = 0).
  { rewrite Z.add_mod_idemp_r by lia.
    replace (pos s + (n - pos s mod n)) with (n * (pos s / n + 1))
      by (pose proof (Z.div_mod (pos s) n ltac:(lia)) as Hdm; rewrite Z.mul_add_distr_l, Z.mul_1_r; lia).
    rewrite Z.mul_comm. apply Z.mod_mul. lia. }
  split; [exact Hzero |].
  split.
  { intros H0. rewrite H0, Z.sub_0_r. apply Z.mod_same. lia. }
  unfold Align.
  destruct (n =? 0) eqn:E0; [apply Z.eqb_eq in E0; lia |].
  destruct (pos s mod n =? 0) eqn:Er; cbn [negb].
  - apply Z.eqb_eq in Er. rewrite Er, Z.sub_0_r, Z.mod_same by lia.
    split; [intros _; rewrite advance_0; reflexivity |].
    intros Hl. pose proof (len_nonneg (src s)). lia.
  - apply Z.eqb_neq in Er.
    rewrite (Z.mod_small (n - pos s mod n) n) by lia.
    assert (Hint : int_of_uint64 (n - pos s mod n) = n - pos s mod n).
    { unfold int_of_uint64. destruct (_ <? 2 ^ 63) eqn:E; [reflexivity |].
      apply Z.ltb_ge in E. lia. }
    unfold b. rewrite Hint. split.
    + intros Hl. rewrite (bind_eq_Ok _ _ _ _ _ (readExact_advance (n - pos s mod n) s W ltac:(lia))).
      reflexivity.
    + intros Hl. destruct (readExact_drained _ s Hl) as (e & He & Hs).
      exists e. split; [| exact Hs]. rewrite (bind_eq_Fail _ _ _ _ _ He). reflexivity.
Qed.



(** ** Integers and their bytes *)

Lemma byte_val_of z : 0 <= z < 2 ^ 8 -> byte_val (byte_of z) = z.
Proof.
  intros Hz. unfold byte_val, byte_of.
  destruct (Byte.of_N (Z.to_N z)) as [x |] eqn:E.
  - apply Byte.to_of_N in E. rewrite E. lia.
  - apply Byte.of_N_None_iff in E. change (2 ^ 8) with 256 in Hz. lia.
Qed.

Lemma byte_of_val x : byte_of (byte_val x) = x.
Proof.
  unfold byte_val, byte_of. rewrite N2Z.id, Byte.of_to_N. reflexivity.
Qed.

Lemma length_le_bytes w : forall v, length (le_bytes w v) = w.
Proof. induction w as [| w IH]; intros v; cbn [le_bytes length]; [| rewrite IH]; reflexivity. Qed.

Lemma le_value_le_bytes w : forall v, le_value (le_bytes w v) = v mod 2 ^ (8 * Z.of_nat w).
Proof.
  induction w as [| w IH]; intros v; cbn [le_bytes le_value].
  - change (2 ^ (8 * Z.of_nat 0)) with 1. rewrite Z.mod_1_r. reflexivity.
  - rewrite IH, byte_val_of by (apply Z.mod_pos_bound; lia).
    replace (8 * Z.of_nat (S w)) with (8 + 8 * Z.of_nat w) by lia.
    rewrite Z.pow_add_r by lia.
    rewrite Z.rem_mul_r by (try apply Z.pow_pos_nonneg; lia). reflexivity.
Qed.

Lemma le_bytes_le_value bs : le_bytes (length bs) (le_value bs) = bs.
Proof.
  induction bs as [| x bs IH]; [reflexivity |].
  cbn [length le_bytes le_value]. pose proof (byte_val_range x) as Hx.
  change (2 ^ 8) with 256 in *.
  assert (H1 : (byte_val x + 256 * le_value bs) mod 256 = byte_val x)
    by (symmetry; apply (Z.mod_unique _ _ (le_value bs)); lia).
  assert (H2 : (byte_val x + 256 * le_value bs) / 256 = le_value bs)
    by (symmetry; apply (Z.div_unique _ _ _ (byte_val x)); lia).
  rewrite H1, H2, byte_of_val, IH. reflexivity.
Qed.

Lemma order_uint_put_uint o w v :
  order_uint o (put_uint o w v) = v mod 2 ^ (8 * Z.of_nat w).
Proof.
  destruct o; cbn [order_uint put_uint]; [| rewrite rev_involutive];
    apply le_value_le_bytes.
Qed.

Lemma length_put_uint o w v : length (put_uint o w v) = w.
Proof.
  destruct o; cbn [put_uint]; [| rewrite length_rev]; apply length_le_bytes.
Qed.

Lemma put_uint_order_uint o bs : put_uint o (length bs) (order_uint o bs) = bs.
Proof.
  destruct o; cbn [order_uint put_uint]; [apply le_bytes_le_value |].
  rewrite <- (length_rev bs), le_bytes_le_value. apply rev_involutive.
Qed.

(** A typed read over a file that begins with the bytes [bs]. *)
Lemma read_prefix (s : scanner) (o : ByteOrder) (bs rest : list byte) :
  scanner_wf s -> order s = Some o -> src s = (bs ++ rest)%list ->
  (x <- readExact (len bs) ;; with_order x) s
  = (Ok (order_uint o bs), {| src := rest; order := Some o; pos := pos s + len bs |}).
Proof.
  intros W Ho Hs. pose proof (len_nonneg bs) as Hb. pose proof (len_nonneg rest) as Hr.
  assert (Hl : len (src s) = len bs + len rest)
    by (unfold len; rewrite Hs, length_app; lia).
  rewrite (bind_eq_Ok _ _ _ _ _ (readExact_advance (len bs) s W ltac:(lia))).
  unfold with_order, advance. cbn [order src pos]. rewrite Ho, Hs.
  unfold len. rewrite Nat2Z.id, firstn_app, Nat.sub_diag, firstn_all, firstn_0, app_nil_r.
  rewrite skipn_app, Nat.sub_diag, skipn_all, skipn_0. reflexivity.
Qed.

Section RoundTrip.

Variable o : ByteOrder.
Variable rest : list byte.
Variable p : Z.


Hypothesis p_range : 0 <= p /\ p + 8 + len rest < 2 ^ 63.

Lemma before_wf w v : (w <= 8)%nat -> scanner_wf (before o p rest (put_uint o w v)).
Proof.
  intros Hw. unfold scanner_wf, before, file_scanner, len. cbn [pos src].
  rewrite length_app, length_put_uint. unfold len in p_range. lia.
Qed.

Lemma read_put_uint w v :
  (w <= 8)%nat -> 0 <= v < 2 ^ (8 * Z.of_nat w) ->
  (x <- readExact (Z.of_nat w) ;; with_order x) (before o p rest (put_uint o w v))
  = (Ok v, after o p rest (Z.of_nat w)).
Proof.
  intros Hw Hv.
  pose proof (read_prefix (before o p rest (put_uint o w v)) o (put_uint o w v) rest
                (before_wf w v Hw) eq_refl eq_refl) as H.
  unfold len in H. rewrite length_put_uint, order_uint_put_uint, Z.mod_small in H by exact Hv.
  exact H.
Qed.

Lemma read_put_uint8 v :
  0 <= v < 2 ^ 8 -> U8 (before o p rest (put_uint o 1 v)) = (Ok v, after o p rest 1).
Proof.
  intros Hv. unfold U8.
  assert (H1 : put_uint o 1 v = [byte_of v]).
  { destruct o; cbn; rewrite Z.mod_small by exact Hv; reflexivity. }
  rewrite H1.
  rewrite (bind_eq_Ok _ _ _ _ _ (readExact_advance 1 (before o p rest [byte_of v])
    ltac:(unfold scanner_wf, before, file_scanner, len in *; cbn [pos src app length]; lia)
    ltac:(unfold before, file_scanner, len; cbn [src app length]; lia))).
  unfold ret, byte0, advance, before, after, file_scanner. change (Z.to_nat 1) with 1%nat.
  cbn [src order pos app firstn skipn nth]. rewrite byte_val_of by exact Hv.
  reflexivity.
Qed.

(** X2: each unsigned reader returns the number whose bytes, in the
    scanner's byte order, stand next in the file, for every number of its
    width, and moves by that width; and every byte string is the encoding of
    the number it reads as, so no two byte strings of a width read alike. *)
Theorem unsigned_read_round_trip (v : Z) :
  (0 <= v < 2 ^ 8 -> U8 (before o p rest (put_uint o 1 v)) = (Ok v, after o p rest 1)) /\
  (0 <= v < 2 ^ 16 -> U16 (before o p rest (put_uint o 2 v)) = (Ok v, after o p rest 2)) /\
  (0 <= v < 2 ^ 32 -> U32 (before o p rest (put_uint o 4 v)) = (Ok v, after o p rest 4)) /\
  (0 <= v < 2 ^ 64 -> U64 (before o p rest (put_uint o 8 v)) = (Ok v, after o p rest 8)) /\
  (forall bs, put_uint o (length bs) (order_uint o bs) = bs).
Proof.
  split; [| split; [| split; [| split]]].
  - exact (read_put_uint8 v).
  - intros Hv. exact (read_put_uint 2 v ltac:(lia) Hv).
  - intros Hv. exact (read_put_uint 4 v ltac:(lia) Hv).
  - intros Hv. exact (read_put_uint 8 v ltac:(lia) Hv).
  - intros bs. apply put_uint_order_uint.
Qed.

Lemma signed_of_mod (k v : Z) :
  0 < k -> - 2 ^ (k - 1) <= v < 2 ^ (k - 1) ->
  0 <= v mod 2 ^ k < 2 ^ k /\
  (if v mod 2 ^ k <? 2 ^ (k - 1) then v mod 2 ^ k else v mod 2 ^ k - 2 ^ k) = v.
Proof.
  intros Hk Hv.
  assert (Hp : 2 ^ k = 2 * 2 ^ (k - 1)).
  { replace k with (1 + (k - 1)) at 1 by lia. rewrite Z.pow_add_r by lia. reflexivity. }
  assert (Hpos : 0 < 2 ^ (k - 1)) by (apply Z.pow_pos_nonneg; lia).
  split; [apply Z.mod_pos_bound; lia |].
  destruct (Z_lt_le_dec v 0) as [Hneg | Hnn].
  - assert (Hm : v mod 2 ^ k = v + 2 ^ k).
    { symmetry. apply (Z.mod_unique v (2 ^ k) (-1)); lia. }
    rewrite Hm. destruct (_ <? _) eqn:E; [apply Z.ltb_lt in E; lia | lia].
  - rewrite Z.mod_small by lia.
    destruct (_ <? _) eqn:E; [reflexivity | apply Z.ltb_ge in E; lia].
Qed.

(** X3: each signed reader returns the number whose two's-complement
    bytes, in the scanner's byte order, stand next in the file, for every
    number of its range, the least and the greatest and -1 included. *)
Theorem signed_read_round_trip (v : Z) :
  (- 2 ^ 7 <= v < 2 ^ 7 -> I8 (before o p rest (put_int o 1 v)) = (Ok v, after o p rest 1)) /\
  (- 2 ^ 15 <= v < 2 ^ 15 -> I16 (before o p rest (put_int o 2 v)) = (Ok v, after o p rest 2)) /\
  (- 2 ^ 31 <= v < 2 ^ 31 -> I32 (before o p rest (put_int o 4 v)) = (Ok v, after o p rest 4)) /\
  (- 2 ^ 63 <= v < 2 ^ 63 -> I64 (before o p rest (put_int o 8 v)) = (Ok v, after o p rest 8)).
Proof.
  pose proof (read_put_uint8 (v mod 2 ^ 8)) as H8.
  split; [| split; [| split]].
  - intros Hv. destruct (signed_of_mod 8 v ltac:(lia) Hv) as [Hr Hs].
    unfold I8. specialize (H8 Hr). unfold U8 in H8.
    apply bind_Ok in H8. destruct H8 as (bs & s1 & E & Hret).
    unfold ret in Hret. injection Hret as Hb <-.
    unfold put_int. change (2 ^ (8 * Z.of_nat 1)) with (2 ^ 8).
    rewrite (bind_eq_Ok _ _ _ _ _ E). unfold ret. rewrite Hb.
    unfold int8_of_uint8. change (8 - 1) with 7 in Hs. rewrite Hs. reflexivity.
  - intros Hv. destruct (signed_of_mod 16 v ltac:(lia) Hv) as [Hr Hs].
    unfold I16, put_int. change (2 ^ (8 * Z.of_nat 2)) with (2 ^ 16).
    pose proof (read_put_uint 2 _ ltac:(lia) Hr) as H.
    apply bind_Ok in H. destruct H as (bs & s1 & E1 & E2).
    rewrite (bind_eq_Ok _ _ _ _ _ E1), (bind_eq_Ok _ _ _ _ _ E2).
    unfold ret, int16_of_uint16. change (16 - 1) with 15 in Hs. rewrite Hs. reflexivity.
  - intros Hv. destruct (signed_of_mod 32 v ltac:(lia) Hv) as [Hr Hs].
    unfold I32, put_int. change (2 ^ (8 * Z.of_nat 4)) with (2 ^ 32).
    pose proof (read_put_uint 4 _ ltac:(lia) Hr) as H.
    apply bind_Ok in H. destruct H as (bs & s1 & E1 & E2).
    rewrite (bind_eq_Ok _ _ _ _ _ E1), (bind_eq_Ok _ _ _ _ _ E2).
    unfold ret, int32_of_uint32. change (32 - 1) with 31 in Hs. rewrite Hs. reflexivity.
  - intros Hv. destruct (signed_of_mod 64 v ltac:(lia) Hv) as [Hr Hs].
    unfold I64, put_int. change (2 ^ (8 * Z.of_nat 8)) with (2 ^ 64).
    pose proof (read_put_uint 8 _ ltac:(lia) Hr) as H.
    apply bind_Ok in H. destruct H as (bs & s1 & E1 & E2).
    rewrite (bind_eq_Ok _ _ _ _ _ E1), (bind_eq_Ok _ _ _ _ _ E2).
    unfold ret, int64_of_uint64. change (64 - 1) with 63 in Hs. rewrite Hs. reflexivity.
Qed.

End RoundTrip.

Lemma unsigned_read_round_trip_witness :
  U32 (file_scanner BigEndian [x00; x00; x01; x00; x2a] 24)
    = (Ok 256, file_scanner BigEndian [x2a] 28) /\
  U64 (file_scanner BigEndian [xff; xff; xff; xff; xff; xff; xff; xff; x2a] 24)
    = (Ok (2 ^ 64 - 1), file_scanner BigEndian [x2a] 32).
Proof.
  destruct (unsigned_read_round_trip BigEndian [x2a] 24
              ltac:(unfold len; cbn; lia) 256) as (_ & _ & H32 & _).
  destruct (unsigned_read_round_trip BigEndian [x2a] 24
              ltac:(unfold len; cbn; lia) (2 ^ 64 - 1)) as (_ & _ & _ & H64 & _).
  split; [exact (H32 ltac:(lia)) | exact (H64 ltac:(lia))].
Defined.

Lemma signed_read_round_trip_witness :
  I16 (file_scanner LittleEndian [xfe; xff; x2a] 24)
    = (Ok (-2), file_scanner LittleEndian [x2a] 26) /\
  I64 (file_scanner LittleEndian [x00; x00; x00; x00; x00; x00; x00; x80; x2a] 24)
    = (Ok (- 2 ^ 63), file_scanner LittleEndian [x2a] 32).
Proof.
  destruct (signed_read_round_trip LittleEndian [x2a] 24
              ltac:(unfold len; cbn; lia) (-2)) as (_ & H16 & _).
  destruct (signed_read_round_trip LittleEndian [x2a] 24
              ltac:(unfold len; cbn; lia) (- 2 ^ 63)) as (_ & _ & _ & H64).
  split; [exact (H16 ltac:(lia)) | exact (H64 ltac:(lia))].
Defined.

(** ** Strings: the cap and the ways to fail *)

Lemma length_string_of_list_byte bs :
  String.length (string_of_list_byte bs) = length bs.
Proof.
  unfold string_of_list_byte.
  induction bs as [| x bs IH]; cbn; [reflexivity | rewrite IH; reflexivity].
Qed.

Lemma int_of_uint64_small n : 0 <= n < 2 ^ 63 -> int_of_uint64 n = n.
Proof.
  intros H. unfold int_of_uint64. destruct (n <? 2 ^ 63) eqn:E; [reflexivity |].
  apply Z.ltb_ge in E. lia.
Qed.

Lemma int_of_uint64_big n : 2 ^ 63 <= n < 2 ^ 64 -> int_of_uint64 n < 0.
Proof.
  intros H. unfold int_of_uint64. destruct (n <? 2 ^ 63) eqn:E; [apply Z.ltb_lt in E |]; lia.
Qed.

Lemma reads_advance {A} w (m : scan A) s a s' :
  reads w m -> scanner_wf s -> m s = (Ok a, s') ->
  0 <= w <= len (src s) /\ s' = advance s w /\ scanner_wf s'.
Proof.
  intros Hr [W0 W1] H. destruct (Hr _ _ _ H) as [Hw ->].
  split; [exact Hw |]. unfold advance. rewrite wrap64_small by lia.
  split; [reflexivity |].
  unfold scanner_wf. cbn [pos src]. rewrite len_skipn by exact Hw. lia.
Qed.

Lemma advance_advance s j k :
  0 <= j -> 0 <= k -> advance (advance s j) k = advance s (j + k).
Proof.
  intros Hj Hk. unfold advance. cbn [src order pos].
  rewrite skipn_skipn, Z2Nat.inj_add, Nat.add_comm, Z.add_assoc by lia. reflexivity.
Qed.

Lemma GGUFString_Ok_cap (max : Z) (s s' : scanner) (str : string) :
  scanner_wf s -> GGUFString max s = (Ok str, s') ->
  Z.of_nat (String.length str) <= max /\
  list_byte_of_string str = firstn (String.length str) (skipn 8 (src s)) /\
  (exists o, order s = Some o /\
     order_uint o (firstn 8 (src s)) = Z.of_nat (String.length str)) /\
  s' = advance s (8 + Z.of_nat (String.length str)).
Proof.
  intros W H. unfold GGUFString in H.
  apply bind_Ok in H. destruct H as (n & s1 & E1 & H).
  destruct (n >? max) eqn:Emax; [discriminate |].
  rewrite Z.gtb_ltb in Emax. apply Z.ltb_ge in Emax.
  apply bind_Ok in H. destruct H as (buf & s2 & E2 & H).
  unfold ret in H. injection H as <- <-.
  pose proof E1 as E1'. unfold U64 in E1'.
  apply bind_Ok in E1'. destruct E1' as (lb & s0 & R1 & R2).
  apply readExact_Ok in R1. destruct R1 as (_ & -> & ->).
  unfold with_order in R2. cbn [order] in R2.
  destruct (order s) as [o |] eqn:Ho; [| discriminate]. injection R2 as <- _.
  destruct (reads_advance 8 U64 s _ s1 reads_U64 W E1) as (H8 & -> & W1).
  assert (Hlb : length (firstn 8 (src s)) = 8%nat)
    by (rewrite length_firstn; unfold len in H8; lia).
  pose proof (order_uint64_range o (firstn 8 (src s)) Hlb) as Hn.
  change (Z.to_nat 8) with 8%nat in *.
  unfold b in E2. apply readExact_Ok in E2. destruct E2 as (Hi & -> & ->).
  assert (Hsmall : order_uint o (firstn 8 (src s)) < 2 ^ 63).
  { destruct (Z_lt_le_dec (order_uint o (firstn 8 (src s))) (2 ^ 63)) as [Hlt | Hge];
      [exact Hlt |].
    pose proof (int_of_uint64_big _ (conj Hge (proj2 Hn))). lia. }
  rewrite int_of_uint64_small in * by lia.
  set (n := order_uint o (firstn 8 (src s))) in *.
  assert (Hlen : String.length (string_of_list_byte
                    (firstn (Z.to_nat n) (src (advance s 8)))) = Z.to_nat n).
  { rewrite length_string_of_list_byte, length_firstn. unfold len in Hi. lia. }
  rewrite Hlen, list_byte_of_string_of_list_byte.
  split; [lia |]. split; [reflexivity |].
  split; [exists o; split; [reflexivity | lia] |].
  rewrite Z2Nat.id by lia.
  destruct W1 as [P0 P1]. cbn [pos] in P0.
  rewrite <- advance_advance by lia.
  rewrite wrap64_small by (pose proof (len_nonneg (src (advance s 8))); lia).
  reflexivity.
Qed.

(** X5: a string that [GGUFString] returns is never longer than the cap;
    it is made of the bytes that follow the 8-byte length, as many as the
    length says, and the scanner has moved past exactly those. *)
Theorem GGUFString_within_cap (max : Z) (s s' : scanner) (str : string) :
  scanner_wf s -> GGUFString max s = (Ok str, s') ->
  Z.of_nat (String.length str) <= max /\
  list_byte_of_string str = firstn (String.length str) (skipn 8 (src s)) /\
  (exists o, order s = Some o /\
     order_uint o (firstn 8 (src s)) = Z.of_nat (String.length str)) /\
  s' = advance s (8 + Z.of_nat (String.length str)).
Proof. exact (GGUFString_Ok_cap max s s' str). Qed.

Lemma GGUFString_within_cap_witness :
  let s := file_scanner LittleEndian
             [x02; x00; x00; x00; x00; x00; x00; x00; x68; x69; x21] 24 in
  GGUFString 2 s = (Ok "hi", file_scanner LittleEndian [x21] 34) /\
  Z.of_nat (String.length "hi") <= 2.
Proof.
  cbv zeta.
  assert (E : GGUFString 2 (file_scanner LittleEndian
                [x02; x00; x00; x00; x00; x00; x00; x00; x68; x69; x21] 24)
              = (Ok "hi", file_scanner LittleEndian [x21] 34))
    by (vm_compute; reflexivity).
  split; [exact E |].
  exact (proj1 (GGUFString_within_cap 2
                  (file_scanner LittleEndian
                     [x02; x00; x00; x00; x00; x00; x00; x00; x68; x69; x21] 24)
                  (file_scanner LittleEndian [x21] 34) "hi"
                  ltac:(unfold scanner_wf, len; cbn; lia) E)).
Defined.



(** ** Scalars by tag *)

Lemma typed_read_fixed (w : Z) (s : scanner) (o : ByteOrder) :
  scanner_wf s -> order s = Some o -> 0 <= w <= len (src s) ->
  (x <- readExact w ;; with_order x) s
  = (Ok (order_uint o (firstn (Z.to_nat w) (src s))), advance s w).
Proof.
  intros W Ho Hw. rewrite (bind_eq_Ok _ _ _ _ _ (readExact_advance w s W Hw)).
  unfold with_order. cbn [advance order]. rewrite Ho. reflexivity.
Qed.

Lemma typed_read_short {A} (w : Z) (k : list byte -> scan A) (s : scanner) :
  len (src s) < w ->
  exists e, (x <- readExact w ;; k x) s = (Fail e, drained s) /\ is_ShortRead e = true.
Proof.
  intros Hw. destruct (readExact_drained w s Hw) as (e & He & Hs).
  exists e. split; [apply bind_eq_Fail; exact He | exact Hs].
Qed.

Section ScalarFacts.

Variable pol : policy.

(** A fixed-width scalar, the bytes being there, is read in full. *)
Lemma readScalar_fixed tag w s o :
  scanner_wf s -> order s = Some o ->
  scalar_width tag = Some w -> w <= len (src s) ->
  exists v, readScalar pol tag s = (Ok (v, at_ typeNames tag), advance s w) /\
            value_tag v = Some tag.
Proof.
  intros W Ho Hw Hl.
  assert (Hc : tag = 0 \/ tag = 1 \/ tag = 2 \/ tag = 3 \/ tag = 4 \/ tag = 5 \/
               tag = 6 \/ tag = 7 \/ tag = 10 \/ tag = 11 \/ tag = 12).
  { unfold scalar_width, tUint8, tInt8, tBool, tUint16, tInt16, tUint32, tInt32,
      tFloat32, tUint64, tInt64, tFloat64 in Hw.
    repeat match type of Hw with
    | context [?a =? ?c] => destruct (Z.eqb_spec a c); [lia |]
    end. discriminate. }
  repeat destruct Hc as [-> | Hc]; try subst tag;
    cbn in Hw; injection Hw as <-;
    unfold readScalar; cbn [Z.eqb tString Pos.eqb];
    change (_ >=? len scalars) with false; cbv iota;
    match goal with
    | |- context [mjoin (scalars !! ?n)] =>
        let r := eval hnf in (mjoin (scalars !! n)) in
        change (mjoin (scalars !! n)) with r
    end; cbv iota;
    unfold fmap_scan, U8, I8, U16, I16, U32, I32, F32, U64, I64, F64, U32, U64.
  all: unfold bind; rewrite readExact_advance by (assumption || lia);
    unfold with_order, ret; cbn [advance order]; rewrite ?Ho;
    eexists; split; reflexivity.
Qed.

Lemma scalar_width_cases tag w :
  scalar_width tag = Some w ->
  0 < w /\ 0 <= tag < 13 /\ (tag =? tArray) = false /\ (tag =? tString) = false.
Proof.
  intros Hw.
  unfold scalar_width, tUint8, tInt8, tBool, tUint16, tInt16, tUint32, tInt32,
    tFloat32, tUint64, tInt64, tFloat64 in Hw.
  repeat match type of Hw with
  | context [?a =? ?c] =>
      destruct (Z.eqb_spec a c);
        [subst; cbn in Hw; injection Hw as <-; repeat split; (lia || reflexivity) |]
  end.
  discriminate.
Qed.

Lemma readScalar_fixed_short tag w s :
  scalar_width tag = Some w -> len (src s) < w ->
  exists e, readScalar pol tag s = (Fail e, drained s) /\ is_ShortRead e = true.
Proof.
  intros Hw Hl.
  assert (Hc : tag = 0 \/ tag = 1 \/ tag = 2 \/ tag = 3 \/ tag = 4 \/ tag = 5 \/
               tag = 6 \/ tag = 7 \/ tag = 10 \/ tag = 11 \/ tag = 12).
  { unfold scalar_width, tUint8, tInt8, tBool, tUint16, tInt16, tUint32, tInt32,
      tFloat32, tUint64, tInt64, tFloat64 in Hw.
    repeat match type of Hw with
    | context [?a =? ?c] => destruct (Z.eqb_spec a c); [lia |]
    end. discriminate. }
  repeat destruct Hc as [-> | Hc]; try subst tag;
    cbn in Hw; injection Hw as <-;
    destruct (readExact_drained _ s Hl) as (e & He & Hs); exists e;
    (split; [| exact Hs]);
    unfold readScalar; cbn [Z.eqb tString Pos.eqb];
    change (_ >=? len scalars) with false; cbv iota;
    match goal with
    | |- context [mjoin (scalars !! ?n)] =>
        let r := eval hnf in (mjoin (scalars !! n)) in
        change (mjoin (scalars !! n)) with r
    end; cbv iota;
    unfold fmap_scan, U8, I8, U16, I16, U32, I32, F32, U64, I64, F64, U32, U64;
    unfold bind; rewrite He; reflexivity.
Qed.

End ScalarFacts.

Lemma readScalar_cases (pol : policy) (tag : Z) (s : scanner) :
  0 <= tag ->
  ((13 <= tag \/ tag = tArray) ->
     readScalar pol tag s = (Fail (ErrBadScalarTag tag), s)) /\
  (forall v label s',
     readScalar pol tag s = (Ok (v, label), s') ->
     tag < 13 /\ tag <> tArray /\
     value_tag v = Some tag /\
     label = at_ typeNames tag /\
     (length (src s') < length (src s))%nat).
Proof.
  intros H0. split.
  - intros [H13 | ->]; [apply readScalar_unknown; exact H13 | reflexivity].
  - intros v label s' H.
    pose proof (eats_readScalar pol tag _ _ _ H) as Heat.
    destruct (Z_lt_le_dec tag 13) as [Hlt | Hge];
      [| rewrite (readScalar_unknown pol tag s Hge) in H; discriminate].
    split; [exact Hlt |].
    assert (Hc : tag = 0 \/ tag = 1 \/ tag = 2 \/ tag = 3 \/ tag = 4 \/ tag = 5 \/
                 tag = 6 \/ tag = 7 \/ tag = 8 \/ tag = 9 \/ tag = 10 \/ tag = 11 \/
                 tag = 12) by lia.
    repeat destruct Hc as [-> | Hc]; try subst tag;
      unfold readScalar in H; cbn [Z.eqb tString Pos.eqb] in H;
      try (change (_ >=? len scalars) with false in H; cbv iota in H;
           match type of H with
           | context [mjoin (scalars !! ?n)] =>
               let r := eval hnf in (mjoin (scalars !! n)) in
               change (mjoin (scalars !! n)) with r in H
           end; cbv iota in H);
      try discriminate;
      (split; [unfold tArray; lia |]);
      apply bind_Ok in H; destruct H as (x & s1 & E & H);
      unfold ret in H; injection H as <- <- <-;
      try (unfold fmap_scan in E; apply bind_Ok in E; destruct E as (a & s2 & _ & E);
           unfold ret in E; injection E as <- _);
      repeat split; assumption.
Qed.

(** X6: [readScalar] by tag.  The array tag and every tag outside the 13
    known kinds are refused with the bad-scalar-tag error before a byte is
    read.  When it returns a value, the tag is one of the 12 scalar kinds,
    the value has the Go type of that tag, the label is the tag's name in
    [typeNames], and at least one byte was taken. *)
Theorem readScalar_by_tag (pol : policy) (tag : Z) (s : scanner) :
  0 <= tag ->
  ((13 <= tag \/ tag = tArray) ->
     readScalar pol tag s = (Fail (ErrBadScalarTag tag), s)) /\
  (forall v label s',
     readScalar pol tag s = (Ok (v, label), s') ->
     tag < 13 /\ tag <> tArray /\
     value_tag v = Some tag /\
     label = at_ typeNames tag /\
     (length (src s') < length (src s))%nat).
Proof. exact (readScalar_cases pol tag s). Qed.

Lemma readScalar_by_tag_witness :
  readScalar defaultPolicy tArray (file_scanner LittleEndian [x2a] 24)
    = (Fail (ErrBadScalarTag 9), file_scanner LittleEndian [x2a] 24) /\
  readScalar defaultPolicy tBool (file_scanner LittleEndian [x2a] 24)
    = (Ok (VBool true, "bool"), file_scanner LittleEndian [] 25).
Proof.
  destruct (readScalar_by_tag defaultPolicy tArray
              (file_scanner LittleEndian [x2a] 24) ltac:(unfold tArray; lia)) as [H _].
  split; [apply H; right; reflexivity | vm_compute; reflexivity].
Defined.

(** ** Arrays of fixed-width scalars *)

Lemma advance_wf s k :
  scanner_wf s -> 0 <= k <= len (src s) ->
  scanner_wf (advance s k) /\ len (src (advance s k)) = len (src s) - k.
Proof.
  intros [W0 W1] Hk. unfold scanner_wf, advance. cbn [pos src].
  rewrite len_skipn by exact Hk. lia.
Qed.

Section FixedWidth.

Variable pol : policy.
Variable tag w n : Z.
Variable o : ByteOrder.
Hypothesis width_of_tag : scalar_width tag = Some w.

Lemma bulkSkip_from_fixed (k : nat) :
  forall fuel i s,
    scanner_wf s -> order s = Some o ->
    (length (src s) < fuel)%nat ->
    i + Z.of_nat k <= n -> Z.of_nat k * w <= len (src s) ->
    bulkSkip_from pol fuel tag n i s
    = bulkSkip_from pol (fuel - k) tag n (i + Z.of_nat k) (advance s (Z.of_nat k * w)).
Proof.
  destruct (scalar_width_cases tag w width_of_tag) as (Hw & _ & Harr & _).
  induction k as [| k IH]; intros fuel i s W Ho Hf Hi Hl.
  - cbn [Z.of_nat Z.mul]. rewrite Nat.sub_0_r, Z.add_0_r, advance_0. reflexivity.
  - destruct fuel as [| fuel]; [lia |].
    cbn [bulkSkip_from Nat.sub].
    destruct (i <? n) eqn:E; [| apply Z.ltb_ge in E; lia].
    rewrite Harr.
    destruct (readScalar_fixed pol tag w s o W Ho width_of_tag ltac:(nia)) as (v & Hv & _).
    rewrite (bind_eq_Ok _ _ _ _ _ Hv).
    destruct (advance_wf s w W ltac:(nia)) as [W' L'].
    rewrite (IH fuel (i + 1) (advance s w) W' Ho
               ltac:(unfold len in *; lia) ltac:(lia) ltac:(nia)).
    rewrite advance_advance by nia.
    f_equal; [lia | f_equal; lia].
Qed.

(** X7: skipping [n] elements of a fixed-width scalar type of width [w]
    over a file takes exactly [n * w] bytes when the file has them; when it
    has fewer, the skip fails with a short read once the elements that are
    whole have been passed. *)
Theorem bulkSkip_fixed_width (s : scanner) :
  scanner_wf s -> order s = Some o -> 0 <= n ->
  (n * w <= len (src s) ->
     bulkSkipArrayElements pol tag n s = (Ok tt, advance s (n * w))) /\
  (len (src s) < n * w ->
     exists e,
       bulkSkipArrayElements pol tag n s
         = (Fail e, drained (advance s (len (src s) / w * w))) /\
       is_ShortRead e = true).
Proof.
  intros W Ho Hn.
  destruct (scalar_width_cases tag w width_of_tag) as (Hw & _ & Harr & _).
  pose proof (len_nonneg (src s)) as Hlen.
  unfold bulkSkipArrayElements. split.
  - intros Hl.
    assert (Hk : Z.of_nat (Z.to_nat n) = n) by lia.
    rewrite (bulkSkip_from_fixed (Z.to_nat n) (S (length (src s))) 0 s W Ho ltac:(lia)
               ltac:(lia) ltac:(rewrite Hk; exact Hl)).
    rewrite Hk, Z.add_0_l.
    assert (Hfuel : exists f, (S (length (src s)) - Z.to_nat n)%nat = S f).
    { exists (length (src s) - Z.to_nat n)%nat. unfold len in *. nia. }
    destruct Hfuel as [f ->]. cbn [bulkSkip_from].
    rewrite Z.ltb_irrefl. reflexivity.
  - intros Hl.
    set (q := len (src s) / w).
    pose proof (Z.div_mod (len (src s)) w ltac:(lia)) as Hdm.
    pose proof (Z.mod_pos_bound (len (src s)) w Hw) as Hmod.
    assert (Hq0 : 0 <= q) by (apply Z.div_pos; lia).
    fold q in Hdm.
    assert (Hqn : q < n) by nia.
    assert (Hk : Z.of_nat (Z.to_nat q) = q) by lia.
    rewrite (bulkSkip_from_fixed (Z.to_nat q) (S (length (src s))) 0 s W Ho ltac:(lia)
               ltac:(lia) ltac:(rewrite Hk; nia)).
    rewrite Hk, Z.add_0_l.
    assert (Hfuel : exists f, (S (length (src s)) - Z.to_nat q)%nat = S f).
    { exists (length (src s) - Z.to_nat q)%nat. unfold len in *. nia. }
    destruct Hfuel as [f ->]. cbn [bulkSkip_from].
    destruct (q <? n) eqn:E; [| apply Z.ltb_ge in E; lia].
    rewrite Harr.
    destruct (advance_wf s (q * w) W ltac:(nia)) as [W' L'].
    destruct (readScalar_fixed_short pol tag w (advance s (q * w)) width_of_tag
                ltac:(nia)) as (e & He & Hs).
    exists e. split; [| exact Hs]. rewrite (bind_eq_Fail _ _ _ _ _ He). reflexivity.
Qed.

Lemma readExpanded_from_fixed (k : nat) :
  forall fuel i results s,
    scanner_wf s -> order s = Some o ->
    (length (src s) < fuel)%nat ->
    i + Z.of_nat k = n -> Z.of_nat k * w <= len (src s) ->
    exists added,
      readExpanded_from pol fuel tag n i results s
        = (Ok (results ++ added)%list, advance s (Z.of_nat k * w)) /\
      length added = k /\
      forall j, (j < k)%nat ->
        readScalar pol tag (advance s (Z.of_nat j * w))
        = (Ok (nth j added VNil, at_ typeNames tag),
           advance s ((Z.of_nat j + 1) * w)).
Proof.
  destruct (scalar_width_cases tag w width_of_tag) as (Hw & _ & Harr & _).
  induction k as [| k IH]; intros fuel i results s W Ho Hf Hi Hl.
  - destruct fuel as [| fuel]; [lia |]. cbn [readExpanded_from].
    destruct (i <? n) eqn:E; [apply Z.ltb_lt in E; lia |].
    exists []. rewrite app_nil_r. cbn [Z.of_nat Z.mul]. rewrite advance_0.
    split; [reflexivity |]. split; [reflexivity | intros j Hj; lia].
  - destruct fuel as [| fuel]; [lia |]. cbn [readExpanded_from].
    destruct (i <? n) eqn:E; [| apply Z.ltb_ge in E; lia].
    rewrite Harr.
    destruct (readScalar_fixed pol tag w s o W Ho width_of_tag ltac:(nia)) as (v & Hv & _).
    rewrite (bind_eq_Ok _ _ _ _ _ Hv). cbn [fst].
    destruct (advance_wf s w W ltac:(nia)) as [W' L'].
    destruct (IH fuel (i + 1) (results ++ [v])%list (advance s w) W' Ho
                ltac:(unfold len in *; lia) ltac:(lia) ltac:(nia))
      as (added & Hrun & Hlen & Hnth).
    exists (v :: added). rewrite Hrun, <- app_assoc. cbn [app].
    rewrite advance_advance by nia.
    split; [f_equal; f_equal; lia |].
    split; [cbn [length]; rewrite Hlen; reflexivity |].
    intros [| j] Hj.
    + cbn [Z.of_nat Z.mul nth]. rewrite advance_0, Hv. f_equal. f_equal. lia.
    + cbn [nth]. specialize (Hnth j ltac:(lia)).
      rewrite advance_advance in Hnth by nia.
      rewrite advance_advance in Hnth by nia.
      replace (Z.of_nat (S j) * w) with (w + Z.of_nat j * w) by lia.
      replace ((Z.of_nat (S j) + 1) * w) with (w + (Z.of_nat j + 1) * w) by lia.
      exact Hnth.
Qed.

(** X8: expanding [n] elements of a fixed-width scalar type of width [w]
    over a file that has the [n * w] bytes returns a sequence of exactly [n]
    values, the one at index [j] being what [readScalar] returns [j * w]
    bytes into the payload, so the elements come in file order; the scanner
    ends [n * w] bytes on. *)
Theorem readExpandedArray_fixed_width (elemName : string) (s : scanner) :
  scanner_wf s -> order s = Some o -> 0 <= n -> n * w <= len (src s) ->
  exists elems,
    readExpandedArray pol tag n elemName s
      = (Ok (VSlice elems, "array[" ++ elemName ++ "]"), advance s (n * w)) /\
    len elems = n /\
    forall j, 0 <= j < n ->
      readScalar pol tag (advance s (j * w))
      = (Ok (nth (Z.to_nat j) elems VNil, at_ typeNames tag), advance s ((j + 1) * w)).
Proof.
  intros W Ho Hn Hl.
  assert (Hk : Z.of_nat (Z.to_nat n) = n) by lia.
  destruct (readExpanded_from_fixed (Z.to_nat n) (S (length (src s))) 0 [] s W Ho
              ltac:(lia) ltac:(lia) ltac:(rewrite Hk; exact Hl))
    as (elems & Hrun & Hlen & Hnth).
  exists elems. unfold readExpandedArray.
  rewrite (bind_eq_Ok _ _ _ _ _ Hrun). unfold ret. cbn [app]. rewrite Hk.
  split; [reflexivity |]. split; [unfold len; lia |].
  intros j Hj. specialize (Hnth (Z.to_nat j) ltac:(lia)).
  rewrite Z2Nat.id in Hnth by lia. exact Hnth.
Qed.

End FixedWidth.

(** ** The position is the file offset *)

Lemma exact_ret {A} (a : A) : exact (ret a).
Proof.
  intros s x s' W H. unfold ret in H. injection H as <- <-.
  exists 0. pose proof (len_nonneg (src s)). rewrite advance_0. split; [lia | reflexivity].
Qed.

Lemma exact_fail {A} e : exact (@fail A e).
Proof. intros s x s' W H. discriminate. Qed.

Lemma exact_crash {A} c : exact (@crash A c).
Proof. intros s x s' W H. discriminate. Qed.

Lemma exact_bind {A B} (m : scan A) (k : A -> scan B) :
  exact m -> (forall a, exact (k a)) -> exact (bind m k).
Proof.
  intros Hm Hk s y s' W H. apply bind_Ok in H. destruct H as (a & s1 & E1 & E2).
  destruct (Hm _ _ _ W E1) as (j & Hj & ->).
  destruct (advance_wf s j W Hj) as [W1 L1].
  destruct (Hk a _ _ _ W1 E2) as (i & Hi & ->).
  exists (j + i). rewrite advance_advance by lia. split; [lia | reflexivity].
Qed.

Lemma exact_readExact n : exact (readExact n).
Proof.
  intros s bs s' W H. pose proof H as H'. apply readExact_Ok in H'.
  destruct H' as (Hn & _ & _). rewrite (readExact_advance n s W Hn) in H.
  injection H as _ <-. exists n. split; [exact Hn | reflexivity].
Qed.

Lemma exact_with_order bs : exact (with_order bs).
Proof.
  intros s x s' W H. apply with_order_state in H. subst.
  exists 0. pose proof (len_nonneg (src s)). rewrite advance_0. split; [lia | reflexivity].
Qed.

Lemma exact_index {A} (l : list A) i : exact (index l i).
Proof.
  intros s x s' W H. apply index_state in H. subst.
  exists 0. pose proof (len_nonneg (src s)). rewrite advance_0. split; [lia | reflexivity].
Qed.

Create HintDb exact.

#[local] Hint Resolve exact_ret exact_fail exact_crash exact_readExact
  exact_with_order exact_index : exact.

Ltac exact_auto :=
  repeat first
    [ solve [eauto with exact]
    | apply exact_bind; [| intros ?] ].

Lemma exact_U32 : exact U32. Proof. unfold U32. exact_auto. Qed.
Lemma exact_U64 : exact U64. Proof. unfold U64. exact_auto. Qed.

Lemma exact_GGUFString max : exact (GGUFString max).
Proof.
  unfold GGUFString, b. apply exact_bind; [exact exact_U64 | intros n].
  destruct (n >? max); exact_auto.
Qed.

Lemma exact_Align n : exact (Align n).
Proof.
  intros s x s' W H. unfold Align in H.
  destruct (n =? 0); [revert H; apply exact_ret; exact W |].
  destruct (negb (pos s mod n =? 0)); [| revert H; apply exact_ret; exact W].
  revert H. apply (exact_bind (b _) (fun _ => ret tt)); [| | exact W]; unfold b; exact_auto.
Qed.

#[local] Hint Resolve exact_U32 exact_U64 exact_GGUFString exact_Align : exact.

Lemma scalars_exact tag dec :
  (if tag >=? len scalars then None else mjoin (scalars !! Z.to_nat tag)) = Some dec ->
  exact dec.
Proof.
  destruct (tag >=? len scalars) eqn:E; [discriminate |].
  destruct (Z.to_nat tag) as [|[|[|[|[|[|[|[|[|[|[|[|[|n]]]]]]]]]]]]];
    cbn; intros H; try discriminate; injection H as <-;
    unfold fmap_scan, U8, I8, U16, I16, U32, I32, F32, U64, I64, F64, U32, U64;
    exact_auto.
Qed.

Section ExactFacts.

Variable pol : policy.

Lemma exact_readScalar tag : exact (readScalar pol tag).
Proof.
  unfold readScalar. destruct (tag =? tString); [exact_auto |].
  destruct (if tag >=? len scalars then None else mjoin (scalars !! Z.to_nat tag))
    as [dec |] eqn:E; [| exact_auto].
  apply scalars_exact in E. exact_auto.
Qed.

Lemma exact_bulkSkip_from fuel : forall et n i, exact (bulkSkip_from pol fuel et n i).
Proof.
  induction fuel as [| fuel IH]; intros et n i; cbn [bulkSkip_from]; [exact_auto |].
  destruct (i <? n); [| exact_auto].
  destruct (et =? tArray).
  - apply exact_bind; [exact exact_U32 | intros nestedET].
    apply exact_bind; [exact exact_U64 | intros nestedN].
    apply exact_bind; [apply IH | intros _]. apply IH.
  - apply exact_bind; [apply exact_readScalar | intros _]. apply IH.
Qed.

Lemma exact_bulkSkipArrayElements et n : exact (bulkSkipArrayElements pol et n).
Proof. intros s a s'. unfold bulkSkipArrayElements. apply exact_bulkSkip_from. Qed.

Lemma exact_readExpanded_from fuel :
  forall et n i results, exact (readExpanded_from pol fuel et n i results).
Proof.
  induction fuel as [| fuel IH]; intros et n i results; cbn [readExpanded_from];
    [exact_auto |].
  destruct (i <? n); [| exact_auto].
  destruct (et =? tArray).
  - apply exact_bind; [exact exact_U32 | intros nestedET].
    apply exact_bind; [exact exact_U64 | intros nestedN].
    apply exact_bind; [apply exact_bulkSkipArrayElements | intros _].
    apply exact_bind; [apply exact_index | intros name]. apply IH.
  - apply exact_bind; [apply exact_readScalar | intros r]. apply IH.
Qed.

Lemma exact_readExpandedArray et n elemName : exact (readExpandedArray pol et n elemName).
Proof.
  intros s a s'. unfold readExpandedArray.
  apply exact_bind; [apply exact_readExpanded_from | intros; exact_auto].
Qed.

Lemma exact_readArray key : exact (readArray pol key).
Proof.
  unfold readArray.
  apply exact_bind; [exact exact_U32 | intros et].
  apply exact_bind; [exact exact_U64 | intros n].
  destruct (shouldExpand pol key).
  - intros s a s' W H.
    destruct (readExpandedArray pol et n _ s) as [[[v l] | e | c] s1] eqn:E;
      try discriminate.
    injection H as _ <-. exact (exact_readExpandedArray _ _ _ _ _ _ W E).
  - apply exact_bind; [apply exact_bulkSkipArrayElements | intros; exact_auto].
Qed.

Lemma exact_readValue align tag key : exact (readValue pol align tag key).
Proof.
  unfold readValue, Align8.
  apply exact_bind; [destruct align; exact_auto | intros _].
  destruct (tag =? tArray); [apply exact_readArray |].
  apply exact_bind; [apply exact_readScalar | intros; exact_auto].
Qed.

End ExactFacts.

Section OffsetFacts.

Variable align : bool.

Lemma nextKV_exact p r p' :
  scanner_wf (scn p) -> nextKV align p = (r, p') -> succeeded r = true ->
  exists k, 0 <= k <= len (src (scn p)) /\ scn p' = advance (scn p) k.
Proof.
  intros W H Hs.
  unfold nextKV in H. destruct (kvRemain p =? 0).
  { injection H as <- <-. exists 0. pose proof (len_nonneg (src (scn p))).
    rewrite advance_0. split; [lia | reflexivity]. }
  destruct (GGUFString _ (scn p)) as [[key | e | c] s1] eqn:E1;
    try (injection H as <- <-; discriminate).
  destruct (U32 s1) as [[tag | e | c] s2] eqn:E2;
    try (injection H as <- <-; discriminate).
  destruct (readValue (pol p) align tag key s2) as [[[[val typ] omitted] | e | c] s3] eqn:E3;
    try (injection H as <- <-; discriminate).
  assert (R : (key' <- GGUFString (maxString (pol p)) ;; tag' <- U32 ;;
               readValue (pol p) align tag' key') (scn p)
              = (Ok (val, typ, omitted), s3)).
  { rewrite (bind_eq_Ok _ _ _ _ _ E1), (bind_eq_Ok _ _ _ _ _ E2). exact E3. }
  assert (T' : exact (key' <- GGUFString (maxString (pol p)) ;; tag' <- U32 ;;
                      readValue (pol p) align tag' key')).
  { apply exact_bind; [apply exact_GGUFString | intros key'].
    apply exact_bind; [exact exact_U32 | intros tag']. apply exact_readValue. }
  destruct (T' _ _ _ W R) as (k & Hk & ->).
  destruct omitted; injection H as <- <-; exists k; split; (exact Hk || reflexivity).
Qed.

Lemma mainLoop_exact matchKey fuel :
  forall p, scanner_wf (scn p) ->
    status (mainLoop align matchKey fuel p) = Finished \/
    status (mainLoop align matchKey fuel p) = Running ->
    exists k, 0 <= k <= len (src (scn p)) /\
              scn (final (mainLoop align matchKey fuel p)) = advance (scn p) k.
Proof.
  induction fuel as [| fuel IH]; intros p W Hst; cbn [mainLoop] in *.
  { exists 0. pose proof (len_nonneg (src (scn p))). cbn [final].
    rewrite advance_0. split; [lia | reflexivity]. }
  destruct (nextKV align p) as [[[ev [|]] | e | c] p'] eqn:E;
    cbn [final status] in *.
  - destruct (nextKV_exact p _ _ W E eq_refl) as (j & Hj & Hp').
    destruct (advance_wf (scn p) j W Hj) as [W1 L1]. rewrite <- Hp' in W1, L1.
    destruct (IH p' W1 Hst) as (i & Hi & ->).
    exists (j + i). rewrite Hp', advance_advance by lia. split; [lia | reflexivity].
  - exact (nextKV_exact p _ _ W E eq_refl).
  - destruct Hst; discriminate.
  - destruct Hst; discriminate.
Qed.

End OffsetFacts.

(** X9: the position is the file offset.  From the parser [newParser]
    returns over a file [r], as long as the main loop has met no error, the
    scanner's position is the number of bytes of [r] that have been taken,
    and the reader holds exactly the bytes of [r] from that offset on. *)
Theorem position_is_file_offset
    (align : bool) (r : list byte) (size : Z) (pol : policy)
    (p : parser) (hdr : headerEvent) (matchKey : string -> bool) (fuel : nat) :
  len r < 2 ^ 63 ->
  newParser r size pol = Ok (p, hdr) ->
  let run := mainLoop align matchKey fuel p in
  status run = Finished \/ status run = Running ->
  24 <= pos (scn (final run)) <= len r /\
  src (scn (final run)) = skipn (Z.to_nat (pos (scn (final run)))) r.
Proof.
  intros Hr Hnew run Hst.
  assert (Hp : 24 <= len r /\ src (scn p) = skipn 24 r /\ pos (scn p) = 24).
  { unfold newParser in Hnew.
    destruct (readExact 24 (newScanner r)) as [[hb | e | c] s0] eqn:E; try discriminate.
    apply readExact_Ok in E. destruct E as (Hl & _ & ->).
    destruct (negb _); [discriminate |].
    set (sel := if order_uint LittleEndian (slice hb 4 8) =? 3 then _ else _) in Hnew.
    destruct sel as [[[o v] en] |]; [| discriminate].
    injection Hnew as <- _. cbn [scn src pos newScanner] in *.
    split; [lia |]. split; reflexivity. }
  destruct Hp as (H24 & Hsrc & Hpos).
  assert (W : scanner_wf (scn p)).
  { unfold scanner_wf. rewrite Hpos, Hsrc.
    change 24%nat with (Z.to_nat 24). rewrite len_skipn by (pose proof (len_nonneg r); lia).
    lia. }
  destruct (mainLoop_exact align matchKey fuel p W Hst) as (k & Hk & Hfin).
  fold run in Hfin. rewrite Hfin. unfold advance. cbn [pos src].
  rewrite Hpos, Hsrc in *.
  change 24%nat with (Z.to_nat 24) in *.
  rewrite len_skipn in Hk by (pose proof (len_nonneg r); lia).
  split; [lia |].
  rewrite skipn_skipn, Z2Nat.inj_add, Nat.add_comm by lia. reflexivity.
Qed.

Lemma position_is_file_offset_witness :
  let run := mainLoop false (fun _ => true) 3 scenario_parser in
  pos (scn (final run)) = 41 /\
  src (scn (final run))
    = skipn (Z.to_nat (pos (scn (final run)))) (prologue_v3_le ++ entry_a_uint32_42).
Proof.
  cbv zeta.
  destruct (position_is_file_offset false (prologue_v3_le ++ entry_a_uint32_42) 41
              defaultPolicy scenario_parser scenario_header (fun _ => true) 3
              ltac:(vm_compute; reflexivity) ltac:(vm_compute; reflexivity)
              ltac:(left; vm_compute; reflexivity)) as [_ H].
  split; [vm_compute; reflexivity | exact H].
Defined.

Lemma bulkSkip_fixed_width_witness :
  let s := file_scanner LittleEndian payload_float32_100 49 in
  bulkSkipArrayElements defaultPolicy tFloat32 100 s
    = (Ok tt, file_scanner LittleEndian [] 449) /\
  exists e,
    bulkSkipArrayElements defaultPolicy tFloat32 101 s
      = (Fail e, file_scanner LittleEndian [] 449) /\
    is_ShortRead e = true.
Proof.
  cbv zeta.
  assert (W : scanner_wf (file_scanner LittleEndian payload_float32_100 49))
    by (unfold scanner_wf, len; cbn; lia).
  destruct (bulkSkip_fixed_width defaultPolicy tFloat32 4 100 LittleEndian eq_refl
              (file_scanner LittleEndian payload_float32_100 49) W eq_refl ltac:(lia))
    as [H _].
  destruct (bulkSkip_fixed_width defaultPolicy tFloat32 4 101 LittleEndian eq_refl
              (file_scanner LittleEndian payload_float32_100 49) W eq_refl ltac:(lia))
    as [_ H'].
  split.
  - rewrite (H ltac:(vm_compute; discriminate)). vm_compute. reflexivity.
  - destruct (H' ltac:(vm_compute; reflexivity)) as (e & He & Hs).
    exists e. split; [rewrite He; vm_compute; reflexivity | exact Hs].
Defined.

Lemma readExpandedArray_fixed_width_witness :
  exists elems,
    readExpandedArray defaultPolicy tFloat32 100 "float32"
      (file_scanner LittleEndian payload_float32_100 49)
      = (Ok (VSlice elems, "array[float32]"), file_scanner LittleEndian [] 449) /\
    len elems = 100.
Proof.
  destruct (readExpandedArray_fixed_width defaultPolicy tFloat32 4 100 LittleEndian
              eq_refl "float32" (file_scanner LittleEndian payload_float32_100 49)
              ltac:(unfold scanner_wf, len; cbn; lia) eq_refl ltac:(lia)
              ltac:(vm_compute; discriminate)) as (elems & H & Hl & _).
  exists elems. split; [rewrite H; vm_compute; reflexivity | exact Hl].
Defined.

(** ** Declared counts against the bytes there are *)

Section CountBounds.

Variable pol : policy.

Lemma bulkSkip_from_count fuel :
  forall et n i s s',
    bulkSkip_from pol fuel et n i s = (Ok tt, s') ->
    Z.max 0 (n - i) <= len (src s) - len (src s').
Proof.
  induction fuel as [| fuel IH]; intros et n i s s' H; cbn [bulkSkip_from] in H;
    [discriminate |].
  destruct (i <? n) eqn:Ei.
  2:{ apply Z.ltb_ge in Ei. unfold ret in H. injection H as <-. lia. }
  apply Z.ltb_lt in Ei.
  destruct (et =? tArray).
  - apply bind_Ok in H. destruct H as (nestedET & s1 & E1 & H).
    apply bind_Ok in H. destruct H as (nestedN & s2 & E2 & H).
    apply bind_Ok in H. destruct H as ([] & s3 & E3 & H).
    pose proof (reads_eats 4 U32 ltac:(lia) reads_U32 _ _ _ E1) as L1.
    pose proof (reads_eats 8 U64 ltac:(lia) reads_U64 _ _ _ E2) as L2.
    pose proof (tame_bulkSkip_from pol _ _ _ _ _ _ _ E3) as (_ & L3 & _).
    apply IH in H. unfold len in *. lia.
  - apply bind_Ok in H. destruct H as (x & s1 & E1 & H).
    pose proof (eats_readScalar pol _ _ _ _ E1) as L1.
    apply IH in H. unfold len in *. lia.
Qed.

(** X10: an array is never taken to hold more elements than the file has
    bytes for.  When the skip of [n] elements succeeds, and when the
    expansion does, at least [n] bytes have been taken from the reader; so a
    count above the number of bytes left always ends in an error, and an
    expanded sequence is never longer than the payload it was read from. *)
Theorem array_count_bounded_by_bytes (et n : Z) (elemName : string) (s : scanner) :
  (forall s', bulkSkipArrayElements pol et n s = (Ok tt, s') ->
     n <= len (src s) - len (src s')) /\
  (forall v label s', readExpandedArray pol et n elemName s = (Ok (v, label), s') ->
     exists elems, v = VSlice elems /\
       len elems = Z.max 0 n /\ len elems <= len (src s) - len (src s')) /\
  (len (src s) < n ->
     succeeded (fst (bulkSkipArrayElements pol et n s)) = false /\
     succeeded (fst (readExpandedArray pol et n elemName s)) = false).
Proof.
  assert (Hskip : forall s', bulkSkipArrayElements pol et n s = (Ok tt, s') ->
                    Z.max 0 n <= len (src s) - len (src s')).
  { intros s' H. unfold bulkSkipArrayElements in H.
    apply bulkSkip_from_count in H. rewrite Z.sub_0_r in H. exact H. }
  assert (Hexp : forall v label s',
             readExpandedArray pol et n elemName s = (Ok (v, label), s') ->
             exists elems, v = VSlice elems /\
               len elems = Z.max 0 n /\ len elems <= len (src s) - len (src s')).
  { intros v label s' H.
    pose proof (skip_expand_same_span pol et n elemName s) as Hsame.
    rewrite H in Hsame. apply Hskip in Hsame.
    unfold readExpandedArray in H. apply bind_Ok in H.
    destruct H as (elems & s1 & E & Hr). unfold ret in Hr. injection Hr as <- _ <-.
    apply readExpanded_from_length in E. rewrite Z.sub_0_r in E.
    exists elems. split; [reflexivity |]. cbn [len length] in E. unfold len in E at 2.
    cbn [length] in E. split; lia. }
  split; [intros s' H; apply Hskip in H; lia |].
  split; [exact Hexp |].
  intros Hn. split.
  - destruct (bulkSkipArrayElements pol et n s) as [[[] | e | c] s'] eqn:E;
      try reflexivity.
    specialize (Hskip s' eq_refl). pose proof (len_nonneg (src s')). lia.
  - destruct (readExpandedArray pol et n elemName s) as [[[v l] | e | c] s'] eqn:E;
      try reflexivity.
    destruct (Hexp v l s' eq_refl) as (elems & _ & Hl & Hb).
    pose proof (len_nonneg (src s')). lia.
Qed.

End CountBounds.

Lemma array_count_bounded_by_bytes_witness :
  succeeded (fst (bulkSkipArrayElements defaultPolicy tUint8 (2 ^ 64 - 1)
                    (file_scanner LittleEndian [x01; x02; x03] 49))) = false /\
  succeeded (fst (readExpandedArray defaultPolicy tUint8 (2 ^ 64 - 1) "uint8"
                    (file_scanner LittleEndian [x01; x02; x03] 49))) = false.
Proof.
  destruct (array_count_bounded_by_bytes defaultPolicy tUint8 (2 ^ 64 - 1) "uint8"
              (file_scanner LittleEndian [x01; x02; x03] 49)) as (_ & _ & H).
  apply H. vm_compute. reflexivity.
Defined.

(** ** What the header decode refuses *)

Lemma string_of_list_byte_inj a c :
  string_of_list_byte a = string_of_list_byte c -> a = c.
Proof.
  intros H. rewrite <- (list_byte_of_string_of_list_byte a),
    <- (list_byte_of_string_of_list_byte c), H. reflexivity.
Qed.

(** X11: [newParser] over any input.  Fewer than 24 bytes: the header read
    fails with a short read.  24 bytes or more that do not start with
    "GGUF": bad magic, whatever the version field.  It never panics.  And
    when it returns a parser, the input had its 24 bytes and the magic, the
    version field reads 3 in the byte order chosen, the scanner stands at
    position 24 on the rest of the input, and the parser carries the size
    and the policy it was given. *)
Theorem newParser_outcomes (r : list byte) (size : Z) (pol0 : policy) :
  (len r < 24 ->
     exists e, newParser r size pol0 = Fail e /\ is_ShortRead e = true) /\
  (24 <= len r -> firstn 4 r <> list_byte_of_string magicGGUF ->
     exists e, newParser r size pol0 = Fail e /\ is_BadMagic e = true) /\
  (forall c, newParser r size pol0 <> Crash c) /\
  (forall p hdr, newParser r size pol0 = Ok (p, hdr) ->
     24 <= len r /\
     firstn 4 r = list_byte_of_string magicGGUF /\
     (exists o, order_uint o (slice r 4 8) = 3 /\
                scn p = {| src := skipn 24 r; order := Some o; pos := 24 |} /\
                tc p = order_uint o (slice r 8 16) /\
                kv p = order_uint o (slice r 16 24)) /\
     fileSize p = size /\ pol p = pol0 /\
     Kind hdr = "header" /\ Version hdr = 3 /\ version p = 3 /\
     TensorCount hdr = tc p /\ KVCount hdr = kv p /\ kvRemain p = kv p).
Proof.
  assert (Hslice : forall lo hi, (hi <= 24)%nat ->
            slice (firstn 24 r) lo hi = slice r lo hi).
  { intros lo hi Hhi. unfold slice. rewrite skipn_firstn_comm, firstn_firstn.
    f_equal. lia. }
  unfold newParser. split; [| split; [| split]].
  - intros Hl. destruct (readExact_drained 24 (newScanner r) Hl) as (e & He & Hs).
    rewrite He. exists (ErrHeaderRead e). split; [reflexivity | exact Hs].
  - intros Hl Hm.
    rewrite (readExact_enough 24 (newScanner r)
               ltac:(pose proof (len_nonneg r); cbn [newScanner src]; lia)).
    change (Z.to_nat 24) with 24%nat. cbn [newScanner src].
    rewrite (Hslice 0%nat 4%nat ltac:(lia)).
    destruct (String.eqb (string_of_list_byte (slice r 0 4)) magicGGUF) eqn:E.
    + apply String.eqb_eq in E. exfalso. apply Hm.
      apply string_of_list_byte_inj. rewrite string_of_list_byte_of_string.
      exact E.
    + cbn [negb]. eexists. split; reflexivity.
  - intros c.
    destruct (readExact 24 (newScanner r)) as [[hb | e | c'] s0] eqn:E.
    + destruct (negb _); [discriminate |].
      set (sel := if order_uint LittleEndian (slice hb 4 8) =? 3 then _ else _).
      destruct sel as [[[o v] en] |]; discriminate.
    + discriminate.
    + unfold readExact in E. cbn in E. destruct (24 <=? _); discriminate.
  - intros p hdr H.
    destruct (readExact 24 (newScanner r)) as [[hb | e | c'] s0] eqn:E; try discriminate.
    apply readExact_Ok in E. destruct E as (Hl & -> & ->).
    change (Z.to_nat 24) with 24%nat in *. cbn [newScanner src order pos] in *.
    rewrite !Hslice in H by lia.
    destruct (String.eqb (string_of_list_byte (slice r 0 4)) magicGGUF) eqn:Em;
      [| discriminate].
    cbn [negb] in H. apply String.eqb_eq in Em.
    split; [lia |]. split.
    { apply string_of_list_byte_inj. rewrite string_of_list_byte_of_string.
      exact Em. }
    destruct (order_uint LittleEndian (slice r 4 8) =? 3) eqn:E1.
    + apply Z.eqb_eq in E1. injection H as <- <-.
      cbn [scn tc kv fileSize pol Kind Version version TensorCount KVCount kvRemain].
      split; [exists LittleEndian; repeat split; assumption |]. repeat split.
    + destruct (order_uint BigEndian (slice r 4 8) =? 3) eqn:E2; [| discriminate].
      apply Z.eqb_eq in E2. injection H as <- <-.
      cbn [scn tc kv fileSize pol Kind Version version TensorCount KVCount kvRemain].
      split; [exists BigEndian; repeat split; assumption |]. repeat split.
Qed.

(** ** One call of the key-value stream *)

Lemma U32_nonneg s n s' : U32 s = (Ok n, s') -> 0 <= n.
Proof.
  unfold U32. intros H. apply bind_Ok in H. destruct H as (bs & s1 & _ & H).
  unfold with_order in H. destruct (order s1); [| discriminate].
  injection H as <- _. apply order_uint_range.
Qed.

Lemma typeNames_nonempty tag : 0 <= tag < 13 -> at_ typeNames tag <> "".
Proof.
  intros H.
  assert (Hc : tag = 0 \/ tag = 1 \/ tag = 2 \/ tag = 3 \/ tag = 4 \/ tag = 5 \/
               tag = 6 \/ tag = 7 \/ tag = 8 \/ tag = 9 \/ tag = 10 \/ tag = 11 \/
               tag = 12) by lia.
  repeat destruct Hc as [-> | Hc]; try subst tag; discriminate.
Qed.

Section CallFacts.

Variable align : bool.

Lemma nextKV_no_more (p : parser) :
  (forall ev p', nextKV align p = (Ok (ev, false), p') ->
     kvRemain p = 0 /\ p' = p /\ ev = kvEvent_zero) /\
  (kvRemain p <> 0 -> len (src (scn p)) < 8 ->
     exists e, nextKV align p = (Fail e, set_scn p (drained (scn p))) /\
               is_ShortRead e = true).
Proof.
  split.
  - intros ev p' H. unfold nextKV in H.
    destruct (kvRemain p =? 0) eqn:E0.
    { apply Z.eqb_eq in E0. injection H as <- <-. auto. }
    destruct (GGUFString _ (scn p)) as [[key | e | c] s1]; try discriminate.
    destruct (U32 s1) as [[tag | e | c] s2]; try discriminate.
    destruct (readValue _ _ _ _ s2) as [[[[val typ] omitted] | e | c] s3];
      try discriminate.
    destruct omitted; discriminate.
  - intros Hne Hl. unfold nextKV.
    destruct (kvRemain p =? 0) eqn:E0; [apply Z.eqb_eq in E0; contradiction |].
    destruct (readExact_drained 8 (scn p) Hl) as (e & He & Hs).
    assert (HG : GGUFString (maxString (pol p)) (scn p) = (Fail e, drained (scn p))).
    { unfold GGUFString. apply bind_eq_Fail. unfold U64. apply bind_eq_Fail. exact He. }
    rewrite HG. exists e. split; [reflexivity | exact Hs].
Qed.

(** X12: [nextKV] reports no more entries only at a remaining count of 0,
    and then the parser is as it was.  While the count is not 0 and the
    file has fewer than 8 bytes left, so not even the length of a key, the
    call fails with a short read: a header that announces more entries than
    the file holds is an error, not an early end. *)
Theorem nextKV_no_more_only_at_zero (p : parser) :
  (forall ev p', nextKV align p = (Ok (ev, false), p') ->
     kvRemain p = 0 /\ p' = p /\ ev = kvEvent_zero) /\
  (kvRemain p <> 0 -> len (src (scn p)) < 8 ->
     exists e, nextKV align p = (Fail e, set_scn p (drained (scn p))) /\
               is_ShortRead e = true).
Proof. exact (nextKV_no_more p). Qed.

Lemma readValue_result pol tag key s val typ omitted s' :
  0 <= tag ->
  readValue pol align tag key s = (Ok (val, typ, omitted), s') ->
  omitted = false /\
  ((tag <> tArray /\ value_tag val = Some tag /\ typ = at_ typeNames tag /\ tag < 13) \/
   (tag = tArray /\
    exists name, typ = "array[" ++ name ++ "]" /\
      ((exists elems, val = VSlice elems) \/
       (exists n, val = VPlaceholder "array" n name)))).
Proof.
  intros H0 H. unfold readValue in H.
  apply bind_Ok in H. destruct H as ([] & s1 & _ & H).
  destruct (tag =? tArray) eqn:E9.
  - apply Z.eqb_eq in E9. unfold readArray in H.
    apply bind_Ok in H. destruct H as (et & s2 & _ & H).
    apply bind_Ok in H. destruct H as (n & s3 & _ & H).
    fold (elemName_of et) in H.
    destruct (shouldExpand pol key).
    + destruct (readExpandedArray pol et n (elemName_of et) s3)
        as [[[v l] | e | c] s4] eqn:E; try discriminate.
      injection H as <- <- <- <-.
      unfold readExpandedArray in E. apply bind_Ok in E.
      destruct E as (elems & s5 & _ & Hr). unfold ret in Hr. injection Hr as <- <- _.
      split; [reflexivity |]. right. split; [exact E9 |].
      exists (elemName_of et). split; [reflexivity |]. left. eexists. reflexivity.
    + apply bind_Ok in H. destruct H as ([] & s4 & _ & H).
      unfold ret in H. injection H as <- <- <- _.
      split; [reflexivity |]. right. split; [exact E9 |].
      exists (elemName_of et). split; [reflexivity |]. right. eexists. reflexivity.
  - apply Z.eqb_neq in E9.
    apply bind_Ok in H. destruct H as ([v l] & s2 & E & H).
    unfold ret in H. cbn [fst snd] in H. injection H as <- <- <- _.
    destruct (readScalar_cases pol tag s1 H0) as [_ Hs].
    destruct (Hs _ _ _ E) as (Hlt & _ & Hv & Hlab & _).
    split; [reflexivity |]. left. auto.
Qed.

(** X13: what a record that [nextKV] produces is.  Its key is the string
    read at the scanner's position, no longer than the string cap; the
    record is never the empty one that stands for an omitted entry; its
    type label is never empty and goes with its value: the name of a scalar
    kind with a value of that Go type, or "array[...]" with a sequence or
    an array placeholder.  The call leaves the byte order and what the
    parser took from the header and from its caller untouched. *)
Theorem nextKV_record (p p' : parser) (ev : kvEvent) :
  scanner_wf (scn p) ->
  nextKV align p = (Ok (ev, true), p') ->
  (exists s1, GGUFString (maxString (pol p)) (scn p) = (Ok (Key ev), s1)) /\
  Z.of_nat (String.length (Key ev)) <= maxString (pol p) /\
  Type_ ev <> "" /\
  ((exists tag, 0 <= tag < 13 /\ tag <> tArray /\
      value_tag (Value ev) = Some tag /\ Type_ ev = at_ typeNames tag) \/
   (exists name, Type_ ev = "array[" ++ name ++ "]" /\
      ((exists elems, Value ev = VSlice elems) \/
       (exists n, Value ev = VPlaceholder "array" n name)))) /\
  order (scn p') = order (scn p) /\
  fileSize p' = fileSize p /\ endianHint p' = endianHint p /\
  version p' = version p /\ tc p' = tc p /\ kv p' = kv p /\ pol p' = pol p.
Proof.
  intros W H.
  unfold nextKV in H.
  destruct (kvRemain p =? 0); [discriminate |].
  destruct (GGUFString _ (scn p)) as [[key | e | c] s1] eqn:E1; try discriminate.
  destruct (U32 s1) as [[tag | e | c] s2] eqn:E2; try discriminate.
  destruct (readValue _ _ _ _ s2) as [[[[val typ] omitted] | e | c] s3] eqn:E3;
    try discriminate.
  pose proof (U32_nonneg _ _ _ E2) as Htag.
  destruct (readValue_result _ _ _ _ _ _ _ _ Htag E3) as (-> & Hshape).
  injection H as <- <-. cbn [Key Type_ Value].
  split; [exists s1; reflexivity |].
  split; [exact (proj1 (GGUFString_Ok_cap _ _ _ _ W E1)) |].
  split.
  { destruct Hshape as [(_ & _ & -> & Hlt) | (_ & name & -> & _)].
    - apply typeNames_nonempty. lia.
    - discriminate. }
  split.
  { destruct Hshape as [(Hne & Hv & Hl & Hlt) | (_ & name & Hl & Hv)].
    - left. exists tag. repeat split; try assumption; lia.
    - right. exists name. split; assumption. }
  cbn [scn fileSize endianHint version tc kv pol set_kvRemain set_scn].
  repeat split.
  pose proof (tame_GGUFString _ _ _ _ E1) as (O1 & _).
  pose proof (tame_U32 _ _ _ E2) as (O2 & _).
  pose proof (tame_readValue _ _ _ _ _ _ _ E3) as (O3 & _).
  congruence.
Qed.

End CallFacts.

Lemma nextKV_record_witness :
  exists ev p',
    nextKV false scenario_parser = (Ok (ev, true), p') /\
    Key ev = "a" /\ Type_ ev = "uint32" /\ value_tag (Value ev) = Some tUint32 /\
    Type_ ev <> "".
Proof.
  assert (H : nextKV false scenario_parser
              = (Ok ({| Key := "a"; Type_ := "uint32"; Value := VUint32 42 |}, true),
                 set_kvRemain (set_scn scenario_parser (file_scanner LittleEndian [] 41)) 0))
    by (vm_compute; reflexivity).
  pose proof (nextKV_record false scenario_parser _ _
                ltac:(unfold scanner_wf, len; cbn; lia) H) as (_ & _ & Hne & _).
  eexists _, _. split; [exact H |]. split; [reflexivity |].
  split; [reflexivity |]. split; [reflexivity | exact Hne].
Defined.

Lemma nextKV_no_more_only_at_zero_witness :
  exists e,
    nextKV false truncated_parser = (Fail e, truncated_parser) /\
    is_ShortRead e = true.
Proof.
  destruct (nextKV_no_more_only_at_zero false truncated_parser) as [_ H].
  destruct (H ltac:(vm_compute; discriminate) ltac:(vm_compute; reflexivity))
    as (e & He & Hs).
  exists e. split; [exact He | exact Hs].
Defined.

(** ** The main loop *)

Section LoopFacts.

Variable align : bool.

Lemma mainLoop_stops matchKey fuel :
  forall p, 0 <= kvRemain p < 2 ^ 64 ->
    (Z.to_nat (kvRemain p) < fuel)%nat ->
    status (mainLoop align matchKey fuel p) <> Running.
Proof.
  induction fuel as [| fuel IH]; intros p R Hf; [lia |].
  cbn [mainLoop].
  destruct (nextKV align p) as [[[ev [|]] | e | c] p'] eqn:E; cbn [status];
    try discriminate.
  apply nextKV_produced in E. destruct E as [Hne Hdec].
  rewrite wrap64_small in Hdec by lia.
  apply IH; lia.
Qed.

Lemma mainLoop_finished matchKey fuel :
  forall p, status (mainLoop align matchKey fuel p) = Finished ->
    kvRemain (final (mainLoop align matchKey fuel p)) = 0.
Proof.
  induction fuel as [| fuel IH]; intros p; cbn [mainLoop]; [discriminate |].
  destruct (nextKV align p) as [[[ev [|]] | e | c] p'] eqn:E; cbn [status final];
    try discriminate.
  - apply IH.
  - intros _. destruct (nextKV_no_more align p) as [H _].
    destruct (H _ _ E) as (H0 & -> & _). exact H0.
Qed.

Lemma mainLoop_emitted matchKey fuel :
  forall p,
    emitted (mainLoop align matchKey fuel p)
    = List.filter (fun ev => negb (String.eqb (Key ev) "") && matchKey (Key ev))
        (produced (mainLoop align matchKey fuel p)).
Proof.
  induction fuel as [| fuel IH]; intros p; cbn [mainLoop]; [reflexivity |].
  destruct (nextKV align p) as [[[ev [|]] | e | c] p']; cbn [emitted produced];
    try reflexivity.
  cbn [List.filter]. rewrite IH.
  destruct (String.eqb (Key ev) ""); cbn [negb andb]; [reflexivity |].
  destruct (matchKey (Key ev)); reflexivity.
Qed.

End LoopFacts.

(** X14: the main loop ends.  From the parser [newParser] returns, once
    more calls are allowed than the header's key-value count, the loop has
    stopped: on an error, on a panic, or on the report of no more entries;
    and when it stops on that report, the records produced are exactly as
    many as the header announced and the remaining count is 0. *)
Theorem main_loop_ends
    (align : bool) (r : list byte) (size : Z) (pol : policy)
    (p : parser) (hdr : headerEvent) (matchKey : string -> bool) (fuel : nat) :
  newParser r size pol = Ok (p, hdr) ->
  (Z.to_nat (KVCount hdr) < fuel)%nat ->
  let run := mainLoop align matchKey fuel p in
  status run <> Running /\
  (status run = Finished ->
     len (produced run) = KVCount hdr /\ kvRemain (final run) = 0).
Proof.
  intros Hnew Hf run.
  destruct (newParser_Ok _ _ _ _ _ Hnew) as (R & Hkv & _).
  split; [apply mainLoop_stops; [exact R | rewrite Hkv; exact Hf] |].
  intros Hfin.
  pose proof (mainLoop_finished align matchKey fuel p Hfin) as H0.
  destruct (mainLoop_count align matchKey fuel p R) as [_ Hc].
  fold run in H0, Hc. split; [lia | exact H0].
Qed.

Lemma main_loop_ends_witness :
  let run := mainLoop false (fun _ => true) 2 scenario_parser in
  status run = Finished /\ len (produced run) = 1.
Proof.
  cbv zeta.
  destruct (main_loop_ends false (prologue_v3_le ++ entry_a_uint32_42) 41 defaultPolicy
              scenario_parser scenario_header (fun _ => true) 2
              ltac:(vm_compute; reflexivity) ltac:(vm_compute; lia)) as [_ H].
  assert (Hfin : status (mainLoop false (fun _ => true) 2 scenario_parser) = Finished)
    by (vm_compute; reflexivity).
  split; [exact Hfin | exact (proj1 (H Hfin))].
Defined.


(** ** The patterns of --expand-arrays *)

Lemma append_cons c s t : String c s ++ t = String c (s ++ t).
Proof. reflexivity. Qed.

Lemma append_nil t : "" ++ t = t.
Proof. reflexivity. Qed.

Lemma length_append_star pre : String.length (pre ++ "*") = S (String.length pre).
Proof.
  induction pre as [| c pre IH]; [reflexivity |].
  rewrite append_cons. cbn [String.length]. rewrite IH. reflexivity.
Qed.

Lemma substring_last_star pre : substring (String.length pre) 1 (pre ++ "*") = "*".
Proof.
  induction pre as [| c pre IH]; [reflexivity |].
  rewrite append_cons. cbn [String.length substring]. exact IH.
Qed.

Lemma substring_init_star pre : substring 0 (String.length pre) (pre ++ "*") = pre.
Proof.
  induction pre as [| c pre IH]; [reflexivity |].
  rewrite append_cons. cbn [String.length substring]. rewrite IH. reflexivity.
Qed.

Lemma HasSuffix_append_star pre : HasSuffix (pre ++ "*") "*" = true.
Proof.
  unfold HasSuffix. rewrite length_append_star. cbn [String.length Nat.leb Nat.sub].
  rewrite Nat.sub_0_r, substring_last_star. reflexivity.
Qed.

Lemma TrimSuffix_append_star pre : TrimSuffix (pre ++ "*") "*" = pre.
Proof.
  unfold TrimSuffix. rewrite HasSuffix_append_star, length_append_star.
  cbn [String.length Nat.sub]. rewrite Nat.sub_0_r. apply substring_init_star.
Qed.

Lemma HasSuffix_star_inv s : HasSuffix s "*" = true -> exists pre, s = pre ++ "*".
Proof.
  induction s as [| c s IH]; [discriminate |].
  destruct s as [| c' s'].
  - unfold HasSuffix. cbn. destruct (Ascii.eqb_spec c "*"%char); [| discriminate].
    intros _. exists "". subst. reflexivity.
  - intros H.
    assert (H' : HasSuffix (String c' s') "*" = true).
    { unfold HasSuffix in *. cbn [String.length Nat.leb Nat.sub andb] in *.
      rewrite Nat.sub_0_r in *. cbn [substring] in H. exact H. }
    destruct (IH H') as [pre Hpre]. exists (String c pre).
    rewrite append_cons, <- Hpre. reflexivity.
Qed.

Lemma prefix_iff_append pre key :
  String.prefix pre key = true <-> exists rest, key = pre ++ rest.
Proof.
  revert key. induction pre as [| c pre IH]; intros key.
  - split; [intros _; exists key; reflexivity | intros _; destruct key; reflexivity].
  - destruct key as [| k key].
    + split; [discriminate | intros [rest H]; discriminate].
    + change (String.prefix (String c pre) (String k key))
        with (if ascii_dec c k then String.prefix pre key else false).
      destruct (ascii_dec c k) as [-> | Hne].
      * rewrite IH. split; intros [rest H]; exists rest;
          rewrite append_cons in *; congruence.
      * split; [discriminate | intros [rest H]; rewrite append_cons in H; congruence].
Qed.

Section PatternFacts.

Variable TrimSpace : string -> string.

Lemma fold_addPattern pats :
  forall m ps,
    (forall k b, m !! k = Some b -> b = true) ->
    let acc := fold_left (addPattern TrimSpace) pats (m, ps) in
    (forall k b, fst acc !! k = Some b -> b = true) /\
    (forall k, fst acc !! k = Some true <->
       m !! k = Some true \/
       In k (List.filter (fun pat => negb (HasSuffix pat "*")) (map TrimSpace pats))) /\
    snd acc
    = (ps ++ map (fun pat => TrimSuffix pat "*")
              (List.filter (fun pat => HasSuffix pat "*") (map TrimSpace pats)))%list.
Proof.
  induction pats as [| pat pats IH]; intros m ps Hm; cbn [fold_left map List.filter].
  - cbn [fst snd]. split; [exact Hm |]. split; [| rewrite app_nil_r; reflexivity].
    intros k. cbn [In]. tauto.
  - destruct (HasSuffix (TrimSpace pat) "*") eqn:E; cbn [negb].
    + assert (Hstep : addPattern TrimSpace (m, ps) pat
                      = (m, (ps ++ [TrimSuffix (TrimSpace pat) "*"])%list))
        by (unfold addPattern; rewrite E; reflexivity).
      rewrite Hstep. cbn [map].
      destruct (IH m (ps ++ [TrimSuffix (TrimSpace pat) "*"])%list Hm) as (H1 & H2 & H3).
      split; [exact H1 |]. split; [exact H2 |].
      rewrite H3, <- app_assoc. reflexivity.
    + assert (Hstep : addPattern TrimSpace (m, ps) pat
                      = (<[TrimSpace pat := true]> m, ps))
        by (unfold addPattern; rewrite E; reflexivity).
      rewrite Hstep.
      assert (Hm' : forall k b, <[TrimSpace pat := true]> m !! k = Some b -> b = true).
      { intros k b. rewrite lookup_insert. destruct (decide (TrimSpace pat = k)).
        - intros H. congruence.
        - apply Hm. }
      destruct (IH (<[TrimSpace pat := true]> m) ps Hm') as (H1 & H2 & H3).
      split; [exact H1 |]. split; [| exact H3].
      intros k. rewrite H2. cbn [In]. rewrite lookup_insert.
      destruct (decide (TrimSpace pat = k)) as [-> | Hne].
      * tauto.
      * split; [intros [H | H]; auto | intros [H | [H | H]]; auto; contradiction].
Qed.

(** X16: what [--expand-arrays] means.  With the policy [main] builds from
    the flag, an array key is expanded exactly when the flag is not empty
    and one of its comma-separated patterns, trimmed, either does not end in
    "*" and is the key itself, or is some text followed by "*" and the key
    begins with that text; so "*" alone expands every array, and the
    threshold and the other flags have no part in it. *)
Theorem expand_arrays_flag_meaning
    (maxArray maxString : Z) (debug : bool) (flag key : string) :
  shouldExpand (mainPolicy TrimSpace maxArray maxString debug flag) key = true <->
  flag <> "" /\
  exists pattern, In pattern (map TrimSpace (Split flag ",")) /\
    ((HasSuffix pattern "*" = false /\ pattern = key) \/
     (exists text rest, pattern = text ++ "*" /\ key = text ++ rest)).
Proof.
  unfold shouldExpand, mainPolicy, parseExpandArrays.
  cbn [expandArrays expandPrefixes].
  destruct (String.eqb_spec flag "") as [-> | Hne]; cbn [negb].
  { cbn [fst snd existsb]. rewrite lookup_empty. cbn. split; [discriminate |].
    intros [H _]. contradiction. }
  destruct (fold_addPattern (Split flag ",") ∅ []
              ltac:(intros k b0 H; rewrite lookup_empty in H; discriminate))
    as (Htrue & Hmap & Hpre).
  cbv zeta in Htrue, Hmap, Hpre.
  set (acc := fold_left (addPattern TrimSpace) (Split flag ",") (∅, [])) in *.
  rewrite Hpre. cbn [app].
  assert (Hexact : default false (fst acc !! key) = true <->
            In key (List.filter (fun pat => negb (HasSuffix pat "*"))
                      (map TrimSpace (Split flag ",")))).
  { pose proof (Hmap key) as Hk. pose proof (Htrue key) as Ht.
    rewrite lookup_empty in Hk.
    destruct (fst acc !! key) as [[|] |] eqn:E; cbn [default].
    - split; [intros _; destruct Hk as [Hk _]; destruct (Hk eq_refl) as [H | H];
               [discriminate | exact H] | reflexivity].
    - discriminate (Ht false eq_refl).
    - split; [discriminate |]. intros H. destruct Hk as [_ Hk].
      discriminate (Hk (or_intror H)). }
  assert (Hprefix :
    existsb (fun prefix => String.prefix prefix key)
      (map (fun pat => TrimSuffix pat "*")
         (List.filter (fun pat => HasSuffix pat "*") (map TrimSpace (Split flag ","))))
    = true <->
    exists pattern, In pattern (map TrimSpace (Split flag ",")) /\
      exists text rest, pattern = text ++ "*" /\ key = text ++ rest).
  { rewrite existsb_exists. split.
    - intros (prefix & Hin & Hp). apply in_map_iff in Hin.
      destruct Hin as (pat & <- & Hin). apply filter_In in Hin. destruct Hin as [Hin Hs].
      destruct (HasSuffix_star_inv pat Hs) as [text ->].
      rewrite TrimSuffix_append_star in Hp. apply prefix_iff_append in Hp.
      destruct Hp as [rest ->]. exists (text ++ "*"). split; [exact Hin |].
      exists text, rest. split; reflexivity.
    - intros (pat & Hin & text & rest & -> & ->).
      exists text. split; [| apply prefix_iff_append; exists rest; reflexivity].
      apply in_map_iff. exists (text ++ "*"). split; [apply TrimSuffix_append_star |].
      apply filter_In. split; [exact Hin | apply HasSuffix_append_star]. }
  split.
  - intros H. split; [exact Hne |].
    destruct (default false (fst acc !! key)) eqn:Ed; cbn [negb] in H.
    + pose proof (proj1 Hexact eq_refl) as Hk. apply filter_In in Hk.
      destruct Hk as [Hin Hs].
      exists key. split; [exact Hin |]. left. split; [| reflexivity].
      destruct (HasSuffix key "*"); [discriminate | reflexivity].
    + apply Hprefix in H. destruct H as (pat & Hin & Hx).
      exists pat. split; [exact Hin | right; exact Hx].
  - intros (_ & pat & Hin & [[Hs ->] | Hx]).
    + assert (Ed : default false (fst acc !! key) = true).
      { apply Hexact. apply filter_In. split; [exact Hin |]. rewrite Hs. reflexivity. }
      rewrite Ed. reflexivity.
    + destruct (default false (fst acc !! key)); cbn [negb]; [reflexivity |].
      apply Hprefix. exists pat. split; assumption.
Qed.

End PatternFacts.

Lemma expand_arrays_flag_meaning_witness :
  shouldExpand (mainPolicy (fun s => s) 32 131072 false "general.name,tokenizer.*")
    "tokenizer.ggml.tokens" = true /\
  shouldExpand (mainPolicy (fun s => s) 32 131072 false "*") "anything" = true.
Proof.
  split.
  - apply (expand_arrays_flag_meaning (fun s => s) 32 131072 false
             "general.name,tokenizer.*" "tokenizer.ggml.tokens").
    split; [discriminate |].
    exists "tokenizer.*". split; [right; left; reflexivity |].
    right. exists "tokenizer.", "ggml.tokens". split; reflexivity.
  - apply (expand_arrays_flag_meaning (fun s => s) 32 131072 false "*" "anything").
    split; [discriminate |].
    exists "*". split; [left; reflexivity |].
    right. exists "", "anything". split; reflexivity.
Defined.

(** ** The capacity of an expanded array *)

(** X17: for every count a [uint64] can hold, [safeCapFromCount] is the
    count itself up to the largest [int] and that largest [int] above it:
    never negative, never more than the count. *)
Theorem safeCapFromCount_clamps (n : Z) :
  0 <= n < 2 ^ 64 ->
  safeCapFromCount n = Z.min n (2 ^ 63 - 1) /\
  0 <= safeCapFromCount n <= n.
Proof.
  intros Hn. unfold safeCapFromCount.
  destruct (n >? 2 ^ 63 - 1) eqn:E; rewrite Z.gtb_ltb in E.
  - apply Z.ltb_lt in E. lia.
  - apply Z.ltb_ge in E. rewrite int_of_uint64_small by lia. lia.
Qed.

Lemma safeCapFromCount_clamps_witness :
  safeCapFromCount (2 ^ 64 - 1) = 2 ^ 63 - 1 /\ safeCapFromCount 100 = 100.
Proof.
  destruct (safeCapFromCount_clamps (2 ^ 64 - 1) ltac:(lia)) as [H1 _].
  destruct (safeCapFromCount_clamps 100 ltac:(lia)) as [H2 _].
  split; [exact H1 | exact H2].
Defined.

(** ** Errors and panics of a decode *)

Lemma mild_weaken {A} (C C' : panic -> Prop) (m : scan A) :
  (forall c, C c -> C' c) -> mild C m -> mild C' m.
Proof.
  intros Hc Hm s r s' Ho H. specialize (Hm s r s' Ho H).
  destruct r; auto.
Qed.

Lemma mild_ret {A} C (a : A) : mild C (ret a).
Proof. intros s r s' _ H. unfold ret in H. injection H as <- _. exact I. Qed.

Lemma mild_bind {A B} C (m : scan A) (k : A -> scan B) :
  tame m -> mild C m -> (forall a, mild C (k a)) -> mild C (bind m k).
Proof.
  intros Ht Hm Hk s r s' Ho H. unfold bind in H.
  destruct (m s) as [[a | e | c] s1] eqn:E.
  - destruct (Ht _ _ _ E) as (Ho1 & _). apply (Hk a s1 r s'); [congruence | exact H].
  - injection H as <- _. exact (Hm _ _ _ Ho E).
  - injection H as <- _. exact (Hm _ _ _ Ho E).
Qed.

Lemma short_is_decode_error e : is_ShortRead e = true -> decode_error e.
Proof. intros H. left. exact H. Qed.

Lemma mild_readExact C n : 0 <= n -> mild C (readExact n).
Proof.
  intros Hn s r s' _ H. unfold readExact in H.
  destruct (n <? 0) eqn:E; [apply Z.ltb_lt in E; lia |].
  destruct (n <=? Z.of_nat (length (src s))); injection H as <- _; [exact I |].
  apply short_is_decode_error. destruct (src s); reflexivity.
Qed.

Lemma mild_with_order C bs : mild C (with_order bs).
Proof.
  intros s r s' Ho H. unfold with_order in H.
  destruct (order s); [injection H as <- _; exact I | contradiction].
Qed.

Create HintDb mild.

#[local] Hint Resolve mild_ret mild_with_order : mild.
#[local] Hint Extern 1 (mild _ (readExact _)) => apply mild_readExact; lia : mild.

Ltac mild_auto :=
  repeat first
    [ solve [eauto with mild tame]
    | apply mild_bind; [| | intros ?] ].

Lemma mild_U8 C : mild C U8.   Proof. unfold U8. mild_auto. Qed.
Lemma mild_U32 C : mild C U32. Proof. unfold U32. mild_auto. Qed.
Lemma mild_U64 C : mild C U64. Proof. unfold U64. mild_auto. Qed.

Lemma mild_GGUFString C max : max < 2 ^ 63 -> mild C (GGUFString max).
Proof.
  intros Hmax s r s' Ho H. unfold GGUFString in H. unfold bind at 1 in H.
  destruct (U64 s) as [[n | e | c] s1] eqn:E1.
  - pose proof (U64_nonneg _ _ _ E1) as Hn.
    destruct (tame_U64 _ _ _ E1) as (Ho1 & _).
    destruct (n >? max) eqn:Eg.
    + unfold fail in H. injection H as <- _. right. left. reflexivity.
    + rewrite Z.gtb_ltb in Eg. apply Z.ltb_ge in Eg.
      revert H. unfold b. rewrite int_of_uint64_small by lia.
      apply (mild_bind C (readExact n) (fun buf => ret (string_of_list_byte buf)));
        [apply tame_readExact | apply mild_readExact; exact Hn
        | intros; apply mild_ret | congruence].
  - injection H as <- _. exact (mild_U64 C _ _ _ Ho E1).
  - injection H as <- _. exact (mild_U64 C _ _ _ Ho E1).
Qed.

Lemma mild_Align8 C : mild C Align8.
Proof.
  intros s r s' Ho H. unfold Align8, Align in H. cbn [Z.eqb] in H.
  pose proof (Z.mod_pos_bound (pos s) 8 ltac:(lia)) as Hr.
  destruct (negb (pos s mod 8 =? 0)); [| injection H as <- _; exact I].
  revert H. unfold b. rewrite int_of_uint64_small by lia.
  apply (mild_bind C (readExact _) (fun _ => ret tt));
    [apply tame_readExact | apply mild_readExact; lia | intros; apply mild_ret | exact Ho].
Qed.

Lemma scalars_mild C tag dec :
  (if tag >=? len scalars then None else mjoin (scalars !! Z.to_nat tag)) = Some dec ->
  mild C dec.
Proof.
  destruct (tag >=? len scalars) eqn:E; [discriminate |].
  destruct (Z.to_nat tag) as [|[|[|[|[|[|[|[|[|[|[|[|[|n]]]]]]]]]]]]];
    cbn; intros H; try discriminate; injection H as <-;
    unfold fmap_scan, U8, I8, U16, I16, U32, I32, F32, U64, I64, F64, U32, U64;
    mild_auto.
Qed.

Section MildFacts.

Variable pol : policy.
Hypothesis cap_fits_int : maxString pol < 2 ^ 63.

Lemma mild_readScalar C tag : mild C (readScalar pol tag).
Proof.
  unfold readScalar. destruct (tag =? tString).
  { apply mild_bind; [apply tame_GGUFString | apply mild_GGUFString; exact cap_fits_int
                     | intros; apply mild_ret]. }
  destruct (if tag >=? len scalars then None else mjoin (scalars !! Z.to_nat tag))
    as [dec |] eqn:E.
  - pose proof (scalars_lookup _ _ E) as [Ht _]. apply (scalars_mild C) in E.
    apply mild_bind; [exact Ht | exact E | intros; apply mild_ret].
  - intros s r s' _ H. unfold fail in H. injection H as <- _.
    right. right. reflexivity.
Qed.

Lemma mild_bulkSkip_from fuel :
  forall et n i, mild stack_panic (bulkSkip_from pol fuel et n i).
Proof.
  induction fuel as [| fuel IH]; intros et n i; cbn [bulkSkip_from].
  { intros s r s' _ H. unfold crash in H. injection H as <- _. reflexivity. }
  destruct (i <? n); [| apply mild_ret].
  destruct (et =? tArray).
  - apply mild_bind; [apply tame_U32 | apply mild_U32 | intros nestedET].
    apply mild_bind; [apply tame_U64 | apply mild_U64 | intros nestedN].
    apply mild_bind; [apply tame_bulkSkip_from | apply IH | intros _]. apply IH.
  - apply mild_bind; [apply tame_readScalar | apply mild_readScalar | intros _].
    apply IH.
Qed.

Lemma mild_bulkSkipArrayElements et n : mild no_panic (bulkSkipArrayElements pol et n).
Proof.
  intros s r s' Ho H.
  pose proof (mild_bulkSkip_from _ _ _ _ s r s' Ho H) as Hm.
  destruct r as [a | e | c]; try exact Hm.
  unfold stack_panic in Hm. subst c.
  pose proof (bulkSkipArrayElements_total pol et n s) as Hn.
  rewrite H in Hn. exfalso. apply Hn. reflexivity.
Qed.

Lemma mild_index_typeNames i : mild index_panic (index typeNames i).
Proof.
  intros s r s' _ H. unfold index in H.
  destruct (typeNames !! Z.to_nat i); [destruct (i <? 0) |];
    injection H as <- _; try exact I; eexists _, _; reflexivity.
Qed.

Lemma mild_readExpanded_from fuel :
  forall et n i results,
    mild (fun c => stack_panic c \/ index_panic c)
         (readExpanded_from pol fuel et n i results).
Proof.
  induction fuel as [| fuel IH]; intros et n i results; cbn [readExpanded_from].
  { intros s r s' _ H. unfold crash in H. injection H as <- _. left. reflexivity. }
  destruct (i <? n); [| apply mild_ret].
  destruct (et =? tArray).
  - apply mild_bind; [apply tame_U32 | apply mild_U32 | intros nestedET].
    apply mild_bind; [apply tame_U64 | apply mild_U64 | intros nestedN].
    apply mild_bind; [apply tame_bulkSkipArrayElements
                     | apply (mild_weaken no_panic); [intros c [] |];
                       apply mild_bulkSkipArrayElements
                     | intros _].
    apply mild_bind; [apply tame_index
                     | apply (mild_weaken index_panic); [intros c Hc; right; exact Hc |];
                       apply mild_index_typeNames
                     | intros name].
    apply IH.
  - apply mild_bind; [apply tame_readScalar | apply mild_readScalar | intros r].
    apply IH.
Qed.

Lemma mild_readExpandedArray et n elemName :
  mild index_panic (readExpandedArray pol et n elemName).
Proof.
  intros s r s' Ho H.
  assert (Hm : mild (fun c => stack_panic c \/ index_panic c)
                 (readExpandedArray pol et n elemName)).
  { intros s0 r0 s0'. unfold readExpandedArray.
    apply mild_bind; [apply tame_readExpanded_from | apply mild_readExpanded_from
                     | intros; apply mild_ret]. }
  specialize (Hm s r s' Ho H).
  destruct r as [a | e | c]; try exact Hm.
  destruct Hm as [Hs | Hi]; [| exact Hi].
  unfold stack_panic in Hs. subst c.
  pose proof (readExpandedArray_total pol et n elemName s) as Hn.
  rewrite H in Hn. exfalso. apply Hn. reflexivity.
Qed.

Lemma mild_readArray key :
  mild (fun c => shouldExpand pol key = true /\ index_panic c) (readArray pol key).
Proof.
  unfold readArray.
  apply mild_bind; [apply tame_U32 | apply mild_U32 | intros et].
  apply mild_bind; [apply tame_U64 | apply mild_U64 | intros n].
  destruct (shouldExpand pol key) eqn:E.
  - intros s r s' Ho H.
    destruct (readExpandedArray pol et n _ s) as [[[v l] | e | c] s1] eqn:Ex;
      injection H as <- _; pose proof (mild_readExpandedArray _ _ _ _ _ _ Ho Ex) as Hm;
      cbn in Hm; auto.
  - apply mild_bind; [apply tame_bulkSkipArrayElements
                     | apply (mild_weaken no_panic); [intros c [] |];
                       apply mild_bulkSkipArrayElements
                     | intros; apply mild_ret].
Qed.

Lemma mild_readValue align tag key :
  mild (fun c => shouldExpand pol key = true /\ index_panic c)
       (readValue pol align tag key).
Proof.
  unfold readValue.
  apply mild_bind; [destruct align; [apply tame_Align | apply tame_ret]
                   | destruct align; [apply mild_Align8 | apply mild_ret]
                   | intros _].
  destruct (tag =? tArray); [apply mild_readArray |].
  apply mild_bind; [apply tame_readScalar | apply mild_readScalar
                   | intros; apply mild_ret].
Qed.

End MildFacts.



(** ** The alignment mode *)

(** X19: what [alignBeforeValue] changes.  With the mode on, a value is
    decoded exactly as with the mode off but from the next multiple of 8:
    the padding, at most 7 bytes, is read first; at a position that is a
    multiple of 8 already the two modes do the same; and when the file ends
    inside the padding the read of the value fails with a short read. *)
Theorem readValue_alignment (pol : policy) (tag : Z) (key : string) (s : scanner) :
  scanner_wf s ->
  0 <= padding 8 s < 8 /\
  (pos s + padding 8 s) mod 8 = 0 /\
  (padding 8 s <= len (src s) ->
     readValue pol true tag key s
     = readValue pol false tag key (advance s (padding 8 s))) /\
  (pos s mod 8 = 0 ->
     readValue pol true tag key s = readValue pol false tag key s) /\
  (len (src s) < padding 8 s ->
     exists e, readValue pol true tag key s = (Fail e, drained s) /\
               is_ShortRead e = true).
Proof.
  intros W.
  destruct (Align_cases 8 s W ltac:(lia)) as (Hp & Hz & H0 & Hok & Hshort).
  assert (Hoff : forall s0, readValue pol false tag key s0
                   = (if tag =? tArray then readArray pol key
                      else r <- readScalar pol tag ;; ret (fst r, snd r, false)) s0).
  { intros s0. unfold readValue. reflexivity. }
  split; [exact Hp |]. split; [exact Hz |].
  split; [| split].
  - intros Hl. rewrite Hoff. unfold readValue, Align8.
    rewrite (bind_eq_Ok _ _ _ _ _ (Hok Hl)). reflexivity.
  - intros Ha. rewrite Hoff. unfold readValue, Align8.
    pose proof (len_nonneg (src s)).
    rewrite (bind_eq_Ok _ _ _ _ _ (Hok ltac:(rewrite (H0 Ha); lia))).
    rewrite (H0 Ha), advance_0. reflexivity.
  - intros Hl. destruct (Hshort Hl) as (e & He & Hs).
    exists e. split; [| exact Hs]. unfold readValue, Align8.
    rewrite (bind_eq_Fail _ _ _ _ _ He). reflexivity.
Qed.

Lemma readValue_alignment_witness :
  readValue defaultPolicy true tUint32 "a"
    (file_scanner LittleEndian [x00; x00; x00; x2a; x00; x00; x00] 37)
  = (Ok (VUint32 42, "uint32", false), file_scanner LittleEndian [] 44).
Proof.
  destruct (readValue_alignment defaultPolicy tUint32 "a"
              (file_scanner LittleEndian [x00; x00; x00; x2a; x00; x00; x00] 37)
              ltac:(unfold scanner_wf, len; cbn; lia)) as (_ & _ & H & _).
  rewrite (H ltac:(vm_compute; discriminate)). vm_compute. reflexivity.
Defined.

(** ** The scanner under the stream *)

(** X20: whatever a [nextKV] call ends in, a record, no more entries, an
    error or a panic, over a file it leaves the scanner well formed, with
    the byte order it had, a position that has not gone back and a reader
    that has not grown; and so does any number of calls of the main loop. *)
Theorem stream_keeps_scanner_invariants
    (align : bool) (matchKey : string -> bool) (fuel : nat) (p : parser) :
  scanner_wf (scn p) ->
  (forall r p', nextKV align p = (r, p') ->
     scanner_wf (scn p') /\ order (scn p') = order (scn p) /\
     pos (scn p) <= pos (scn p') /\
     len (src (scn p')) <= len (src (scn p))) /\
  let q := final (mainLoop align matchKey fuel p) in
  scanner_wf (scn q) /\ order (scn q) = order (scn p) /\
  pos (scn p) <= pos (scn q) /\
  len (src (scn q)) <= len (src (scn p)).
Proof.
  intros W.
  assert (Hone : forall p0 r p', scanner_wf (scn p0) -> nextKV align p0 = (r, p') ->
            scanner_wf (scn p') /\ order (scn p') = order (scn p0) /\
            pos (scn p0) <= pos (scn p') /\
            len (src (scn p')) <= len (src (scn p0))).
  { intros p0 r p' W0 H. destruct (nextKV_scn align p0 r p' H) as (s' & -> & Ho & Hl & Hw).
    destruct (Hw W0) as [W' Hpos]. cbn [scn set_kvRemain set_scn].
    split; [exact W' |]. split; [exact Ho |]. split; [exact Hpos |].
    unfold len; lia. }
  split; [intros r p' H; exact (Hone p r p' W H) |].
  cbv zeta. revert p W.
  induction fuel as [| fuel' IH]; intros p W; cbn [mainLoop].
  { cbn [final]. split; [exact W |]. split; [reflexivity |]. lia. }
  destruct (nextKV align p) as [[[ev [|]] | e | c] p'] eqn:E; cbn [final];
    destruct (Hone p _ p' W E) as (W' & Ho & Hp & Hl);
    try (split; [exact W' |]; split; [exact Ho |]; split; [exact Hp | exact Hl]).
  destruct (IH p' W') as (W2 & Ho2 & Hp2 & Hl2).
  split; [exact W2 |]. split; [congruence |]. lia.
Qed.

Lemma stream_keeps_scanner_invariants_witness :
  let q := final (mainLoop false (fun _ => true) 3 scenario_parser) in
  scanner_wf (scn q) /\ 24 <= pos (scn q).
Proof.
  cbv zeta.
  destruct (stream_keeps_scanner_invariants false (fun _ => true) 3 scenario_parser
              ltac:(unfold scanner_wf, len; cbn; lia)) as [_ (H1 & _ & H2 & _)].
  split; [exact H1 | exact H2].
Defined.

(** ** Skipping and expanding, side by side *)

